(** * MyCache: LRU, K-LRU, sharded LRU and LFU caches

    A shallow embedding of [MyLruCache.h] and [MyLfuCache.h].

    The C++ classes keep their nodes behind [std::shared_ptr] and link them
    into doubly linked lists, so one node is reachable through several
    pointers at once (the index map, the neighbours' [prev_]/[next_] fields, a
    reference bound to a field).  The embedding therefore keeps an explicit
    store of nodes, addressed by their index, and every method is a function
    from the object's state to [option] of the new state: [None] stands for
    undefined behaviour (a null pointer dereferenced, a signed overflow).

    Conventions.
    - A [NodePtr] is [option nat]: [None] is [nullptr], [Some p] is the
      address [p] of a node of the store.  A shared pointer keeps its node
      alive, so nodes are never taken out of the store.
    - [std::unordered_map<Key, NodePtr>] is a [gmap Key nat]; no null pointer
      is ever stored in it.
    - [int] is a [Z] in the 32-bit signed range, [size_t] a [Z] modulo 2^64;
      the conversions the code performs implicitly are written out.
    - The mutexes are not modelled: every method runs to completion.

    The headers are not well-formed C++ in a few places; they are read as
    follows, and nothing else is repaired.
    - [MyLruCache::insertNode], last line, [dummyTail_ - prev_ = node] is
      read [dummyTail_->prev_ = node].
    - [MyLruCache::evictLeastRecent], [nodeptr& node] is read
      [NodePtr& node]: a reference bound to the field [dummyHead_->next_].
    - [MyKLruCache] calls [historyList_->removeNode(key)] with a key, an
      overload [MyLruCache] does not declare, and [MyKLruCache::get] passes
      an undeclared local [value]; both are parameters of the embedding.
    - [MyHashLru]'s constructor names an undeclared [sliceNum], read [slice],
      and builds its shards with one constructor argument; the two missing
      ones are parameters of the embedded constructor.
    - [MyHashLru::get(key, value)] calls the two-argument [get] on a
      [MyKLruCache], which declares none; it is read as the one inherited
      from [MyLruCache]. *)

From stdpp Require Import gmap strings list fin_maps.

Open Scope Z_scope.

(** Closed goals about runs of the code are settled by evaluation. *)
Ltac by_evaluation :=
  lazymatch goal with
  | |- _ ∧ _ => split; [vm_compute; reflexivity | by_evaluation]
  | |- _ => vm_compute; reflexivity
  end.

(** ** Machine integers *)

Definition INT_MIN : Z := - 2 ^ 31.

Definition INT_MAX : Z := 2 ^ 31 - 1.

Definition INT8_MAX : Z := 127.

Definition SIZE_WIDTH : Z := 2 ^ 64.

(** Conversion of an integer to [size_t]. *)
Definition to_size_t (z : Z) : Z := z mod SIZE_WIDTH.

(** Conversion of an integer to [int] (two's complement truncation). *)
Definition to_int (z : Z) : Z := (z + 2 ^ 31) mod 2 ^ 32 - 2 ^ 31.

(** The result of a signed [int] operation: overflow is undefined. *)
Definition int_result (z : Z) : option Z :=
  if decide (INT_MIN ≤ z ≤ INT_MAX) then Some z else None.

(** ** The LRU engine, [MyLruCache<Key, Value>] *)

Module Lru.
Section lru.
Context {Key : Type} `{Countable Key} {Value : Type}.
(** [Key()] and [Value()], the payload of the two sentinels. *)
Context (Key0 : Key) (Value0 : Value).

Record MyLruNode := {
  key_ : Key;
  value_ : Value;
  visCount_ : Z;
  prev_ : option nat;
  next_ : option nat
}.

Record MyLruCache := {
  capacity_ : Z;
  nodeMap_ : gmap Key nat;
  dummyHead_ : nat;
  dummyTail_ : nat;
  heap : list MyLruNode
}.

(** [MyLruNode(key, value)] *)
Definition new_node (key : Key) (value : Value) : MyLruNode :=
  {| key_ := key; value_ := value; visCount_ := 0; prev_ := None; next_ := None |}.

Definition set_prev (q : option nat) (n : MyLruNode) : MyLruNode :=
  {| key_ := key_ n; value_ := value_ n; visCount_ := visCount_ n;
     prev_ := q; next_ := next_ n |}.

Definition set_next (q : option nat) (n : MyLruNode) : MyLruNode :=
  {| key_ := key_ n; value_ := value_ n; visCount_ := visCount_ n;
     prev_ := prev_ n; next_ := q |}.

(** [node->setValue(value)] *)
Definition setValue (v : Value) (n : MyLruNode) : MyLruNode :=
  {| key_ := key_ n; value_ := v; visCount_ := visCount_ n;
     prev_ := prev_ n; next_ := next_ n |}.

Definition set_heap (h : list MyLruNode) (c : MyLruCache) : MyLruCache :=
  {| capacity_ := capacity_ c; nodeMap_ := nodeMap_ c;
     dummyHead_ := dummyHead_ c; dummyTail_ := dummyTail_ c; heap := h |}.

Definition set_nodeMap (m : gmap Key nat) (c : MyLruCache) : MyLruCache :=
  {| capacity_ := capacity_ c; nodeMap_ := m;
     dummyHead_ := dummyHead_ c; dummyTail_ := dummyTail_ c; heap := heap c |}.

(** [p->field = ...]: a write through the pointer [p]. *)
Definition store (p : nat) (f : MyLruNode → MyLruNode) (c : MyLruCache)
  : option MyLruCache :=
  n ← heap c !! p; Some (set_heap (<[p := f n]> (heap c)) c).

(** [std::make_shared<NodeType>(key, value)]: the new node's address and
    the state that holds it. *)
Definition make_shared (key : Key) (value : Value) (c : MyLruCache)
  : nat * MyLruCache :=
  (length (heap c), set_heap (heap c ++ [new_node key value]) c).

(** The constructor: [capacity_(capacity)], then [initialzeList()]. *)
Definition initialzeList (capacity : Z) : MyLruCache :=
  {| capacity_ := capacity; nodeMap_ := ∅; dummyHead_ := 0%nat; dummyTail_ := 1%nat;
     heap := [ set_next (Some 1%nat) (new_node Key0 Value0);
               set_prev (Some 0%nat) (new_node Key0 Value0) ] |}.

(** [node->next_->prev_ = node->prev_; node->prev_->next_ = node->next_;] *)
Definition removeNode (node : nat) (c : MyLruCache) : option MyLruCache :=
  n ← heap c !! node;
  nx ← next_ n;
  c1 ← store nx (set_prev (prev_ n)) c;
  n1 ← heap c1 !! node;
  pv ← prev_ n1;
  store pv (set_next (next_ n1)) c1.

(** [node->next_ = dummyTail_; node->prev_ = dummyTail_->prev_;
     dummyTail_->prev_->next_ = node; dummyTail_->prev_ = node;] *)
Definition insertNode (node : nat) (c : MyLruCache) : option MyLruCache :=
  c1 ← store node (set_next (Some (dummyTail_ c))) c;
  t1 ← heap c1 !! dummyTail_ c1;
  c2 ← store node (set_prev (prev_ t1)) c1;
  t2 ← heap c2 !! dummyTail_ c2;
  last ← prev_ t2;
  c3 ← store last (set_next (Some node)) c2;
  store (dummyTail_ c3) (set_prev (Some node)) c3.

Definition moveToMostRecent (node : nat) (c : MyLruCache) : option MyLruCache :=
  c1 ← removeNode node c; insertNode node c1.

Definition updateExistNode (node : nat) (value : Value) (c : MyLruCache)
  : option MyLruCache :=
  c1 ← store node (setValue value) c; moveToMostRecent node c1.

(** [NodePtr& node = dummyHead_->next_; removeNode(node);
     nodeMap_.erase(node->getKey());]

    [removeNode] takes its argument by value, so it unlinks the node that
    was first; [node] is a reference to the field [dummyHead_->next_], which
    [removeNode] has just overwritten, so the key that is erased is read
    from the node that is first after the unlinking. *)
Definition evictLeastRecent (c : MyLruCache) : option MyLruCache :=
  hd ← heap c !! dummyHead_ c;
  first ← next_ hd;
  c1 ← removeNode first c;
  hd1 ← heap c1 !! dummyHead_ c1;
  node ← next_ hd1;
  n ← heap c1 !! node;
  Some (set_nodeMap (delete (key_ n) (nodeMap_ c1)) c1).

(** [nodeMap_.size() > capacity_] compares a [size_t] with an [int]: the
    [int] is converted to [size_t]. *)
Definition addNode (key : Key) (value : Value) (c : MyLruCache) : option MyLruCache :=
  let '(node, c1) := make_shared key value c in
  c2 ← insertNode node c1;
  let c3 := set_nodeMap (<[key := node]> (nodeMap_ c2)) c2 in
  if decide (to_size_t (capacity_ c3) < Z.of_nat (size (nodeMap_ c3)))
  then evictLeastRecent c3 else Some c3.

(** [void put(Key key, Value value)] *)
Definition put (key : Key) (value : Value) (c : MyLruCache) : option MyLruCache :=
  if decide (capacity_ c < 0) then Some c else
  match nodeMap_ c !! key with
  | Some node => updateExistNode node value c
  | None => addNode key value c
  end.

(** [bool get(Key key, Value& value)]: the result, the content of [value]
    afterwards, and the new state. *)
Definition get (key : Key) (value : Value) (c : MyLruCache)
  : option (bool * Value * MyLruCache) :=
  match nodeMap_ c !! key with
  | Some node =>
      c1 ← moveToMostRecent node c;
      n ← heap c1 !! node;
      Some (true, value_ n, c1)
  | None => Some (false, value, c)
  end.

(** [Value get(Key key)]: [Value value{}; get(key, value); return value;] *)
Definition get1 (key : Key) (c : MyLruCache) : option (Value * MyLruCache) :=
  '(_, value, c1) ← get key Value0 c; Some (value, c1).

(** *** What an observer reads off a state *)

(** The nodes met from [p] on by following [next_], up to the tail sentinel
    (or up to a null pointer). *)
Fixpoint walk (fuel : nat) (p : nat) (c : MyLruCache) : list nat :=
  match fuel with
  | O => []
  | S fuel' =>
      if decide (p = dummyTail_ c) then [] else
      match heap c !! p with
      | Some n => p :: match next_ n with
                       | Some q => walk fuel' q c
                       | None => []
                       end
      | None => []
      end
  end.

(** The keys of the entries between the two sentinels, least recent first. *)
Definition listed_keys (c : MyLruCache) : list Key :=
  match heap c !! dummyHead_ c with
  | Some hd =>
      match next_ hd with
      | Some p => omap (λ q, key_ <$> heap c !! q) (walk (length (heap c)) p c)
      | None => []
      end
  | None => []
  end.

(** The keys of the index map. *)
Definition mapped_keys (c : MyLruCache) : gset Key := dom (nodeMap_ c).

(** The value the index map holds for a key. *)
Definition cached (key : Key) (c : MyLruCache) : option Value :=
  p ← nodeMap_ c !! key; n ← heap c !! p; Some (value_ n).

(** *** What the proofs keep track of *)

Definition payload (n : MyLruNode) : Key * Value := (key_ n, value_ n).

Definition payloads (c : MyLruCache) : list (Key * Value) := payload <$> heap c.

(** [c'] is [c] up to the [prev_] and [next_] fields of its nodes. *)
Definition relinked (c c' : MyLruCache) : Prop :=
  capacity_ c' = capacity_ c ∧ nodeMap_ c' = nodeMap_ c ∧
  dummyHead_ c' = dummyHead_ c ∧ dummyTail_ c' = dummyTail_ c ∧
  payloads c' = payloads c.

(** The index map names every node by the node's own key. *)
Definition keyed (c : MyLruCache) : Prop :=
  ∀ x p, nodeMap_ c !! x = Some p → fst <$> payloads c !! p = Some x.

End lru.
End Lru.

(** ** The K-promotion wrapper, [MyKLruCache<Key, Value>]

    [put] compares a [Value] with the empty string, so the wrapper is
    embedded at [Value = std::string]; the history cache is a
    [MyLruCache<Key, size_t>]. *)

Module KLru.
Section klru.
Context {Key : Type} `{Countable Key}.
Context (Key0 : Key).
(** The overload [removeNode(Key)] that [put] and [get] call on the history
    cache; [MyLruCache] only declares [removeNode(NodePtr)]. *)
Context (removeNode_key :
  Key → @Lru.MyLruCache Key _ _ Z → option (@Lru.MyLruCache Key _ _ Z)).
(** The local [value] that [get] passes to [MyLruCache::put] without
    declaring it. *)
Context (get_value : string).

(** The base class subobject is the main cache. *)
Record MyKLruCache := {
  base : @Lru.MyLruCache Key _ _ string;
  k_ : Z;
  historyList_ : @Lru.MyLruCache Key _ _ Z
}.

(** [MyKLruCache(capactity, historyCapactiy, k)] *)
Definition make (capactity historyCapactiy k : Z) : MyKLruCache :=
  {| base := Lru.initialzeList Key0 "" capactity;
     k_ := k;
     historyList_ := Lru.initialzeList Key0 0 historyCapactiy |}.

(** [void put(Key key, Value value)] *)
Definition put (key : Key) (value : string) (s : MyKLruCache) : option MyKLruCache :=
  '(v, m1) ← Lru.get1 "" key (base s);
  m2 ← (if decide (v ≠ "") then Lru.put key value m1 else Some m1);
  '(hv, h1) ← Lru.get1 0 key (historyList_ s);
  let historyCount := to_int hv in
  historyCount' ← int_result (historyCount + 1);
  h2 ← Lru.put key (to_size_t historyCount') h1;
  if decide (k_ s ≤ historyCount') then
    h3 ← removeNode_key key h2;
    m3 ← Lru.put key value m2;
    Some {| base := m3; k_ := k_ s; historyList_ := h3 |}
  else Some {| base := m2; k_ := k_ s; historyList_ := h2 |}.

(** [Value get(Key key)] *)
Definition get (key : Key) (s : MyKLruCache) : option (string * MyKLruCache) :=
  '(hv, h1) ← Lru.get1 0 key (historyList_ s);
  let historyCount := to_int hv in
  '(m1, h2) ←
    (if decide (k_ s ≤ historyCount) then
       h ← removeNode_key key h1;
       m ← Lru.put key get_value (base s);
       Some (m, h)
     else
       historyCount' ← int_result (historyCount + 1);
       h ← Lru.put key (to_size_t historyCount') h1;
       Some (base s, h));
  '(v, m2) ← Lru.get1 "" key m1;
  Some (v, {| base := m2; k_ := k_ s; historyList_ := h2 |}).

(** The count that [int historyCount = historyList_->get(key)] reads. *)
Definition historyCount (key : Key) (s : MyKLruCache) : Z :=
  to_int (default 0 (Lru.cached key (historyList_ s))).

(** Whether the main cache holds the key. *)
Definition in_main (key : Key) (s : MyKLruCache) : Prop :=
  key ∈ Lru.mapped_keys (base s).

(** *** Sequences of calls *)

Inductive call := Put (key : Key) (value : string) | Get (key : Key).

Definition call_key (o : call) : Key :=
  match o with Put key _ => key | Get key => key end.

Definition step (o : call) (s : MyKLruCache) : option MyKLruCache :=
  match o with
  | Put key value => put key value s
  | Get key => '(_, s') ← get key s; Some s'
  end.

Fixpoint run (os : list call) (s : MyKLruCache) : option MyKLruCache :=
  match os with
  | [] => Some s
  | o :: os' => s' ← step o s; run os' s'
  end.

(** How many calls of the sequence are on [key]. *)
Fixpoint accesses (key : Key) (os : list call) : Z :=
  match os with
  | [] => 0
  | o :: os' => (if decide (call_key o = key) then 1 else 0) + accesses key os'
  end.

(** Before the [a]-th access to [x] is over, the history cache counts at
    most [a] accesses to [x], and [x] is not in the main cache. *)
Definition gated (x : Key) (a : Z) (s : MyKLruCache) : Prop :=
  Lru.keyed (historyList_ s) ∧
  (∀ v, Lru.cached x (historyList_ s) = Some v → 0 ≤ v ≤ a ∧ v ≤ INT_MAX) ∧
  ¬ in_main x s.

End klru.

(** One reading of [historyList_->removeNode(key)]: the node the history
    cache maps the key to is unlinked by [removeNode(NodePtr)]. *)
Definition removeNode_of_key {Key : Type} `{Countable Key}
    (key : Key) (h : @Lru.MyLruCache Key _ _ Z) : option (@Lru.MyLruCache Key _ _ Z) :=
  match Lru.nodeMap_ h !! key with
  | Some node => Lru.removeNode node h
  | None => Some h
  end.

End KLru.

(** ** The sharded cache, [MyHashLru<Key, Value>] *)

Module HashLru.
Section hashlru.
Context {Key : Type} `{Countable Key}.
Context (Key0 : Key).
(** The overload [removeNode(Key)] that the shards' [put] calls. *)
Context (removeNode_key :
  Key → @Lru.MyLruCache Key _ _ Z → option (@Lru.MyLruCache Key _ _ Z)).
(** [std::hash<Key>] and [std::thread::hardware_concurrency()]. *)
Context (hashFunc : Key → Z) (hardware_concurrency : Z).

Record MyHashLru := {
  capacity_ : Z;
  sliceNum_ : Z;
  lruSliceCaches_ : list (@KLru.MyKLruCache Key _ _)
}.

Definition set_slices (l : list (@KLru.MyKLruCache Key _ _)) (h : MyHashLru)
  : MyHashLru :=
  {| capacity_ := capacity_ h; sliceNum_ := sliceNum_ h; lruSliceCaches_ := l |}.

(** [MyHashLru(capacity, slice)]; [historyCapactiy] and [k] are the two
    arguments the shards' constructor is not given.

    The constructor computes the per-shard size in floating point,
    [std::ceil(capacity_ / static_cast<double>(sliceNum_))].  The embedding
    has no floating point and takes the integer ceiling, which is the
    constructor's value for a positive [sliceNum_] and a capacity below
    2^53, where both operands are exact doubles.  Outside this range the
    capacity of the shards need not be the constructor's, and the
    constructor is undefined where it converts an infinity, a NaN or an
    out-of-range value to [size_t] (a [sliceNum_] of 0, a negative
    [sliceNum_] with a larger capacity, a capacity that rounds to 2^64),
    which this total function does not show.  Nothing below is stated of a
    cache built with a [sliceNum_] that is not positive, nor of the
    capacity of the shards. *)
Definition make (capacity slice historyCapactiy k : Z) : MyHashLru :=
  let sliceNum := if decide (0 < slice) then slice else to_int hardware_concurrency in
  let size := (to_size_t capacity + sliceNum - 1) `div` sliceNum in
  {| capacity_ := to_size_t capacity;
     sliceNum_ := sliceNum;
     lruSliceCaches_ :=
       replicate (Z.to_nat sliceNum) (KLru.make Key0 (to_int size) historyCapactiy k) |}.

(** [size_t Hash(Key key)] *)
Definition Hash (key : Key) : Z := to_size_t (hashFunc key).

(** [size_t sliceIndex = Hash(key) % sliceNum_]: the [int] divisor is
    converted to [size_t]; a zero divisor is undefined. *)
Definition sliceIndex (key : Key) (h : MyHashLru) : option nat :=
  let n := to_size_t (sliceNum_ h) in
  if decide (n = 0) then None else Some (Z.to_nat (Hash key `mod` n)).

(** [void put(Key key, Value value)] *)
Definition put (key : Key) (value : string) (h : MyHashLru) : option MyHashLru :=
  i ← sliceIndex key h;
  shard ← lruSliceCaches_ h !! i;
  shard' ← KLru.put removeNode_key key value shard;
  Some (set_slices (<[i := shard']> (lruSliceCaches_ h)) h).

(** [bool get(Key key, Value& value)] *)
Definition get (key : Key) (value : string) (h : MyHashLru)
  : option (bool * string * MyHashLru) :=
  i ← sliceIndex key h;
  shard ← lruSliceCaches_ h !! i;
  '(found, value', m) ← Lru.get key value (KLru.base shard);
  let shard' := {| KLru.base := m; KLru.k_ := KLru.k_ shard;
                   KLru.historyList_ := KLru.historyList_ shard |} in
  Some (found, value', set_slices (<[i := shard']> (lruSliceCaches_ h)) h).

End hashlru.
End HashLru.

(** ** The LFU engine, [Freqlist<Key, Value>] and [MyLfuCache<Key, Value>] *)

Module Lfu.
Section lfu.
Context {Key : Type} `{Countable Key} {Value : Type}.
(** The key and value of a default-constructed [Node] (a list sentinel). *)
Context (Key0 : Key) (Value0 : Value).
(** The order in which a traversal of [nodeMap_] meets its entries; the
    standard leaves it unspecified. *)
Context (iteration_order : gmap Key nat → list (Key * nat)).

Record Node := {
  freq : Z;
  key : Key;
  value : Value;
  prev : option nat;
  next : option nat
}.

(** A [Freqlist] object; its fields are set by the constructor and never
    written again. *)
Record Freqlist := { freq_ : Z; head_ : nat; tail_ : nat }.

Record MyLfuCache := {
  capacity_ : Z;
  minFreq_ : Z;
  maxAverageNum_ : Z;
  curAverageNum_ : Z;
  curTotalNum_ : Z;
  nodeMap_ : gmap Key nat;
  freqToFreqList_ : gmap Z Freqlist;
  heap : list Node
}.

(** [Node()] and [Node(key, value)] *)
Definition Node_default : Node :=
  {| freq := 1; key := Key0; value := Value0; prev := None; next := None |}.

Definition Node_new (k : Key) (v : Value) : Node :=
  {| freq := 1; key := k; value := v; prev := None; next := None |}.

Definition set_freq (f : Z) (n : Node) : Node :=
  {| freq := f; key := key n; value := value n; prev := prev n; next := next n |}.

Definition set_value (v : Value) (n : Node) : Node :=
  {| freq := freq n; key := key n; value := v; prev := prev n; next := next n |}.

Definition set_prev (q : option nat) (n : Node) : Node :=
  {| freq := freq n; key := key n; value := value n; prev := q; next := next n |}.

Definition set_next (q : option nat) (n : Node) : Node :=
  {| freq := freq n; key := key n; value := value n; prev := prev n; next := q |}.

Definition set_heap (h : list Node) (c : MyLfuCache) : MyLfuCache :=
  {| capacity_ := capacity_ c; minFreq_ := minFreq_ c;
     maxAverageNum_ := maxAverageNum_ c; curAverageNum_ := curAverageNum_ c;
     curTotalNum_ := curTotalNum_ c; nodeMap_ := nodeMap_ c;
     freqToFreqList_ := freqToFreqList_ c; heap := h |}.

Definition set_nodeMap (m : gmap Key nat) (c : MyLfuCache) : MyLfuCache :=
  {| capacity_ := capacity_ c; minFreq_ := minFreq_ c;
     maxAverageNum_ := maxAverageNum_ c; curAverageNum_ := curAverageNum_ c;
     curTotalNum_ := curTotalNum_ c; nodeMap_ := m;
     freqToFreqList_ := freqToFreqList_ c; heap := heap c |}.

Definition set_freqToFreqList (m : gmap Z Freqlist) (c : MyLfuCache) : MyLfuCache :=
  {| capacity_ := capacity_ c; minFreq_ := minFreq_ c;
     maxAverageNum_ := maxAverageNum_ c; curAverageNum_ := curAverageNum_ c;
     curTotalNum_ := curTotalNum_ c; nodeMap_ := nodeMap_ c;
     freqToFreqList_ := m; heap := heap c |}.

Definition set_minFreq (f : Z) (c : MyLfuCache) : MyLfuCache :=
  {| capacity_ := capacity_ c; minFreq_ := f;
     maxAverageNum_ := maxAverageNum_ c; curAverageNum_ := curAverageNum_ c;
     curTotalNum_ := curTotalNum_ c; nodeMap_ := nodeMap_ c;
     freqToFreqList_ := freqToFreqList_ c; heap := heap c |}.

(** [curTotalNum_] and [curAverageNum_] are always written together. *)
Definition set_counts (total average : Z) (c : MyLfuCache) : MyLfuCache :=
  {| capacity_ := capacity_ c; minFreq_ := minFreq_ c;
     maxAverageNum_ := maxAverageNum_ c; curAverageNum_ := average;
     curTotalNum_ := total; nodeMap_ := nodeMap_ c;
     freqToFreqList_ := freqToFreqList_ c; heap := heap c |}.

(** [p->field = ...] *)
Definition store (p : nat) (f : Node → Node) (c : MyLfuCache) : option MyLfuCache :=
  n ← heap c !! p; Some (set_heap (<[p := f n]> (heap c)) c).

(** *** [Freqlist] *)

(** [new Freqlist<Key, Value>(n)]: two sentinels, linked to each other. *)
Definition Freqlist_new (n : Z) (c : MyLfuCache) : Freqlist * MyLfuCache :=
  let h := length (heap c) in
  ({| freq_ := n; head_ := h; tail_ := S h |},
   set_heap (heap c ++ [ set_next (Some (S h)) Node_default;
                         set_prev (Some h) Node_default ]) c).

(** [void addNode(NodePtr node)]; the three pointers it tests are never
    null. *)
Definition Freqlist_addNode (l : Freqlist) (node : nat) (c : MyLfuCache)
  : option MyLfuCache :=
  t ← heap c !! tail_ l;
  c1 ← store node (set_prev (prev t)) c;
  c2 ← store node (set_next (Some (tail_ l))) c1;
  t2 ← heap c2 !! tail_ l;
  last ← prev t2;
  c3 ← store last (set_next (Some node)) c2;
  store (tail_ l) (set_prev (Some node)) c3.

(** [void remove(NodePtr node)] *)
Definition Freqlist_remove (l : Freqlist) (node : nat) (c : MyLfuCache)
  : option MyLfuCache :=
  n ← heap c !! node;
  match prev n, next n with
  | Some pv, Some _ =>
      c1 ← store pv (set_next (next n)) c;
      n1 ← heap c1 !! node;
      nx ← next n1;
      c2 ← store nx (set_prev (prev n1)) c1;
      c3 ← store node (set_prev None) c2;
      store node (set_next None) c3
  | _, _ => Some c
  end.

(** [bool isEmpty() const] *)
Definition isEmpty (l : Freqlist) (c : MyLfuCache) : option bool :=
  hd ← heap c !! head_ l; Some (bool_decide (next hd = Some (tail_ l))).

(** [NodePtr getFirstNode() const] *)
Definition getFirstNode (l : Freqlist) (c : MyLfuCache) : option (option nat) :=
  hd ← heap c !! head_ l; Some (next hd).

(** *** [MyLfuCache] *)

(** [MyLfuCache(capacity, maxAverageNum)].  The initialiser list leaves
    [curTotalNum_] out: it starts with whatever [curTotalNum0] the storage
    holds. *)
Definition make (capacity maxAverageNum curTotalNum0 : Z) : MyLfuCache :=
  {| capacity_ := capacity; minFreq_ := INT8_MAX; maxAverageNum_ := maxAverageNum;
     curAverageNum_ := 0; curTotalNum_ := curTotalNum0;
     nodeMap_ := ∅; freqToFreqList_ := ∅; heap := [] |}.

(** [freqToFreqList_[freq]->remove(node)]: [operator[]] yields a null
    pointer for a frequency that has no list. *)
Definition removeFromFreqList (node : nat) (c : MyLfuCache) : option MyLfuCache :=
  n ← heap c !! node;
  l ← freqToFreqList_ c !! freq n;
  Freqlist_remove l node c.

Definition addToFreqList (node : nat) (c : MyLfuCache) : option MyLfuCache :=
  n ← heap c !! node;
  let c1 :=
    match freqToFreqList_ c !! freq n with
    | Some _ => c
    | None =>
        let '(l, c') := Freqlist_new (freq n) c in
        set_freqToFreqList (<[freq n := l]> (freqToFreqList_ c')) c'
    end in
  l ← freqToFreqList_ c1 !! freq n;
  Freqlist_addNode l node c1.

(** [minFreq_ = INT8_MAX], then the minimum over the non-empty lists, then
    1 if [minFreq_] is still [INT8_MAX]. *)
Fixpoint scan_minFreq (ls : list (Z * Freqlist)) (m : Z) (c : MyLfuCache) : option Z :=
  match ls with
  | [] => Some m
  | (f, l) :: ls' =>
      e ← isEmpty l c;
      scan_minFreq ls' (if (e : bool) then m else Z.min m f) c
  end.

Definition updateMinFreq (c : MyLfuCache) : option MyLfuCache :=
  m ← scan_minFreq (map_to_list (freqToFreqList_ c)) INT8_MAX c;
  Some (set_minFreq (if decide (m = INT8_MAX) then 1 else m) c).

(** The body of the loop of [handleOverMaxAverageNum]. *)
Definition age (node : nat) (c : MyLfuCache) : option MyLfuCache :=
  c1 ← removeFromFreqList node c;
  n ← heap c1 !! node;
  f ← int_result (freq n - maxAverageNum_ c1 `quot` 2);
  c2 ← store node (set_freq (if decide (f < 1) then 1 else f)) c1;
  addToFreqList node c2.

Fixpoint age_all (ns : list (Key * nat)) (c : MyLfuCache) : option MyLfuCache :=
  match ns with
  | [] => Some c
  | (_, node) :: ns' => c1 ← age node c; age_all ns' c1
  end.

Definition handleOverMaxAverageNum (c : MyLfuCache) : option MyLfuCache :=
  if decide (nodeMap_ c = ∅) then Some c else
  c1 ← age_all (iteration_order (nodeMap_ c)) c;
  updateMinFreq c1.

(** [curTotalNum_ / nodeMap_.size()], an [int] by a [size_t]: the division
    is unsigned and its result is converted back to [int]. *)
Definition average (total : Z) (m : gmap Key nat) : Z :=
  if decide (m = ∅) then 0
  else to_int (to_size_t total `div` Z.of_nat (size m)).

(** Whether [addFreqNum] finds the average above the ceiling. *)
Definition over_ceiling (c : MyLfuCache) : Prop :=
  maxAverageNum_ c < average (curTotalNum_ c + 1) (nodeMap_ c).

Definition addFreqNum (c : MyLfuCache) : option MyLfuCache :=
  total ← int_result (curTotalNum_ c + 1);
  let c1 := set_counts total (average total (nodeMap_ c)) c in
  if decide (maxAverageNum_ c1 < curAverageNum_ c1)
  then handleOverMaxAverageNum c1 else Some c1.

Definition decreaseFreqNum (num : Z) (c : MyLfuCache) : option MyLfuCache :=
  total ← int_result (curTotalNum_ c - num);
  Some (set_counts total (average total (nodeMap_ c)) c).

Definition kickOut (c : MyLfuCache) : option MyLfuCache :=
  l ← freqToFreqList_ c !! minFreq_ c;
  first ← getFirstNode l c;
  node ← first;
  n ← heap c !! node;
  let c1 := set_nodeMap (delete (key n) (nodeMap_ c)) c in
  c2 ← removeFromFreqList node c1;
  n2 ← heap c2 !! node;
  decreaseFreqNum (freq n2) c2.

Definition putInternal (k : Key) (v : Value) (c : MyLfuCache) : option MyLfuCache :=
  let node := length (heap c) in
  let c1 := set_heap (heap c ++ [Node_new k v]) c in
  c2 ← (if decide (to_size_t (capacity_ c1) ≤ Z.of_nat (size (nodeMap_ c1)))
        then kickOut c1 else Some c1);
  let c3 := set_nodeMap (<[k := node]> (nodeMap_ c2)) c2 in
  addToFreqList node c3.

Definition getInternal (node : nat) (c : MyLfuCache) : option MyLfuCache :=
  c1 ← removeFromFreqList node c;
  n ← heap c1 !! node;
  f ← int_result (freq n + 1);
  c2 ← store node (set_freq f) c1;
  c3 ← addToFreqList node c2;
  n3 ← heap c3 !! node;
  m ← int_result (minFreq_ c3 + 1);
  c4 ← (if decide (freq n3 = m) then
          l ← freqToFreqList_ c3 !! minFreq_ c3;
          e ← isEmpty l c3;
          if (e : bool) then Some (set_minFreq m c3) else Some c3
        else Some c3);
  addFreqNum c4.

(** [void put(Key key, Value value)] *)
Definition put (k : Key) (v : Value) (c : MyLfuCache) : option MyLfuCache :=
  if decide (capacity_ c ≤ 0) then Some c else
  match nodeMap_ c !! k with
  | Some node => c1 ← store node (set_value v) c; getInternal node c1
  | None => putInternal k v c
  end.

(** [bool get(Key key, Value& value)] *)
Definition get (k : Key) (v : Value) (c : MyLfuCache)
  : option (bool * Value * MyLfuCache) :=
  match nodeMap_ c !! k with
  | Some node =>
      n ← heap c !! node;
      c1 ← getInternal node c;
      Some (true, value n, c1)
  | None => Some (false, v, c)
  end.

(** [Value get(Key key)]: [Value value; get(key, value); return value;],
    with [Value0] for the content of the local before the call. *)
Definition get1 (k : Key) (c : MyLfuCache) : option (Value * MyLfuCache) :=
  '(_, v, c1) ← get k Value0 c; Some (v, c1).

(** [void purge()] *)
Definition purge (c : MyLfuCache) : MyLfuCache :=
  set_freqToFreqList ∅ (set_nodeMap ∅ c).

(** *** What an observer reads off a state *)

(** The frequency stored in the entry of a key. *)
Definition frequency (k : Key) (c : MyLfuCache) : option Z :=
  p ← nodeMap_ c !! k; n ← heap c !! p; Some (freq n).

(** The nodes met from [p] on by following [next], up to the node [stop]. *)
Fixpoint walk (fuel : nat) (p stop : nat) (c : MyLfuCache) : list nat :=
  match fuel with
  | O => []
  | S fuel' =>
      if decide (p = stop) then [] else
      match heap c !! p with
      | Some n => p :: match next n with
                       | Some q => walk fuel' q stop c
                       | None => []
                       end
      | None => []
      end
  end.

(** The keys of the entries of the list of frequency [f], oldest first. *)
Definition bucket (f : Z) (c : MyLfuCache) : option (list Key) :=
  l ← freqToFreqList_ c !! f;
  hd ← heap c !! head_ l;
  p ← next hd;
  Some (omap (λ q, key <$> heap c !! q) (walk (length (heap c)) p (tail_ l) c)).

(** The frequencies whose list has at least one entry. *)
Definition occupied (c : MyLfuCache) : list Z :=
  omap (λ '(f, l), match isEmpty l c with
                   | Some false => Some f
                   | _ => None
                   end) (map_to_list (freqToFreqList_ c)).

(** *** Sequences of calls *)

Inductive call := Put (k : Key) (v : Value) | Get (k : Key) | Purge.

Definition step (o : call) (c : MyLfuCache) : option MyLfuCache :=
  match o with
  | Put k v => put k v c
  | Get k => '(_, c') ← get1 k c; Some c'
  | Purge => Some (purge c)
  end.

Fixpoint run (os : list call) (c : MyLfuCache) : option MyLfuCache :=
  match os with
  | [] => Some c
  | o :: os' => c' ← step o c; run os' c'
  end.

(** Whether a call runs [handleOverMaxAverageNum]: it is an access to a
    resident key that finds the average above the ceiling. *)
Definition rebalances (o : call) (c : MyLfuCache) : Prop :=
  match o with
  | Put k _ => 0 < capacity_ c ∧ is_Some (nodeMap_ c !! k) ∧ over_ceiling c
  | Get k => is_Some (nodeMap_ c !! k) ∧ over_ceiling c
  | Purge => False
  end.

(** *** What the proofs keep track of *)

Definition freqs (c : MyLfuCache) : list Z := freq <$> heap c.

(** The fields that only [put], [get] and [purge] themselves, [kickOut]
    and the two counters' methods write. *)
Definition settled (c c' : MyLfuCache) : Prop :=
  capacity_ c' = capacity_ c ∧ maxAverageNum_ c' = maxAverageNum_ c ∧
  curTotalNum_ c' = curTotalNum_ c ∧ nodeMap_ c' = nodeMap_ c.

(** The nodes of [c] keep their frequency in [c'], and the nodes that are
    new in [c'] have frequency 1. *)
Definition fresh_ones (c c' : MyLfuCache) : Prop :=
  ∃ l, freqs c' = freqs c ++ l ∧ Forall (λ f, f = 1) l.

Definition quiet (c c' : MyLfuCache) : Prop := settled c c' ∧ fresh_ones c c'.

(** Every node of the store has a frequency of at least 1. *)
Definition positive_freqs (c : MyLfuCache) : Prop := Forall (λ f, 1 ≤ f) (freqs c).

(** No node of [c] has a smaller frequency in [c']. *)
Definition grows (c c' : MyLfuCache) : Prop :=
  ∀ p f, freqs c !! p = Some f → ∃ f', freqs c' !! p = Some f' ∧ f ≤ f'.

(** A key that stays resident stays mapped to the same node. *)
Definition same_entries (c c' : MyLfuCache) : Prop :=
  ∀ k p, nodeMap_ c !! k = Some p →
         nodeMap_ c' !! k = Some p ∨ nodeMap_ c' !! k = None.

End lfu.
End Lfu.

(** ** The recency list of the LRU engine, as a list *)

Module LruList.
Section lru_list.
Import Lru.
Context {Key : Type} `{Countable Key} {Value : Type}.
Context (Key0 : Key) (Value0 : Value).
Implicit Types (c : @MyLruCache Key _ _ Value).

(** [p->next_] and [p->prev_] *)
Definition next_of c (p : nat) : option nat := n ← heap c !! p; next_ n.
Definition prev_of c (p : nat) : option nat := n ← heap c !! p; prev_ n.

(** Each node of [l] has its successor in [l] as [next_], and is the
    [prev_] of that successor. *)
Fixpoint chain c (l : list nat) : Prop :=
  match l with
  | p :: l' =>
      match l' with
      | q :: _ => next_of c p = Some q ∧ prev_of c q = Some p ∧ chain c l'
      | [] => True
      end
  | [] => True
  end.

(** The nodes [ps], in this order, are what is linked between the two
    sentinels. *)
Definition linked_list c (ps : list nat) : Prop :=
  NoDup (dummyHead_ c :: ps ++ [dummyTail_ c]) ∧
  chain c (dummyHead_ c :: ps ++ [dummyTail_ c]).

(** The cache is made of the nodes [items.*1], linked in this order, which
    hold the entries [items.*2] and are what the index map maps their keys
    to. *)
Definition index_entry (it : nat * (Key * Value)) : Key * nat := (it.2.1, it.1).

Definition represents c (items : list (nat * (Key * Value))) : Prop :=
  linked_list c items.*1 ∧
  NoDup items.*2.*1 ∧
  Forall (λ it, payloads c !! it.1 = Some it.2) items ∧
  nodeMap_ c = list_to_map (index_entry <$> items).

(** The cache holds the entries [es], least recently used first. *)
Definition holds c (es : list (Key * Value)) : Prop :=
  ∃ items, items.*2 = es ∧ represents c items.

(** *** Sequences of calls *)

Inductive call := Put (key : Key) (value : Value) | Get (key : Key).

Definition step (o : call) c : option MyLruCache :=
  match o with
  | Put key value => put key value c
  | Get key => '(_, c') ← get1 Value0 key c; Some c'
  end.

Fixpoint run (os : list call) c : option MyLruCache :=
  match os with
  | [] => Some c
  | o :: os' => c' ← step o c; run os' c'
  end.

(** The entries of a cache that never evicts, least recent first: an access
    takes the entry of its key out and puts it at the most recent end. *)
Definition touch (key : Key) (value : Value) (es : list (Key * Value))
  : list (Key * Value) :=
  filter (λ e, e.1 ≠ key) es ++ [(key, value)].

Definition lookup_entry (key : Key) (es : list (Key * Value)) : option Value :=
  (list_to_map es : gmap Key Value) !! key.

Definition accessed (o : call) (es : list (Key * Value)) : list (Key * Value) :=
  match o with
  | Put key value => touch key value es
  | Get key =>
      match lookup_entry key es with
      | Some v => touch key v es
      | None => es
      end
  end.

(** The value of the last [put] of every key. *)
Definition written (os : list call) : gmap Key Value :=
  foldl (λ m o, match o with Put key value => <[key := value]> m | Get _ => m end) ∅ os.

(** What the index map caches is what was written last. *)
Definition coherent c (m : gmap Key Value) : Prop :=
  keyed c ∧ (capacity_ c < 0 → nodeMap_ c = ∅) ∧
  ∀ x v, cached x c = Some v → m !! x = Some v.

(** No call of the sequence brings the number of entries above [capacity]. *)
Fixpoint within (capacity : Z) (os : list call) (es : list (Key * Value)) : Prop :=
  match os with
  | [] => True
  | o :: os' =>
      Z.of_nat (length (accessed o es)) ≤ capacity ∧ within capacity os' (accessed o es)
  end.

End lru_list.
End LruList.

(** ** The shards of the sharded cache *)


(** ** The entries of the LFU engine *)

Module LfuEntries.
Section lfu_entries.
Import Lfu.
Context {Key : Type} `{Countable Key} {Value : Type}.
Implicit Types (c : @MyLfuCache Key _ _ Value).

Definition payload (n : @Node Key Value) : Key * Value := (key n, value n).

Definition payloads c : list (Key * Value) := payload <$> heap c.

(** [c'] has the nodes of [c], with their keys and values, and perhaps
    nodes that [c] has not. *)
Definition extends c c' : Prop := ∃ l, payloads c' = payloads c ++ l.

(** The value of the last [put] of every key. *)
Definition written (os : list (@call Key Value)) : gmap Key Value :=
  foldl (λ m o, match o with Put k v => <[k := v]> m | _ => m end) ∅ os.

(** The index map names nodes by their own key, and their value is the one
    written last. *)
Definition coherent c (m : gmap Key Value) : Prop :=
  (capacity_ c ≤ 0 → nodeMap_ c = ∅) ∧
  ∀ x p, nodeMap_ c !! x = Some p →
    ∃ v, payloads c !! p = Some (x, v) ∧ m !! x = Some v.

End lfu_entries.
End LfuEntries.

(** ** The pointers of the LFU engine *)

Module LfuSafety.
Section lfu_safety.
Import Lfu.
Context {Key : Type} `{Countable Key} {Value : Type}.
Implicit Types (c : @MyLfuCache Key _ _ Value).

(** A pointer is null or the address of a node of the store. *)
Definition valid_ptr c (q : option nat) : Prop :=
  ∀ p, q = Some p → (p < length (heap c))%nat.

(** The node at [p] is the tail sentinel of a list. *)
Definition is_tail c (p : nat) : Prop :=
  ∃ f l, freqToFreqList_ c !! f = Some l ∧ tail_ l = p.

(** What the methods rely on when they follow a pointer:
    - no node holds a dangling pointer, and every frequency lies between 1
      and [b];
    - the sentinels of every list are nodes of the store, and the tail
      sentinel has a predecessor;
    - the index map names nodes of the store that are no tail sentinels,
      and there is a list for the frequency of each of them, except for the
      node [busy] that is between two lists;
    - [minFreq_] is at least 1 and at most [b], or [INT8_MAX]. *)
Definition safe c (busy : option nat) (b : Z) : Prop :=
  (∀ p n, heap c !! p = Some n →
     valid_ptr c (prev n) ∧ valid_ptr c (next n) ∧ 1 ≤ freq n ≤ b) ∧
  (∀ f l, freqToFreqList_ c !! f = Some l →
     1 ≤ f ≤ b ∧ is_Some (heap c !! head_ l) ∧
     ∃ t, heap c !! tail_ l = Some t ∧ is_Some (prev t)) ∧
  (∀ k p, nodeMap_ c !! k = Some p →
     ¬ is_tail c p ∧
     ∃ n, heap c !! p = Some n ∧
          (busy ≠ Some p → is_Some (freqToFreqList_ c !! freq n))) ∧
  1 ≤ minFreq_ c ≤ Z.max INT8_MAX b.

(** The fields that no method writes after the constructor. *)
Definition configured c c' : Prop :=
  capacity_ c' = capacity_ c ∧ maxAverageNum_ c' = maxAverageNum_ c.

(** [c'] is [c] up to the content of its nodes. *)
Definition rewritten c c' : Prop :=
  configured c c' ∧ nodeMap_ c' = nodeMap_ c ∧
  freqToFreqList_ c' = freqToFreqList_ c ∧ minFreq_ c' = minFreq_ c ∧
  curTotalNum_ c' = curTotalNum_ c ∧ length (heap c') = length (heap c).

(** The traversal of the index map meets entries of the index map. *)
Definition sound_order (iteration_order : gmap Key nat → list (Key * nat)) : Prop :=
  ∀ (m : gmap Key nat) k p, (k, p) ∈ iteration_order m → m !! k = Some p.

(** *** Sequences of calls that never need an eviction *)

(** The keys that are resident when nothing is ever evicted. *)
Definition resident_after (o : @call Key Value) (r : gset Key) : gset Key :=
  match o with
  | Put k _ => {[k]} ∪ r
  | Get _ => r
  | Purge => ∅
  end.

Fixpoint fits (capacity : Z) (os : list (@call Key Value)) (r : gset Key) : Prop :=
  match os with
  | [] => True
  | o :: os' =>
      Z.of_nat (size (resident_after o r)) ≤ capacity ∧
      fits capacity os' (resident_after o r)
  end.

End lfu_safety.
End LfuSafety.

(** * Properties *)

(** ** Machine integers: values in range *)

Lemma int_result_Some z r : int_result z = Some r → r = z ∧ INT_MIN ≤ z ≤ INT_MAX.
Proof. unfold int_result. case_decide; intros; by simplify_eq. Qed.

Lemma to_int_small z : INT_MIN ≤ z ≤ INT_MAX → to_int z = z.
Proof.
  unfold INT_MIN, INT_MAX, to_int. intros Hz.
  rewrite Z.mod_small; lia.
Qed.

Lemma to_size_t_small z : 0 ≤ z < SIZE_WIDTH → to_size_t z = z.
Proof. unfold to_size_t. intros Hz. by rewrite Z.mod_small. Qed.

(** ** The LRU engine: links, index map and lookups *)

Section lru_facts.
Import Lru.
Context {Key : Type} `{Countable Key} {Value : Type}.
Context (Key0 : Key) (Value0 : Value).
Implicit Types (c : @MyLruCache Key _ _ Value) (key x y : Key) (value v : Value).

(** *** Methods that only relink nodes *)

Lemma relinked_refl c : relinked c c.
Proof. by repeat split. Qed.

Lemma relinked_trans c1 c2 c3 : relinked c1 c2 → relinked c2 c3 → relinked c1 c3.
Proof. unfold relinked. intros (?&?&?&?&?) (?&?&?&?&?). repeat split; congruence. Qed.

Lemma store_relinked p f c c' :
  (∀ n, payload (f n) = payload n) → store p f c = Some c' → relinked c c'.
Proof.
  unfold store. intros Hf Hs. apply bind_Some in Hs as (n & Hn & [= <-]).
  repeat split; simpl. unfold payloads; simpl.
  rewrite list_fmap_insert, Hf. apply list_insert_id.
  by rewrite list_lookup_fmap, Hn.
Qed.

Lemma removeNode_relinked node c c' : removeNode node c = Some c' → relinked c c'.
Proof.
  unfold removeNode. intros Hr.
  apply bind_Some in Hr as (n & _ & Hr). apply bind_Some in Hr as (nx & _ & Hr).
  apply bind_Some in Hr as (c1 & H1 & Hr). apply bind_Some in Hr as (n1 & _ & Hr).
  apply bind_Some in Hr as (pv & _ & H2).
  apply store_relinked in H1, H2; try done.
  eauto using relinked_trans.
Qed.

Lemma insertNode_relinked node c c' : insertNode node c = Some c' → relinked c c'.
Proof.
  unfold insertNode. intros Hi.
  apply bind_Some in Hi as (c1 & H1 & Hi). apply bind_Some in Hi as (t1 & _ & Hi).
  apply bind_Some in Hi as (c2 & H2 & Hi). apply bind_Some in Hi as (t2 & _ & Hi).
  apply bind_Some in Hi as (last & _ & Hi). apply bind_Some in Hi as (c3 & H3 & H4).
  apply store_relinked in H1, H2, H3, H4; try done.
  eauto using relinked_trans.
Qed.

Lemma moveToMostRecent_relinked node c c' :
  moveToMostRecent node c = Some c' → relinked c c'.
Proof.
  unfold moveToMostRecent. intros Hm. apply bind_Some in Hm as (c1 & H1 & H2).
  eauto using relinked_trans, removeNode_relinked, insertNode_relinked.
Qed.

Lemma cached_relinked key c c' : relinked c c' → cached key c' = cached key c.
Proof.
  intros (_ & Hm & _ & _ & Hp). unfold cached. rewrite Hm.
  destruct (nodeMap_ c !! key) as [p|]; simpl; [|done].
  assert (payloads c' !! p = payloads c !! p) as Hl by (by rewrite Hp).
  unfold payloads in Hl. rewrite !list_lookup_fmap in Hl.
  destruct (heap c' !! p) as [n'|], (heap c !! p) as [n|]; simpl in *; try done.
  unfold payload in Hl. congruence.
Qed.

(** *** The index map names nodes by their own key *)

Lemma keyed_initialzeList capacity : keyed (initialzeList Key0 Value0 capacity).
Proof. intros x p Hx. simpl in Hx. by rewrite lookup_empty in Hx. Qed.

Lemma keyed_relinked c c' : relinked c c' → keyed c → keyed c'.
Proof. intros (_ & Hm & _ & _ & Hp) Hk x p. rewrite Hm, Hp. apply Hk. Qed.

Lemma keyed_delete x c : keyed c → keyed (set_nodeMap (delete x (nodeMap_ c)) c).
Proof.
  intros Hk y p Hy. simpl in Hy. apply lookup_delete_Some in Hy as [_ Hy].
  by apply Hk.
Qed.

Lemma cached_payloads key c :
  cached key c = p ← nodeMap_ c !! key; snd <$> payloads c !! p.
Proof.
  unfold cached, payloads. destruct (nodeMap_ c !! key) as [p|]; simpl; [|done].
  rewrite list_lookup_fmap. by destruct (heap c !! p).
Qed.

Lemma cached_delete x y c :
  cached y (set_nodeMap (delete x (nodeMap_ c)) c) = cached y c ∨
  cached y (set_nodeMap (delete x (nodeMap_ c)) c) = None.
Proof.
  unfold cached; simpl. destruct (decide (x = y)) as [->|Hxy].
  - right. by rewrite lookup_delete_eq.
  - left. by rewrite lookup_delete_ne.
Qed.

(** *** A lookup *)

Lemma get_Some key value c b v c' :
  get key value c = Some (b, v, c') →
  relinked c c' ∧
  b = bool_decide (is_Some (nodeMap_ c !! key)) ∧
  v = default value (cached key c).
Proof.
  unfold get. intros Hg. destruct (nodeMap_ c !! key) as [node|] eqn:Hk.
  - apply bind_Some in Hg as (c1 & Hm & Hg). apply bind_Some in Hg as (n & Hn & [= <- <- <-]).
    apply moveToMostRecent_relinked in Hm.
    split; [done|]. split; [by rewrite bool_decide_true|].
    rewrite <- (cached_relinked key c c1 Hm). unfold cached.
    destruct Hm as (_ & -> & _). by rewrite Hk; simpl; rewrite Hn.
  - injection Hg as <- <- <-. split; [apply relinked_refl|].
    split; [by rewrite bool_decide_false; [|by intros [? ?]]|].
    unfold cached. by rewrite Hk.
Qed.

Lemma get1_Some key c v c' :
  get1 Value0 key c = Some (v, c') → relinked c c' ∧ v = default Value0 (cached key c).
Proof.
  unfold get1. intros Hg. apply bind_Some in Hg as ([[b v1] c1] & Hg & [= <- <-]).
  apply get_Some in Hg as (? & _ & ?). by split.
Qed.

(** *** An insertion *)

Lemma evictLeastRecent_Some c c' :
  evictLeastRecent c = Some c' →
  ∃ c1 x, relinked c c1 ∧ c' = set_nodeMap (delete x (nodeMap_ c1)) c1.
Proof.
  unfold evictLeastRecent. intros He.
  apply bind_Some in He as (hd & _ & He). apply bind_Some in He as (first & _ & He).
  apply bind_Some in He as (c1 & Hr & He). apply bind_Some in He as (hd1 & _ & He).
  apply bind_Some in He as (node & _ & He). apply bind_Some in He as (n & _ & [= <-]).
  exists c1, (key_ n). split; [by eapply removeNode_relinked|done].
Qed.

(** The state in which [addNode] decides whether to evict. *)
Lemma addNode_Some key value c c' :
  addNode key value c = Some c' →
  ∃ c2, relinked (set_heap (heap c ++ [new_node key value]) c) c2 ∧
    let c3 := set_nodeMap (<[key := length (heap c)]> (nodeMap_ c2)) c2 in
    if decide (to_size_t (capacity_ c3) < Z.of_nat (size (nodeMap_ c3)))
    then evictLeastRecent c3 = Some c' else c' = c3.
Proof.
  unfold addNode, make_shared. intros Ha. apply bind_Some in Ha as (c2 & Hi & Ha).
  exists c2. split; [by eapply insertNode_relinked|].
  simpl in *. case_decide; [done|by injection Ha].
Qed.

Lemma put_lookup_other key value c c' x :
  x ≠ key → put key value c = Some c' →
  nodeMap_ c !! x = None → nodeMap_ c' !! x = None.
Proof.
  unfold put. intros Hx Hp Hnone. case_decide; [by injection Hp as <-|].
  destruct (nodeMap_ c !! key) as [node|] eqn:Hk.
  - unfold updateExistNode in Hp. apply bind_Some in Hp as (c1 & Hs & Hm).
    apply moveToMostRecent_relinked in Hm as (_ & -> & _).
    unfold store in Hs. by apply bind_Some in Hs as (n & _ & [= <-]).
  - apply addNode_Some in Hp as (c2 & (_ & Hm & _) & Hp). simpl in Hp, Hm.
    case_decide.
    + apply evictLeastRecent_Some in Hp as (c1 & y & (_ & Hm1 & _) & ->). simpl in *.
      rewrite Hm1. apply lookup_delete_None. right.
      by rewrite lookup_insert_ne, Hm.
    + subst c'. simpl. by rewrite lookup_insert_ne, Hm.
Qed.

Lemma put_keyed key value c c' :
  keyed c → put key value c = Some c' →
  keyed c' ∧ ∀ x, x ≠ key → cached x c' = cached x c ∨ cached x c' = None.
Proof.
  (* an existing key has its node rewritten in place; a new key gets a new
     node at the end of the store, and eviction only erases a key *)
  unfold put. intros Hkd Hp. case_decide; [injection Hp as <-; by auto|].
  destruct (nodeMap_ c !! key) as [node|] eqn:Hk.
  - unfold updateExistNode in Hp. apply bind_Some in Hp as (c1 & Hs & Hm).
    apply moveToMostRecent_relinked in Hm.
    unfold store in Hs. apply bind_Some in Hs as (n & Hn & [= <-]).
    assert (key_ n = key) as Hkey.
    { specialize (Hkd key node Hk). unfold payloads in Hkd.
      rewrite list_lookup_fmap, Hn in Hkd. simpl in Hkd. congruence. }
    assert (payloads (set_heap (<[node:=setValue value n]> (heap c)) c)
            = <[node := (key, value)]> (payloads c)) as Hpl.
    { unfold payloads; simpl. rewrite list_fmap_insert. by rewrite <- Hkey. }
    split.
    + apply (keyed_relinked _ _ Hm). intros x p Hx. simpl in Hx. rewrite Hpl.
      destruct (decide (p = node)) as [->|Hne].
      * rewrite list_lookup_insert_eq.
        -- pose proof (Hkd x node Hx) as Ex.
           rewrite (Hkd key node Hk) in Ex. by injection Ex as ->.
        -- unfold payloads. rewrite length_fmap. by eapply lookup_lt_Some.
      * rewrite list_lookup_insert_ne by done. by apply Hkd.
    + intros x Hx. left. rewrite (cached_relinked x _ _ Hm).
      rewrite !cached_payloads; simpl. destruct (nodeMap_ c !! x) as [p|] eqn:Hxp; [|done].
      simpl. rewrite Hpl, list_lookup_insert_ne; [done|].
      intros <-. pose proof (Hkd x node Hxp) as Ex.
      rewrite (Hkd key node Hk) in Ex. congruence.
  - apply addNode_Some in Hp as (c2 & Hr & Hp).
    set (c0 := set_heap (heap c ++ [new_node key value]) c) in *.
    set (c3 := set_nodeMap (<[key:=length (heap c)]> (nodeMap_ c2)) c2) in *.
    assert (payloads c2 = payloads c ++ [(key, value)]) as Hpl.
    { destruct Hr as (_ & _ & _ & _ & ->). unfold payloads; simpl. by rewrite fmap_app. }
    assert (nodeMap_ c2 = nodeMap_ c) as Hm by (by destruct Hr as (_ & -> & _)).
    assert (keyed c3) as Hkd3.
    { intros x p Hx. unfold c3 in Hx; simpl in Hx.
      change (payloads c3) with (payloads c2). rewrite Hpl.
      destruct (decide (x = key)) as [->|Hne].
      - rewrite lookup_insert_eq in Hx. injection Hx as <-.
        replace (length (heap c)) with (length (payloads c))
          by (unfold payloads; by rewrite length_fmap).
        by rewrite list_lookup_middle.
      - rewrite lookup_insert_ne, Hm in Hx by done.
        specialize (Hkd x p Hx). rewrite lookup_app_l; [done|].
        apply lookup_lt_is_Some. destruct (payloads c !! p); [eauto|done]. }
    assert (∀ x, x ≠ key → cached x c3 = cached x c) as Hc3.
    { intros x Hx. rewrite !cached_payloads. unfold c3; simpl.
      change (payloads _) with (payloads c2) at 1.
      rewrite lookup_insert_ne, Hm by done.
      destruct (nodeMap_ c !! x) as [p|] eqn:Hxp; [simpl|done].
      specialize (Hkd x p Hxp). rewrite Hpl, lookup_app_l; [done|].
      apply lookup_lt_is_Some. destruct (payloads c !! p); [eauto|done]. }
    simpl in Hp. fold c3 in Hp. case_decide.
    + apply evictLeastRecent_Some in Hp as (c1 & x & Hr1 & ->). split.
      * apply keyed_delete. by eapply keyed_relinked.
      * intros y Hy. destruct (cached_delete x y c1) as [-> | ->]; [|by right].
        left. rewrite (cached_relinked y _ _ Hr1). by apply Hc3.
    + subst c'. split; [done|]. intros x Hx. left. by apply Hc3.
Qed.

Lemma put_cached_key key value c c' :
  put key value c = Some c' →
  cached key c' = Some value ∨ cached key c' = None ∨ cached key c' = cached key c.
Proof.
  unfold put. intros Hp. case_decide; [injection Hp as <-; by auto|].
  destruct (nodeMap_ c !! key) as [node|] eqn:Hk.
  - left. unfold updateExistNode in Hp. apply bind_Some in Hp as (c1 & Hs & Hm).
    apply moveToMostRecent_relinked in Hm. rewrite (cached_relinked key _ _ Hm).
    unfold store in Hs. apply bind_Some in Hs as (n & Hn & [= <-]).
    unfold cached; simpl. rewrite Hk; simpl.
    rewrite list_lookup_insert_eq by (by eapply lookup_lt_Some). done.
  - apply addNode_Some in Hp as (c2 & Hr & Hp).
    set (c3 := set_nodeMap (<[key:=length (heap c)]> (nodeMap_ c2)) c2) in *.
    assert (cached key c3 = Some value) as Hc3.
    { rewrite cached_payloads. unfold c3; simpl. rewrite lookup_insert_eq; simpl.
      change (payloads _) with (payloads c2).
      replace (payloads c2) with (payloads c ++ [(key, value)]).
      - replace (length (heap c)) with (length (payloads c))
          by (unfold payloads; by rewrite length_fmap).
        by rewrite list_lookup_middle.
      - destruct Hr as (_ & _ & _ & _ & ->). unfold payloads; simpl.
        by rewrite fmap_app. }
    simpl in Hp. fold c3 in Hp. case_decide.
    + apply evictLeastRecent_Some in Hp as (c1 & x & Hr1 & ->).
      destruct (cached_delete x key c1) as [-> | ->]; [|by auto].
      left. by rewrite (cached_relinked key _ _ Hr1).
    + subst c'. by left.
Qed.

(** With room left, an inserted key is resident with its value. *)
Lemma put_room key value c c' :
  nodeMap_ c !! key = None →
  0 ≤ capacity_ c →
  Z.of_nat (size (nodeMap_ c)) < to_size_t (capacity_ c) →
  put key value c = Some c' → cached key c' = Some value.
Proof.
  unfold put. intros Hk Hcap0 Hroom Hp. case_decide; [lia|].
  rewrite Hk in Hp. apply addNode_Some in Hp as (c2 & Hr & Hp).
  assert (payloads c2 = payloads c ++ [(key, value)]) as Hpl.
  { destruct Hr as (_ & _ & _ & _ & ->). unfold payloads; simpl. by rewrite fmap_app. }
  destruct Hr as (Hcap & Hm & _). simpl in *.
  rewrite decide_False in Hp.
  - subst c'. rewrite cached_payloads; simpl. rewrite lookup_insert_eq; simpl.
    change (payloads _) with (payloads c2). rewrite Hpl.
    replace (length (heap c)) with (length (payloads c))
      by (unfold payloads; by rewrite length_fmap).
    by rewrite list_lookup_middle.
  - rewrite Hcap, Hm, map_size_insert_None by done. lia.
Qed.

(** *** A miss *)

Lemma get_miss key value c :
  nodeMap_ c !! key = None → get key value c = Some (false, value, c).
Proof. unfold get. by intros ->. Qed.

Lemma get1_miss key c :
  nodeMap_ c !! key = None → get1 Value0 key c = Some (Value0, c).
Proof. unfold get1. intros Hk. by rewrite get_miss. Qed.

(** *** A negative capacity *)

Lemma put_negative_capacity key value c : capacity_ c < 0 → put key value c = Some c.
Proof. unfold put. intros Hc. by rewrite decide_True. Qed.

(** With a negative capacity the engine is disabled: [put] changes nothing,
    so the index map stays empty and every [get] is a miss. *)
Lemma negative_capacity_disabled capacity key value :
  capacity < 0 →
  let c := initialzeList Key0 Value0 capacity in
  put key value c = Some c ∧ get key value c = Some (false, value, c).
Proof.
  intros Hc c. split; [by apply put_negative_capacity|].
  apply get_miss. apply lookup_empty.
Qed.

End lru_facts.

(** ** The K-promotion wrapper: gating and promotion *)

Section klru_facts.
Import KLru.
Context {Key : Type} `{Countable Key}.
Context (Key0 : Key).
Context (removeNode_key :
  Key → @Lru.MyLruCache Key _ _ Z → option (@Lru.MyLruCache Key _ _ Z)).
Context (get_value : string).
Implicit Types (s : @MyKLruCache Key _ _) (key x y : Key).
Implicit Types (o : @call Key) (os : list (@call Key)).

(** What is assumed of the undeclared overload: it keeps the history
    cache's index map consistent with its nodes, and it changes no count but
    that of the key it is called on, other than by dropping it. *)
Hypothesis removeNode_key_sound : ∀ key h h',
  removeNode_key key h = Some h' →
  Lru.keyed h →
  Lru.keyed h' ∧
  ∀ x, x ≠ key → Lru.cached x h' = Lru.cached x h ∨ Lru.cached x h' = None.

(** *** Gating *)

Lemma not_in_main_lookup x s : ¬ in_main x s → Lru.nodeMap_ (base s) !! x = None.
Proof. unfold in_main, Lru.mapped_keys. apply not_elem_of_dom. Qed.

Lemma gated_make x capactity historyCapactiy k :
  gated x 0 (make Key0 capactity historyCapactiy k).
Proof.
  split; [apply keyed_initialzeList|]. split.
  - intros v Hv. unfold Lru.cached in Hv. simpl in Hv. by rewrite lookup_empty in Hv.
  - unfold in_main, Lru.mapped_keys. simpl. rewrite dom_empty_L. apply not_elem_of_empty.
Qed.

(** The count read from the history cache. *)
Lemma gated_count (x : Key) a s hv h1 :
  gated x a s → 0 ≤ a →
  Lru.get1 0 x (historyList_ s) = Some (hv, h1) →
  Lru.relinked (historyList_ s) h1 ∧ to_int hv = hv ∧ 0 ≤ hv ≤ a ∧ hv ≤ INT_MAX ∧
  hv = default 0 (Lru.cached x (historyList_ s)).
Proof.
  intros (_ & Hcnt & _) Ha Hg. apply get1_Some in Hg as (Hr & ->).
  split; [done|].
  destruct (Lru.cached x (historyList_ s)) as [v|] eqn:Hv; simpl.
  - destruct (Hcnt v eq_refl) as (? & ?).
    rewrite to_int_small by (unfold INT_MIN; lia). repeat split; lia.
  - rewrite to_int_small by (unfold INT_MIN, INT_MAX; lia).
    unfold INT_MAX. repeat split; lia.
Qed.

(** The count written back by an access to [x]. *)
Lemma gated_record (x : Key) a hv (h1 h2 : @Lru.MyLruCache Key _ _ Z) c :
  Lru.keyed h1 →
  (∀ v, Lru.cached x h1 = Some v → 0 ≤ v ≤ a ∧ v ≤ INT_MAX) →
  0 ≤ hv ≤ a →
  int_result (hv + 1) = Some c →
  Lru.put x (to_size_t c) h1 = Some h2 →
  Lru.keyed h2 ∧ ∀ v, Lru.cached x h2 = Some v → 0 ≤ v ≤ a + 1 ∧ v ≤ INT_MAX.
Proof.
  intros Hk Hcnt Hhv Hc Hp. apply int_result_Some in Hc as (-> & Hrange).
  split; [by eapply put_keyed|].
  rewrite to_size_t_small in Hp by (unfold INT_MAX, SIZE_WIDTH in *; lia).
  intros v Hv. destruct (put_cached_key _ _ _ _ Hp) as [E|[E|E]];
    rewrite E in Hv.
  - injection Hv as <-. lia.
  - done.
  - destruct (Hcnt v Hv). lia.
Qed.

Lemma gated_step_same x a o s s' :
  call_key o = x → 0 ≤ a → a + 1 < k_ s →
  gated x a s → step removeNode_key get_value o s = Some s' →
  gated x (a + 1) s' ∧ k_ s' = k_ s.
Proof.
  intros Hx Ha Hk Hgated Hs. pose proof Hgated as (Hkd & Hcnt & Hmain).
  pose proof (not_in_main_lookup _ _ Hmain) as Hmiss.
  destruct o as [key value|key]; simpl in Hx; subst key; simpl in Hs.
  - unfold put in Hs. rewrite (get1_miss _ _ _ Hmiss) in Hs. simpl in Hs.
    apply bind_Some in Hs as ([hv h1] & Hg & Hs).
    destruct (gated_count _ _ _ _ _ Hgated Ha Hg) as (Hr & Hto & Hhv & _ & _).
    rewrite Hto in Hs. apply bind_Some in Hs as (c & Hc & Hs).
    apply bind_Some in Hs as (h2 & Hp & Hs).
    pose proof (int_result_Some _ _ Hc) as (-> & _).
    rewrite decide_False in Hs by lia. injection Hs as <-. simpl.
    split; [|done]. unfold gated; simpl.
    enough (Lru.keyed h2 ∧
            ∀ v, Lru.cached x h2 = Some v → 0 ≤ v ≤ a + 1 ∧ v ≤ INT_MAX)
      as [? ?] by done.
    apply (gated_record x a hv h1 h2 (hv + 1)); try done.
    + by eapply keyed_relinked.
    + intros v. rewrite (cached_relinked x _ _ Hr). apply Hcnt.
  - apply bind_Some in Hs as ([v s1] & Hs & [= <-]). unfold get in Hs.
    apply bind_Some in Hs as ([hv h1] & Hg & Hs).
    destruct (gated_count _ _ _ _ _ Hgated Ha Hg) as (Hr & Hto & Hhv & _ & _).
    rewrite Hto, decide_False in Hs by lia.
    apply bind_Some in Hs as ([m1 h2] & Hb & Hs).
    apply bind_Some in Hb as (c & Hc & Hb). apply bind_Some in Hb as (h & Hp & [= <- <-]).
    rewrite (get1_miss _ _ _ Hmiss) in Hs. injection Hs as <- <-. simpl.
    split; [|done]. unfold gated; simpl.
    enough (Lru.keyed h ∧
            ∀ v, Lru.cached x h = Some v → 0 ≤ v ≤ a + 1 ∧ v ≤ INT_MAX)
      as [? ?] by done.
    apply (gated_record x a hv h1 h c); try done.
    + by eapply keyed_relinked.
    + intros v'. rewrite (cached_relinked x _ _ Hr). apply Hcnt.
Qed.

Lemma counted_kept (x : Key) a (h h' : @Lru.MyLruCache Key _ _ Z) :
  Lru.cached x h' = Lru.cached x h ∨ Lru.cached x h' = None →
  (∀ v, Lru.cached x h = Some v → 0 ≤ v ≤ a ∧ v ≤ INT_MAX) →
  ∀ v, Lru.cached x h' = Some v → 0 ≤ v ≤ a ∧ v ≤ INT_MAX.
Proof. intros [-> | ->] Hcnt v Hv; [by apply Hcnt|done]. Qed.

Lemma main_put_other (x y : Key) value (m m' : @Lru.MyLruCache Key _ _ string) :
  x ≠ y → x ∉ Lru.mapped_keys m → Lru.put y value m = Some m' →
  x ∉ Lru.mapped_keys m'.
Proof.
  unfold Lru.mapped_keys. rewrite !not_elem_of_dom. intros Hxy Hx Hp.
  by eapply put_lookup_other.
Qed.

Lemma main_relinked (x : Key) (m m' : @Lru.MyLruCache Key _ _ string) :
  Lru.relinked m m' → x ∉ Lru.mapped_keys m → x ∉ Lru.mapped_keys m'.
Proof. unfold Lru.mapped_keys. by intros (_ & -> & _). Qed.

Lemma gated_step_other x a o s s' :
  call_key o ≠ x →
  gated x a s → step removeNode_key get_value o s = Some s' → gated x a s' ∧ k_ s' = k_ s.
Proof.
  intros Hx (Hkd & Hcnt & Hmain) Hs. unfold in_main in Hmain.
  destruct o as [y value|y]; simpl in Hx; simpl in Hs.
  - unfold put in Hs. apply bind_Some in Hs as ([v m1] & Hg & Hs).
    apply get1_Some in Hg as (Hrm & _).
    apply bind_Some in Hs as (m2 & Hm2 & Hs).
    assert (x ∉ Lru.mapped_keys m2) as Hmain2.
    { case_decide; [|injection Hm2 as <-; by eapply main_relinked].
      eapply main_put_other; [| |exact Hm2]; [done|by eapply main_relinked]. }
    apply bind_Some in Hs as ([hv h1] & Hg & Hs).
    apply get1_Some in Hg as (Hrh & _).
    apply bind_Some in Hs as (c & _ & Hs). apply bind_Some in Hs as (h2 & Hp & Hs).
    destruct (put_keyed _ _ _ _ (keyed_relinked _ _ Hrh Hkd) Hp) as (Hkd2 & Hc2).
    assert (∀ v, Lru.cached x h2 = Some v → 0 ≤ v ≤ a ∧ v ≤ INT_MAX) as Hcnt2.
    { eapply counted_kept; [apply Hc2; congruence|].
      intros v'. rewrite (cached_relinked x _ _ Hrh). apply Hcnt. }
    case_decide.
    + apply bind_Some in Hs as (h3 & Hrm3 & Hs). apply bind_Some in Hs as (m3 & Hp3 & [= <-]).
      destruct (removeNode_key_sound _ _ _ Hrm3 Hkd2) as (Hkd3 & Hc3).
      split; [|done]. split; [done|]. split; simpl.
      * eapply counted_kept; [apply Hc3; congruence|done].
      * unfold in_main; simpl. eapply main_put_other; [| |exact Hp3]; done.
    + injection Hs as <-. split; [|done]. split; [done|]. by split.
  - apply bind_Some in Hs as ([v s1] & Hs & [= <-]). unfold get in Hs.
    apply bind_Some in Hs as ([hv h1] & Hg & Hs).
    apply get1_Some in Hg as (Hrh & _).
    pose proof (keyed_relinked _ _ Hrh Hkd) as Hkd1.
    assert (∀ v, Lru.cached x h1 = Some v → 0 ≤ v ≤ a ∧ v ≤ INT_MAX) as Hcnt1.
    { intros v'. rewrite (cached_relinked x _ _ Hrh). apply Hcnt. }
    apply bind_Some in Hs as ([m1 h2] & Hb & Hs).
    apply bind_Some in Hs as ([v' m2] & Hg & [= <- <-]).
    apply get1_Some in Hg as (Hrm & _).
    split; [|done]. unfold gated, in_main; simpl. case_decide.
    + apply bind_Some in Hb as (h & Hrm3 & Hb). apply bind_Some in Hb as (m & Hp & [= <- <-]).
      destruct (removeNode_key_sound _ _ _ Hrm3 Hkd1) as (Hkd3 & Hc3).
      split; [done|]. split.
      * eapply counted_kept; [apply Hc3; congruence|done].
      * eapply main_relinked; [exact Hrm|].
        eapply main_put_other; [| |exact Hp]; done.
    + apply bind_Some in Hb as (c & _ & Hb). apply bind_Some in Hb as (h & Hp & [= <- <-]).
      destruct (put_keyed _ _ _ _ Hkd1 Hp) as (Hkd2 & Hc2).
      split; [done|]. split.
      * eapply counted_kept; [apply Hc2; congruence|done].
      * by eapply main_relinked.
Qed.

Lemma gated_mono x a b s : a ≤ b → gated x a s → gated x b s.
Proof.
  intros Hab (Hkd & Hcnt & Hmain). split; [done|]. split; [|done].
  intros v Hv. destruct (Hcnt v Hv). lia.
Qed.

Lemma accesses_nonneg x os : 0 ≤ accesses x os.
Proof. induction os as [|o os IH]; simpl; [done|]. case_decide; lia. Qed.

(** As long as [x] has been accessed fewer than [k_] times in all, it is
    not in the main cache. *)
Lemma gated_run x os : ∀ a s s',
  0 ≤ a → a + accesses x os < k_ s →
  gated x a s → run removeNode_key get_value os s = Some s' → ¬ in_main x s'.
Proof.
  induction os as [|o os IH]; intros a s s' Ha Hk Hg Hr; simpl in *.
  - injection Hr as <-. by destruct Hg as (_ & _ & ?).
  - apply bind_Some in Hr as (s1 & Hs & Hr).
    pose proof (accesses_nonneg x os) as Hn.
    destruct (decide (call_key o = x)) as [Heq|Hne].
    + destruct (gated_step_same x a o s s1) as (Hg1 & Hk1); try done; try lia.
      apply (IH (a + 1) s1 s'); try done; [lia|]. rewrite Hk1. lia.
    + destruct (gated_step_other x a o s s1) as (Hg1 & Hk1); try done.
      apply (IH a s1 s'); try done. rewrite Hk1. lia.
Qed.

(** *** The promoting access *)

(** A [put] that brings the count of an absent key to the threshold ends
    with [MyLruCache::put(key, value)] on the main cache. *)
Lemma put_promotes key value s s' :
  ¬ in_main key s →
  k_ s ≤ historyCount key s + 1 →
  put removeNode_key key value s = Some s' →
  Lru.put key value (base s) = Some (base s').
Proof.
  intros Hmain Hk Hp. pose proof (not_in_main_lookup _ _ Hmain) as Hmiss.
  unfold put in Hp. rewrite (get1_miss _ _ _ Hmiss) in Hp. simpl in Hp.
  apply bind_Some in Hp as ([hv h1] & Hg & Hp).
  apply get1_Some in Hg as (_ & ->). fold (historyCount key s) in Hp.
  apply bind_Some in Hp as (c & Hc & Hp). apply int_result_Some in Hc as (-> & _).
  apply bind_Some in Hp as (h2 & _ & Hp). rewrite decide_True in Hp by done.
  apply bind_Some in Hp as (h3 & _ & Hp). by apply bind_Some in Hp as (m3 & ? & [= <-]).
Qed.

(** A [get] that finds a count below the threshold, also one that brings
    it to the threshold, records the new count and answers from the main
    cache as it is: for an absent key, the default value of a miss. *)
Lemma get_below_threshold key s v s' :
  ¬ in_main key s →
  historyCount key s < k_ s →
  get removeNode_key get_value key s = Some (v, s') →
  v = "" ∧ base s' = base s ∧
  ∃ h1, Lru.relinked (historyList_ s) h1 ∧
        Lru.put key (to_size_t (historyCount key s + 1)) h1 = Some (historyList_ s').
Proof.
  intros Hmain Hk Hg. pose proof (not_in_main_lookup _ _ Hmain) as Hmiss.
  unfold get in Hg. apply bind_Some in Hg as ([hv h1] & Hg1 & Hg).
  apply get1_Some in Hg1 as (Hr & ->). fold (historyCount key s) in Hg.
  rewrite decide_False in Hg by lia.
  apply bind_Some in Hg as ([m1 h2] & Hb & Hg).
  apply bind_Some in Hb as (c & Hc & Hb). apply int_result_Some in Hc as (-> & _).
  apply bind_Some in Hb as (h & Hp & [= <- <-]).
  rewrite (get1_miss _ _ _ Hmiss) in Hg. injection Hg as <- <-. simpl.
  split; [done|]. split; [done|]. by exists h1.
Qed.

(** C1, as amended.  For every key [x] and threshold [k >= 1]:
    (1) after any sequence of [put]/[get] calls on a wrapper built with
    threshold [k], of which fewer than [k] are on [x], [x] is not in the
    main cache;
    (2) a [put] of an absent key that brings its history count to [k] or
    more ends with [MyLruCache::put(x, value)] on the main cache, so that
    [x] is resident with [value] when the main cache had room;
    (3) a [get] of an absent key that finds a count below [k], the one that
    brings the count to exactly [k] included, records the new count in the
    history cache, leaves the main cache as it is and returns the default
    value of a miss. *)
Theorem promotion_gating (x : Key) (k : Z) :
  1 ≤ k →
  (∀ capactity historyCapactiy os s,
     run removeNode_key get_value os (make Key0 capactity historyCapactiy k) = Some s →
     accesses x os < k → ¬ in_main x s) ∧
  (∀ s value s',
     k_ s = k → ¬ in_main x s → k ≤ historyCount x s + 1 →
     put removeNode_key x value s = Some s' →
     Lru.put x value (base s) = Some (base s') ∧
     (0 ≤ Lru.capacity_ (base s) →
      Z.of_nat (size (Lru.nodeMap_ (base s))) < to_size_t (Lru.capacity_ (base s)) →
      Lru.cached x (base s') = Some value)) ∧
  (∀ s v s',
     k_ s = k → ¬ in_main x s → historyCount x s < k →
     get removeNode_key get_value x s = Some (v, s') →
     v = "" ∧ base s' = base s ∧
     ∃ h1, Lru.relinked (historyList_ s) h1 ∧
           Lru.put x (to_size_t (historyCount x s + 1)) h1 = Some (historyList_ s')).
Proof.
  intros Hk. split; [|split].
  - intros capactity historyCapactiy os s Hr Ha.
    eapply (gated_run x os 0); [done| |apply gated_make|exact Hr].
    simpl. lia.
  - intros s value s' <- Hmain Hc Hp.
    pose proof (put_promotes _ _ _ _ Hmain Hc Hp) as Hput. split; [done|].
    intros Hcap Hroom. eapply put_room; [| | |exact Hput]; try done.
    by apply not_in_main_lookup.
  - intros s v s' <- Hmain Hc Hg. by eapply get_below_threshold.
Qed.

End klru_facts.

Section klru_runs.
Import KLru.

Lemma removeNode_of_key_sound {Key : Type} `{Countable Key}
    (key : Key) (h h' : @Lru.MyLruCache Key _ _ Z) :
  removeNode_of_key key h = Some h' →
  Lru.keyed h →
  Lru.keyed h' ∧
  ∀ x, x ≠ key → Lru.cached x h' = Lru.cached x h ∨ Lru.cached x h' = None.
Proof.
  unfold removeNode_of_key. intros Hr Hkd.
  assert (Lru.relinked h h') as Hrel.
  { destruct (Lru.nodeMap_ h !! key).
    - by eapply removeNode_relinked.
    - injection Hr as <-. apply relinked_refl. }
  split; [by eapply keyed_relinked|].
  intros x _. left. by apply cached_relinked.
Qed.

(** A wrapper over integer keys with threshold 2: the first [put] of key 7
    is gated, the second one promotes it. *)
Lemma promotion_gating_witness :
  ∃ s1 s2,
    run removeNode_of_key "" [Put 7 "A"] (make 0 2 2 2) = Some s1 ∧
    ¬ in_main 7 s1 ∧
    put removeNode_of_key 7 "B" s1 = Some s2 ∧
    Lru.cached 7 (base s2) = Some "B".
Proof.
  destruct (promotion_gating 0 removeNode_of_key ""
              (@removeNode_of_key_sound Z _ _) 7 2) as (Hgate & Hput & _); [lia|].
  let r := eval vm_compute in (run removeNode_of_key "" [Put 7 "A"] (make 0 2 2 2)) in
  match r with Some ?s => pose (s1 := s) end.
  let r := eval vm_compute in (put removeNode_of_key 7 "B" s1) in
  match r with Some ?s => pose (s2 := s) end.
  assert (¬ in_main 7 s1) as Hmain.
  { apply (Hgate 2 2 [Put 7 "A"]); [vm_compute; reflexivity|simpl; lia]. }
  exists s1, s2. split; [vm_compute; reflexivity|]. split; [exact Hmain|].
  split; [vm_compute; reflexivity|].
  destruct (Hput s1 "B" s2) as [_ Hroom];
    [reflexivity|exact Hmain|by vm_compute|vm_compute; reflexivity|].
  apply Hroom; by vm_compute.
Defined.

(** C1 as stated fails: with threshold 2, after one [put] of key 7 the [get]
    that brings the history count of 7 to exactly 2 returns the default
    value of a miss, and 7 is still not in the main cache. *)
Lemma get_reaching_threshold_misses :
  ∃ s1 s2,
    put removeNode_of_key 7 "A" (make 0 2 2 2) = Some s1 ∧
    historyCount 7 s1 = 1 ∧
    get removeNode_of_key "" 7 s1 = Some ("", s2) ∧
    historyCount 7 s2 = 2 ∧
    k_ s2 = 2 ∧
    Lru.cached 7 (base s2) = None ∧
    ¬ in_main 7 s2.
Proof.
  eexists _, _. split; [vm_compute; reflexivity|].
  split; [vm_compute; reflexivity|]. split; [vm_compute; reflexivity|].
  split; [vm_compute; reflexivity|]. split; [reflexivity|].
  split; [vm_compute; reflexivity|].
  unfold in_main, Lru.mapped_keys. apply not_elem_of_dom. vm_compute. reflexivity.
Qed.

End klru_runs.

(** ** The sharded cache: routing *)

Section hashlru_facts.
Import HashLru.
Context {Key : Type} `{Countable Key}.
Context (Key0 : Key).
Context (removeNode_key :
  Key → @Lru.MyLruCache Key _ _ Z → option (@Lru.MyLruCache Key _ _ Z)).
Context (hashFunc : Key → Z) (hardware_concurrency : Z).
Implicit Types (h : @MyHashLru Key _ _) (key : Key).

(** The routing is a function of the key and of [sliceNum_] alone. *)
Lemma sliceIndex_sliceNum key h h' :
  sliceNum_ h' = sliceNum_ h → sliceIndex hashFunc key h' = sliceIndex hashFunc key h.
Proof. unfold sliceIndex. by intros ->. Qed.

Lemma sliceIndex_bound key h i :
  0 < sliceNum_ h ≤ INT_MAX → sliceIndex hashFunc key h = Some i →
  Z.of_nat i < sliceNum_ h.
Proof.
  unfold sliceIndex. intros Hn Hi.
  rewrite to_size_t_small in Hi by (unfold INT_MAX, SIZE_WIDTH in *; lia).
  case_decide; [done|]. injection Hi as <-.
  pose proof (Z.mod_pos_bound (Hash hashFunc key) (sliceNum_ h)). lia.
Qed.

(** C9.  With [sliceNum_] fixed at construction, the shard index of a key
    is [Hash(key) % sliceNum_]: a [put] and a [get] of the same key compute
    the same index, each forwards its arguments unchanged to the shard at
    that index and touches no other shard, and neither changes the index
    that any later call computes for any key; with
    [0 < sliceNum_ <= INT_MAX] the index lies below [sliceNum_]; and
    whenever the shard at the index answers, so does the sharded cache. *)
Theorem shard_routing key (h : MyHashLru) :
  (∀ value h', put removeNode_key hashFunc key value h = Some h' →
     ∃ i shard shard',
       sliceIndex hashFunc key h = Some i ∧
       lruSliceCaches_ h !! i = Some shard ∧
       KLru.put removeNode_key key value shard = Some shard' ∧
       lruSliceCaches_ h' = <[i := shard']> (lruSliceCaches_ h) ∧
       (∀ j, j ≠ i → lruSliceCaches_ h' !! j = lruSliceCaches_ h !! j) ∧
       (∀ key', sliceIndex hashFunc key' h' = sliceIndex hashFunc key' h)) ∧
  (∀ value found value' h', get hashFunc key value h = Some (found, value', h') →
     ∃ i shard m,
       sliceIndex hashFunc key h = Some i ∧
       lruSliceCaches_ h !! i = Some shard ∧
       Lru.get key value (KLru.base shard) = Some (found, value', m) ∧
       lruSliceCaches_ h' =
         <[i := {| KLru.base := m; KLru.k_ := KLru.k_ shard;
                   KLru.historyList_ := KLru.historyList_ shard |}]>
           (lruSliceCaches_ h) ∧
       (∀ j, j ≠ i → lruSliceCaches_ h' !! j = lruSliceCaches_ h !! j) ∧
       (∀ key', sliceIndex hashFunc key' h' = sliceIndex hashFunc key' h)) ∧
  (∀ i, 0 < sliceNum_ h ≤ INT_MAX → sliceIndex hashFunc key h = Some i →
     Z.to_nat (Hash hashFunc key `mod` sliceNum_ h) = i ∧ Z.of_nat i < sliceNum_ h) ∧
  (∀ i shard, sliceIndex hashFunc key h = Some i → lruSliceCaches_ h !! i = Some shard →
     (∀ value shard', KLru.put removeNode_key key value shard = Some shard' →
        put removeNode_key hashFunc key value h =
          Some (set_slices (<[i := shard']> (lruSliceCaches_ h)) h)) ∧
     (∀ value found value' m,
        Lru.get key value (KLru.base shard) = Some (found, value', m) →
        ∃ h', get hashFunc key value h = Some (found, value', h'))).
Proof.
  split; [|split; [|split]]; cycle 3.
  { intros i shard Hi Hs. unfold put, get. rewrite Hi; simpl. rewrite Hs; simpl. split.
    - intros value shard' Hp. by rewrite Hp.
    - intros value found value' m Hg. rewrite Hg; simpl. by eexists. }
  - intros value h' Hp. unfold put in Hp.
    apply bind_Some in Hp as (i & Hi & Hp). apply bind_Some in Hp as (shard & Hs & Hp).
    apply bind_Some in Hp as (shard' & Hk & [= <-]).
    exists i, shard, shard'. simpl. repeat split; try done.
    intros j Hj. by apply list_lookup_insert_ne.
  - intros value found value' h' Hg. unfold get in Hg.
    apply bind_Some in Hg as (i & Hi & Hg). apply bind_Some in Hg as (shard & Hs & Hg).
    apply bind_Some in Hg as ([[b v] m] & Hl & [= <- <- <-]).
    exists i, shard, m. simpl. repeat split; try done.
    intros j Hj. by apply list_lookup_insert_ne.
  - intros i Hn Hi. split; [|by eapply sliceIndex_bound].
    unfold sliceIndex in Hi.
    rewrite to_size_t_small in Hi by (unfold INT_MAX, SIZE_WIDTH in *; lia).
    case_decide; [done|]. by injection Hi.
Qed.

End hashlru_facts.

Section hashlru_runs.
Import HashLru.

(** Four shards over integer keys hashed by themselves: key 6 is routed to
    shard 2 by [put] and by [get]. *)
Lemma shard_routing_witness :
  let h := make 0 0 8 4 2 1 in
  ∃ h1 h2 shard shard' v,
    put KLru.removeNode_of_key id 6 "A" h = Some h1 ∧
    sliceIndex id 6 h = Some 2%nat ∧
    lruSliceCaches_ h !! 2%nat = Some shard ∧
    KLru.put KLru.removeNode_of_key 6 "A" shard = Some shard' ∧
    lruSliceCaches_ h1 = <[2%nat := shard']> (lruSliceCaches_ h) ∧
    get id 6 "" h1 = Some (true, v, h2) ∧
    sliceIndex id 6 h1 = Some 2%nat ∧ v = "A".
Proof.
  intros h.
  let r := eval vm_compute in (put KLru.removeNode_of_key id 6 "A" h) in
  match r with Some ?s => pose (h1 := s) end.
  let r := eval vm_compute in (get id 6 "" h1) in
  match r with Some (_, _, ?s) => pose (h2 := s) end.
  destruct (shard_routing KLru.removeNode_of_key id 6 h) as (Hput & _ & _ & _).
  destruct (Hput "A" h1) as (i & shard & shard' & Hi & Hs & Hp & Hl & _ & Hidx);
    [vm_compute; reflexivity|].
  assert (i = 2%nat) as -> by (vm_compute in Hi; congruence).
  exists h1, h2, shard, shard', "A". repeat split; done.
Defined.

End hashlru_runs.

(** ** The LFU engine: frequencies *)

Section lfu_facts.
Import Lfu.
Context {Key : Type} `{Countable Key} {Value : Type}.
Context (Key0 : Key) (Value0 : Value).
Context (iteration_order : gmap Key nat → list (Key * nat)).
Implicit Types (c : @MyLfuCache Key _ _ Value) (l : Freqlist) (k : Key) (v : Value)
  (o : @call Key Value) (os : list (@call Key Value)).

(** *** Methods that write no frequency *)

Lemma settled_refl c : settled c c.
Proof. by repeat split. Qed.

Lemma settled_trans c1 c2 c3 : settled c1 c2 → settled c2 c3 → settled c1 c3.
Proof. unfold settled. intros (?&?&?&?) (?&?&?&?). repeat split; congruence. Qed.

Lemma fresh_ones_refl c : fresh_ones c c.
Proof. exists []. by rewrite app_nil_r. Qed.

Lemma fresh_ones_trans c1 c2 c3 :
  fresh_ones c1 c2 → fresh_ones c2 c3 → fresh_ones c1 c3.
Proof.
  intros (l1 & E1 & F1) (l2 & E2 & F2). exists (l1 ++ l2).
  rewrite E2, E1, <- app_assoc. split; [done|]. by apply Forall_app.
Qed.

Lemma quiet_refl c : quiet c c.
Proof. split; [apply settled_refl|apply fresh_ones_refl]. Qed.

Lemma quiet_trans c1 c2 c3 : quiet c1 c2 → quiet c2 c3 → quiet c1 c3.
Proof.
  intros [? ?] [? ?]. split; [by eapply settled_trans|by eapply fresh_ones_trans].
Qed.

Lemma store_quiet p f c c' :
  (∀ n, freq (f n) = freq n) → store p f c = Some c' → quiet c c'.
Proof.
  unfold store. intros Hf Hs. apply bind_Some in Hs as (n & Hn & [= <-]).
  split; [by repeat split|]. exists []. rewrite app_nil_r. split; [|done].
  unfold freqs; simpl. rewrite list_fmap_insert, Hf. apply list_insert_id.
  by rewrite list_lookup_fmap, Hn.
Qed.

Lemma Freqlist_new_quiet n c : quiet c (Freqlist_new Key0 Value0 n c).2.
Proof.
  split; [by repeat split|]. exists [1; 1]. split; [|by repeat constructor].
  unfold freqs; simpl. by rewrite fmap_app.
Qed.

Lemma Freqlist_addNode_quiet l node c c' :
  Freqlist_addNode l node c = Some c' → quiet c c'.
Proof.
  unfold Freqlist_addNode. intros Ha.
  apply bind_Some in Ha as (t & _ & Ha). apply bind_Some in Ha as (c1 & H1 & Ha).
  apply bind_Some in Ha as (c2 & H2 & Ha). apply bind_Some in Ha as (t2 & _ & Ha).
  apply bind_Some in Ha as (last & _ & Ha). apply bind_Some in Ha as (c3 & H3 & H4).
  apply store_quiet in H1, H2, H3, H4; try done.
  eauto using quiet_trans.
Qed.

Lemma Freqlist_remove_quiet l node c c' :
  Freqlist_remove l node c = Some c' → quiet c c'.
Proof.
  unfold Freqlist_remove. intros Hr. apply bind_Some in Hr as (n & _ & Hr).
  destruct (prev n) as [pv|]; [|injection Hr as <-; apply quiet_refl].
  destruct (next n) as [nx0|]; [|injection Hr as <-; apply quiet_refl].
  apply bind_Some in Hr as (c1 & H1 & Hr). apply bind_Some in Hr as (n1 & _ & Hr).
  apply bind_Some in Hr as (nx & _ & Hr). apply bind_Some in Hr as (c2 & H2 & Hr).
  apply bind_Some in Hr as (c3 & H3 & H4).
  apply store_quiet in H1, H2, H3, H4; try done.
  eauto using quiet_trans.
Qed.

Lemma removeFromFreqList_quiet node c c' :
  removeFromFreqList node c = Some c' → quiet c c'.
Proof.
  unfold removeFromFreqList. intros Hr. apply bind_Some in Hr as (n & _ & Hr).
  apply bind_Some in Hr as (l & _ & Hr). by eapply Freqlist_remove_quiet.
Qed.

Lemma addToFreqList_quiet node c c' :
  addToFreqList Key0 Value0 node c = Some c' → quiet c c'.
Proof.
  unfold addToFreqList. intros Ha. apply bind_Some in Ha as (n & _ & Ha).
  apply bind_Some in Ha as (l & _ & Ha). apply Freqlist_addNode_quiet in Ha.
  eapply quiet_trans; [|exact Ha]. destruct (freqToFreqList_ c !! freq n).
  - apply quiet_refl.
  - pose proof (Freqlist_new_quiet (freq n) c) as Hq.
    destruct (Freqlist_new Key0 Value0 (freq n) c) as [l' c0]. simpl in Hq.
    destruct Hq as [Hs Hf]. split; [exact Hs|exact Hf].
Qed.

Lemma updateMinFreq_quiet c c' : updateMinFreq c = Some c' → quiet c c'.
Proof.
  unfold updateMinFreq. intros Hu. apply bind_Some in Hu as (m & _ & [= <-]).
  split; [by repeat split|]. exists []. by rewrite app_nil_r.
Qed.

(** *** Frequencies *)

Lemma grows_refl c : grows c c.
Proof. intros p f Hp. by exists f. Qed.

Lemma grows_trans c1 c2 c3 : grows c1 c2 → grows c2 c3 → grows c1 c3.
Proof.
  intros H12 H23 p f Hp. destruct (H12 p f Hp) as (f2 & Hp2 & ?).
  destruct (H23 p f2 Hp2) as (f3 & Hp3 & ?). exists f3. split; [done|lia].
Qed.

Lemma fresh_ones_positive c c' : fresh_ones c c' → positive_freqs c → positive_freqs c'.
Proof.
  unfold positive_freqs. intros (l & -> & Hl) Hc. apply Forall_app. split; [done|].
  eapply Forall_impl; [exact Hl|]. simpl. lia.
Qed.

Lemma fresh_ones_grows c c' : fresh_ones c c' → grows c c'.
Proof.
  intros (l & E & _) p f Hp. exists f. split; [|done].
  rewrite E. by apply lookup_app_l_Some.
Qed.

Lemma store_set_freq node f c c' :
  store node (set_freq f) c = Some c' →
  settled c c' ∧ is_Some (freqs c !! node) ∧ freqs c' = <[node := f]> (freqs c).
Proof.
  unfold store. intros Hs. apply bind_Some in Hs as (n & Hn & [= <-]).
  split; [by repeat split|]. unfold freqs; simpl. split.
  - rewrite list_lookup_fmap, Hn. by eexists.
  - by rewrite list_fmap_insert.
Qed.

Lemma positive_insert node f c c' :
  freqs c' = <[node := f]> (freqs c) → 1 ≤ f → positive_freqs c → positive_freqs c'.
Proof. unfold positive_freqs. intros -> Hf Hc. by apply Forall_insert. Qed.

Lemma age_positive node c c' :
  age Key0 Value0 node c = Some c' →
  settled c c' ∧ (positive_freqs c → positive_freqs c').
Proof.
  unfold age. intros Ha. apply bind_Some in Ha as (c1 & H1 & Ha).
  apply bind_Some in Ha as (n & _ & Ha). apply bind_Some in Ha as (f & _ & Ha).
  apply bind_Some in Ha as (c2 & H2 & H3).
  apply removeFromFreqList_quiet in H1 as [S1 F1].
  apply store_set_freq in H2 as (S2 & _ & E2).
  apply addToFreqList_quiet in H3 as [S3 F3].
  split; [eauto using settled_trans|]. intros Hc.
  apply (fresh_ones_positive _ _ F3). eapply positive_insert; [exact E2| |].
  - case_decide; lia.
  - by apply (fresh_ones_positive _ _ F1).
Qed.

(** One round of the loop takes [maxAverageNum_ / 2] off the frequency of
    its node and stops at 1. *)
Lemma age_frequency node f c c' :
  age Key0 Value0 node c = Some c' → freqs c !! node = Some f →
  freqs c' !! node = Some (Z.max 1 (f - maxAverageNum_ c `quot` 2)).
Proof.
  unfold age. intros Ha Hf. apply bind_Some in Ha as (c1 & H1 & Ha).
  apply bind_Some in Ha as (n & Hn & Ha). apply bind_Some in Ha as (f1 & Hf1 & Ha).
  apply bind_Some in Ha as (c2 & H2 & H3). apply int_result_Some in Hf1 as (-> & _).
  apply removeFromFreqList_quiet in H1 as [(_ & Sm & _) (l1 & E1 & _)].
  apply store_set_freq in H2 as (_ & Hin & E2).
  apply addToFreqList_quiet in H3 as [_ (l3 & E3 & _)].
  assert (freq n = f) as <-.
  { assert (freqs c1 !! node = Some f) as Hf1 by (rewrite E1; by apply lookup_app_l_Some).
    unfold freqs in Hf1. rewrite list_lookup_fmap, Hn in Hf1. by injection Hf1. }
  rewrite E3. apply lookup_app_l_Some. rewrite E2, Sm.
  rewrite list_lookup_insert_eq by (by apply lookup_lt_is_Some).
  f_equal. generalize (freq n - maxAverageNum_ c `quot` 2). intros z.
  destruct (decide (z < 1)); lia.
Qed.

Lemma age_all_positive ns : ∀ c c',
  age_all Key0 Value0 ns c = Some c' →
  settled c c' ∧ (positive_freqs c → positive_freqs c').
Proof.
  induction ns as [|[k node] ns IH]; intros c c' Ha; simpl in Ha.
  - injection Ha as <-. split; [apply settled_refl|done].
  - apply bind_Some in Ha as (c1 & H1 & Ha).
    apply age_positive in H1 as [S1 P1]. apply IH in Ha as [S2 P2].
    split; [by eapply settled_trans|auto].
Qed.

Lemma handleOverMaxAverageNum_positive c c' :
  handleOverMaxAverageNum Key0 Value0 iteration_order c = Some c' →
  settled c c' ∧ (positive_freqs c → positive_freqs c').
Proof.
  unfold handleOverMaxAverageNum. intros Hh. case_decide.
  - injection Hh as <-. split; [apply settled_refl|done].
  - apply bind_Some in Hh as (c1 & H1 & H2).
    apply age_all_positive in H1 as [S1 P1].
    apply updateMinFreq_quiet in H2 as [S2 F2].
    split; [by eapply settled_trans|]. intros Hc.
    apply (fresh_ones_positive _ _ F2). auto.
Qed.

Lemma addFreqNum_freqs c c' :
  addFreqNum Key0 Value0 iteration_order c = Some c' →
  capacity_ c' = capacity_ c ∧ nodeMap_ c' = nodeMap_ c ∧
  (positive_freqs c → positive_freqs c') ∧ (¬ over_ceiling c → freqs c' = freqs c).
Proof.
  unfold addFreqNum, over_ceiling. intros Ha.
  apply bind_Some in Ha as (total & Ht & Ha). apply int_result_Some in Ht as (-> & _).
  simpl in Ha. case_decide.
  - apply handleOverMaxAverageNum_positive in Ha as ((? & _ & _ & ?) & ?).
    by repeat split.
  - injection Ha as <-. by repeat split.
Qed.

Lemma over_ceiling_settled c c' : settled c c' → over_ceiling c' ↔ over_ceiling c.
Proof. unfold over_ceiling. by intros (_ & -> & -> & ->). Qed.

Lemma getInternal_freqs node c c' :
  getInternal Key0 Value0 iteration_order node c = Some c' →
  capacity_ c' = capacity_ c ∧ nodeMap_ c' = nodeMap_ c ∧
  (positive_freqs c → positive_freqs c') ∧ (¬ over_ceiling c → grows c c').
Proof.
  unfold getInternal. intros Hg. apply bind_Some in Hg as (c1 & H1 & Hg).
  apply bind_Some in Hg as (n & Hn & Hg). apply bind_Some in Hg as (f & Hf & Hg).
  apply int_result_Some in Hf as (-> & _).
  apply bind_Some in Hg as (c2 & H2 & Hg). apply bind_Some in Hg as (c3 & H3 & Hg).
  apply bind_Some in Hg as (n3 & _ & Hg). apply bind_Some in Hg as (m & _ & Hg).
  apply bind_Some in Hg as (c4 & H4 & H5).
  apply removeFromFreqList_quiet in H1 as [S1 F1].
  apply store_set_freq in H2 as (S2 & _ & E2).
  apply addToFreqList_quiet in H3 as [S3 F3].
  assert (settled c3 c4 ∧ freqs c4 = freqs c3) as [S4 E4].
  { case_decide; [|injection H4 as <-; split; [apply settled_refl|done]].
    apply bind_Some in H4 as (l & _ & H4). apply bind_Some in H4 as (e & _ & H4).
    destruct e; injection H4 as <-; by repeat split. }
  assert (settled c c4) as S by eauto using settled_trans.
  assert (freqs c1 !! node = Some (freq n)) as Hn1
    by (unfold freqs; by rewrite list_lookup_fmap, Hn).
  apply addFreqNum_freqs in H5 as (Hcap & Hmap & P5 & E5).
  destruct S as (Sc & Sm & St & Sn).
  split; [congruence|]. split; [congruence|]. split.
  - intros Hc. apply P5. unfold positive_freqs. rewrite E4.
    apply (fresh_ones_positive _ _ F3).
    pose proof (fresh_ones_positive _ _ F1 Hc) as Hc1.
    eapply positive_insert; [exact E2| |exact Hc1].
    unfold positive_freqs in Hc1. rewrite Forall_lookup in Hc1.
    specialize (Hc1 node (freq n) Hn1). simpl in Hc1. lia.
  - intros Hov. eapply grows_trans; [by apply fresh_ones_grows|].
    assert (grows c1 c2) as G2.
    { intros p f Hp. rewrite E2. destruct (decide (p = node)) as [->|Hne].
      - exists (freq n + 1). rewrite list_lookup_insert_eq by (by eapply lookup_lt_Some).
        split; [done|]. rewrite Hn1 in Hp. injection Hp as <-. lia.
      - exists f. by rewrite list_lookup_insert_ne. }
    eapply grows_trans; [exact G2|].
    eapply grows_trans; [by apply fresh_ones_grows|].
    intros p f Hp. exists f. split; [|done]. rewrite E5, E4; [done|].
    unfold over_ceiling in *. by rewrite St, Sn, Sm.
Qed.

Lemma decreaseFreqNum_freqs num c c' :
  decreaseFreqNum num c = Some c' →
  capacity_ c' = capacity_ c ∧ nodeMap_ c' = nodeMap_ c ∧ freqs c' = freqs c.
Proof.
  unfold decreaseFreqNum. intros Hd. by apply bind_Some in Hd as (total & _ & [= <-]).
Qed.

Lemma kickOut_freqs c c' :
  kickOut c = Some c' →
  capacity_ c' = capacity_ c ∧ (∃ x, nodeMap_ c' = delete x (nodeMap_ c)) ∧
  fresh_ones c c'.
Proof.
  unfold kickOut. intros Hk. apply bind_Some in Hk as (l & _ & Hk).
  apply bind_Some in Hk as (first & _ & Hk). apply bind_Some in Hk as (node & _ & Hk).
  apply bind_Some in Hk as (n & _ & Hk). apply bind_Some in Hk as (c2 & H2 & Hk).
  apply bind_Some in Hk as (n2 & _ & Hk).
  apply removeFromFreqList_quiet in H2 as [(Sc & _ & _ & Sn) F2].
  apply decreaseFreqNum_freqs in Hk as (Hc & Hn & E). simpl in *.
  split; [congruence|]. split; [exists (key n); congruence|].
  destruct F2 as (l2 & E2 & ?). exists l2. by rewrite E.
Qed.

Lemma putInternal_freqs k v c c' :
  putInternal Key0 Value0 k v c = Some c' →
  capacity_ c' = capacity_ c ∧ fresh_ones c c' ∧
  ∀ k0, k0 ≠ k → nodeMap_ c' !! k0 = nodeMap_ c !! k0 ∨ nodeMap_ c' !! k0 = None.
Proof.
  unfold putInternal. intros Hp. apply bind_Some in Hp as (c2 & H2 & H3).
  set (c1 := set_heap (heap c ++ [Node_new k v]) c) in *.
  assert (fresh_ones c c1) as F1.
  { exists [1]. split; [|by repeat constructor]. unfold freqs; simpl. by rewrite fmap_app. }
  assert (capacity_ c2 = capacity_ c ∧ fresh_ones c1 c2 ∧
          ∀ k0, nodeMap_ c2 !! k0 = nodeMap_ c !! k0 ∨ nodeMap_ c2 !! k0 = None)
    as (Hc2 & F2 & Hm2).
  { case_decide.
    - apply kickOut_freqs in H2 as (? & (x & ->) & ?). split; [done|]. split; [done|].
      intros k0. simpl. destruct (decide (x = k0)) as [->|?].
      + right. apply lookup_delete_eq.
      + left. by apply lookup_delete_ne.
    - injection H2 as <-. split; [done|]. split; [apply fresh_ones_refl|by left]. }
  apply addToFreqList_quiet in H3 as [(Sc & _ & _ & Sn) F3]. simpl in *.
  split; [congruence|]. split; [eauto using fresh_ones_trans|].
  intros k0 Hk0. rewrite Sn, lookup_insert_ne by done. apply Hm2.
Qed.

(** *** An admission does not write [minFreq_] *)

Lemma store_minFreq p f c c' : store p f c = Some c' → minFreq_ c' = minFreq_ c.
Proof. unfold store. intros Hs. by apply bind_Some in Hs as (n & _ & [= <-]). Qed.

Lemma Freqlist_addNode_minFreq l node c c' :
  Freqlist_addNode l node c = Some c' → minFreq_ c' = minFreq_ c.
Proof.
  unfold Freqlist_addNode. intros Ha.
  apply bind_Some in Ha as (t & _ & Ha). apply bind_Some in Ha as (c1 & H1 & Ha).
  apply bind_Some in Ha as (c2 & H2 & Ha). apply bind_Some in Ha as (t2 & _ & Ha).
  apply bind_Some in Ha as (last & _ & Ha). apply bind_Some in Ha as (c3 & H3 & H4).
  apply store_minFreq in H1, H2, H3, H4. congruence.
Qed.

Lemma Freqlist_remove_minFreq l node c c' :
  Freqlist_remove l node c = Some c' → minFreq_ c' = minFreq_ c.
Proof.
  unfold Freqlist_remove. intros Hr. apply bind_Some in Hr as (n & _ & Hr).
  destruct (prev n) as [pv|]; [|by injection Hr as <-].
  destruct (next n) as [nx0|]; [|by injection Hr as <-].
  apply bind_Some in Hr as (c1 & H1 & Hr). apply bind_Some in Hr as (n1 & _ & Hr).
  apply bind_Some in Hr as (nx & _ & Hr). apply bind_Some in Hr as (c2 & H2 & Hr).
  apply bind_Some in Hr as (c3 & H3 & H4).
  apply store_minFreq in H1, H2, H3, H4. congruence.
Qed.

Lemma removeFromFreqList_minFreq node c c' :
  removeFromFreqList node c = Some c' → minFreq_ c' = minFreq_ c.
Proof.
  unfold removeFromFreqList. intros Hr. apply bind_Some in Hr as (n & _ & Hr).
  apply bind_Some in Hr as (l & _ & Hr). by eapply Freqlist_remove_minFreq.
Qed.

Lemma addToFreqList_minFreq node c c' :
  addToFreqList Key0 Value0 node c = Some c' → minFreq_ c' = minFreq_ c.
Proof.
  unfold addToFreqList. intros Ha. apply bind_Some in Ha as (n & _ & Ha).
  apply bind_Some in Ha as (l & _ & Ha). apply Freqlist_addNode_minFreq in Ha.
  rewrite Ha. by destruct (freqToFreqList_ c !! freq n).
Qed.

Lemma kickOut_minFreq c c' : kickOut c = Some c' → minFreq_ c' = minFreq_ c.
Proof.
  unfold kickOut. intros Hk. apply bind_Some in Hk as (l & _ & Hk).
  apply bind_Some in Hk as (first & _ & Hk). apply bind_Some in Hk as (node & _ & Hk).
  apply bind_Some in Hk as (n & _ & Hk). apply bind_Some in Hk as (c2 & H2 & Hk).
  apply bind_Some in Hk as (n2 & _ & Hk). apply removeFromFreqList_minFreq in H2.
  unfold decreaseFreqNum in Hk. apply bind_Some in Hk as (total & _ & [= <-]).
  simpl in *. congruence.
Qed.

(** Whatever the state, inserting a new key leaves [minFreq_] as it was:
    it is not set to 1. *)
Lemma putInternal_minFreq k v c c' :
  putInternal Key0 Value0 k v c = Some c' → minFreq_ c' = minFreq_ c.
Proof.
  unfold putInternal. intros Hp. apply bind_Some in Hp as (c2 & H2 & H3).
  apply addToFreqList_minFreq in H3. simpl in H3. rewrite H3.
  case_decide; [by apply kickOut_minFreq in H2|by injection H2 as <-].
Qed.

(** *** [updateMinFreq] stays below [INT8_MAX] *)

Lemma scan_minFreq_le ls : ∀ m c r, scan_minFreq ls m c = Some r → r ≤ m.
Proof.
  induction ls as [|[f l] ls IH]; intros m c r Hs; simpl in Hs.
  - injection Hs as <-. lia.
  - apply bind_Some in Hs as (e & _ & Hs). apply IH in Hs. destruct e; lia.
Qed.

(** Whatever the lists hold, the rebalance ends with [minFreq_] below
    [INT8_MAX]: a smallest non-empty list of frequency 127 or more is never
    found. *)
Lemma updateMinFreq_below_INT8_MAX c c' :
  updateMinFreq c = Some c' → minFreq_ c' < INT8_MAX.
Proof.
  unfold updateMinFreq. intros Hu. apply bind_Some in Hu as (m & Hm & [= <-]).
  apply scan_minFreq_le in Hm. simpl. unfold INT8_MAX in *. case_decide; lia.
Qed.

(** *** The frequency of a resident entry *)

Lemma frequency_freqs k c : frequency k c = p ← nodeMap_ c !! k; freqs c !! p.
Proof.
  unfold frequency, freqs. destruct (nodeMap_ c !! k) as [p|]; simpl; [|done].
  rewrite list_lookup_fmap. by destruct (heap c !! p).
Qed.

Lemma positive_frequency k f c : positive_freqs c → frequency k c = Some f → 1 ≤ f.
Proof.
  unfold positive_freqs. rewrite frequency_freqs, Forall_lookup. intros Hc Hf.
  apply bind_Some in Hf as (p & _ & Hp). by apply (Hc p).
Qed.

Lemma grows_frequency k f f' c c' :
  grows c c' → same_entries c c' →
  frequency k c = Some f → frequency k c' = Some f' → f ≤ f'.
Proof.
  rewrite !frequency_freqs. intros Hg He Hf Hf'.
  apply bind_Some in Hf as (p & Hp & Hf).
  destruct (He k p Hp) as [Hk|Hk]; rewrite Hk in Hf'; [|done]. simpl in Hf'.
  destruct (Hg p f Hf) as (f2 & Hf2 & ?). congruence.
Qed.

Lemma step_freqs o c c' :
  step Key0 Value0 iteration_order o c = Some c' →
  (positive_freqs c → positive_freqs c') ∧
  (¬ rebalances o c → grows c c' ∧ same_entries c c').
Proof.
  destruct o as [k v|k|]; simpl; intros Hs.
  - unfold put in Hs. case_decide as Hcap.
    { injection Hs as <-. split; [done|]. intros _.
      split; [apply grows_refl|]. intros k0 p Hp. by left. }
    destruct (nodeMap_ c !! k) as [node|] eqn:Hk.
    + apply bind_Some in Hs as (c1 & H1 & Hg).
      apply store_quiet in H1 as [S1 F1]; [|done].
      apply getInternal_freqs in Hg as (_ & Hm & P & G).
      split; [intros Hc; by apply P, (fresh_ones_positive _ _ F1)|].
      intros Hnr. split.
      * eapply grows_trans; [by apply fresh_ones_grows|]. apply G.
        rewrite (over_ceiling_settled _ _ S1). intros Hov. apply Hnr.
        split; [lia|]. split; [by eexists|done].
      * intros k0 p Hp. left. destruct S1 as (_ & _ & _ & S1). congruence.
    + apply putInternal_freqs in Hs as (_ & F & Hm).
      split; [by apply fresh_ones_positive|]. intros _.
      split; [by apply fresh_ones_grows|]. intros k0 p Hp.
      assert (k0 ≠ k) as Hne by congruence.
      destruct (Hm k0 Hne) as [E|E]; [left; congruence|by right].
  - apply bind_Some in Hs as ([v0 c0] & Hg & [= <-]). unfold get1 in Hg.
    apply bind_Some in Hg as ([[b v] c1] & Hg & [= _ <-]). unfold get in Hg.
    destruct (nodeMap_ c !! k) as [node|] eqn:Hk.
    + apply bind_Some in Hg as (n & _ & Hg). apply bind_Some in Hg as (c2 & Hg & [= _ _ <-]).
      apply getInternal_freqs in Hg as (_ & Hm & P & G).
      split; [done|]. intros Hnr. split.
      * apply G. intros Hov. apply Hnr. split; [by eexists|done].
      * intros k0 p Hp. left. congruence.
    + injection Hg as _ _ <-. split; [done|]. intros _.
      split; [apply grows_refl|]. intros k0 p Hp. by left.
  - injection Hs as <-. split; [done|]. intros _.
    split; [intros p f Hp; by exists f|]. intros k0 p Hp. right. apply lookup_empty.
Qed.

Lemma positive_make capacity maxAverageNum curTotalNum0 :
  positive_freqs (make (Key:=Key) (Value:=Value) capacity maxAverageNum curTotalNum0).
Proof. constructor. Qed.

Lemma run_positive os : ∀ c c',
  run Key0 Value0 iteration_order os c = Some c' → positive_freqs c → positive_freqs c'.
Proof.
  induction os as [|o os IH]; intros c c' Hr Hc; simpl in Hr.
  - by injection Hr as <-.
  - apply bind_Some in Hr as (c1 & Hs & Hr). apply step_freqs in Hs as [P _].
    eapply IH; eauto.
Qed.

(** C8.  In every state [c] that a sequence of calls reaches from a newly
    constructed cache, the frequency stored in a resident entry is at
    least 1; and so it is after one more call [o], whatever the call did
    (a rebalance included), while, unless [o] ran the rebalance, no entry
    that is resident before and after [o] has a smaller frequency after
    it. *)
Theorem frequency_monotone capacity maxAverageNum curTotalNum0 os c :
  run Key0 Value0 iteration_order os
    (make (Key:=Key) (Value:=Value) capacity maxAverageNum curTotalNum0) = Some c →
  (∀ k f, frequency k c = Some f → 1 ≤ f) ∧
  ∀ o c', step Key0 Value0 iteration_order o c = Some c' →
    (∀ k f, frequency k c' = Some f → 1 ≤ f) ∧
    (¬ rebalances o c →
     ∀ k f f', frequency k c = Some f → frequency k c' = Some f' → f ≤ f').
Proof.
  intros Hr.
  pose proof (run_positive _ _ _ Hr (positive_make _ _ _)) as Hc.
  split; [intros k f; by apply positive_frequency|].
  intros o c' Hs. apply step_freqs in Hs as [P G]. split.
  - intros k f. apply positive_frequency. auto.
  - intros Hnr k f f'. destruct (G Hnr). by apply grows_frequency.
Qed.

(** *** A miss, and [purge] *)

Lemma get_absent k v c :
  nodeMap_ c !! k = None → get Key0 Value0 iteration_order k v c = Some (false, v, c).
Proof. unfold get. by intros ->. Qed.

(** What [purge()] writes, in every state: it empties the index map and
    the map of frequency lists, and no other field.  [minFreq_],
    [curTotalNum_] and [curAverageNum_] keep the values they had before the
    call, as do [capacity_] and [maxAverageNum_]. *)
Theorem purge_clears_maps_only c :
  nodeMap_ (purge c) = ∅ ∧ freqToFreqList_ (purge c) = ∅ ∧
  minFreq_ (purge c) = minFreq_ c ∧
  curTotalNum_ (purge c) = curTotalNum_ c ∧
  curAverageNum_ (purge c) = curAverageNum_ c ∧
  capacity_ (purge c) = capacity_ c ∧
  maxAverageNum_ (purge c) = maxAverageNum_ c.
Proof. by repeat split. Qed.

End lfu_facts.

Section lfu_runs.
Import Lfu.

(** A cache of capacity 2 over integer keys: the second [get] of key 1 runs
    no rebalance and raises its frequency from 2 to 3. *)
Lemma frequency_monotone_witness :
  ∃ c c',
    run 0 "" map_to_list [Put 1 "A"; Get 1] (make 2 10 0) = Some c ∧
    step 0 "" map_to_list (Get 1) c = Some c' ∧
    ¬ rebalances (Get 1) c ∧
    frequency 1 c = Some 2 ∧ frequency 1 c' = Some 3 ∧
    1 ≤ 2 ∧ 1 ≤ 3 ∧ 2 ≤ 3.
Proof.
  let r := eval vm_compute in (run 0 "" map_to_list [Put 1 "A"; Get 1] (make 2 10 0)) in
  match r with Some ?s => pose (c := s) end.
  let r := eval vm_compute in (step 0 "" map_to_list (Get 1) c) in
  match r with Some ?s => pose (c' := s) end.
  assert (¬ rebalances (Get 1) c) as Hnr.
  { intros [_ Hov]. vm_compute in Hov. discriminate. }
  destruct (frequency_monotone 0 "" map_to_list 2 10 0 [Put 1 "A"; Get 1] c)
    as [Hpos Hstep]; [vm_compute; reflexivity|].
  destruct (Hstep (Get 1) c') as [Hpos' Hmono]; [vm_compute; reflexivity|].
  exists c, c'. split; [vm_compute; reflexivity|]. split; [vm_compute; reflexivity|].
  split; [exact Hnr|]. split; [vm_compute; reflexivity|].
  split; [vm_compute; reflexivity|].
  split; [apply (Hpos 1); vm_compute; reflexivity|].
  split; [apply (Hpos' 1); vm_compute; reflexivity|].
  apply (Hmono Hnr 1); vm_compute; reflexivity.
Defined.

(** The exception is real: with ceiling 4, the fifth [get] of the only key
    raises its frequency from 5 to 6 and runs the rebalance, which lowers it
    to 4. *)
Example rebalance_lowers_frequency :
  ∃ c c',
    run 0 "" map_to_list (Put 1 "A" :: replicate 4 (Get 1)) (make 1 4 0) = Some c ∧
    step 0 "" map_to_list (Get 1) c = Some c' ∧
    rebalances (Get 1) c ∧
    frequency 1 c = Some 5 ∧ frequency 1 c' = Some 4.
Proof.
  eexists _, _. split; [vm_compute; reflexivity|]. split; [vm_compute; reflexivity|].
  split; [|split; vm_compute; reflexivity].
  split; [by eexists|]. vm_compute. reflexivity.
Qed.

(** C7 fails on the code: [purge()] removes every entry but does none of
    the bookkeeping that the other removal path does ([kickOut] calls
    [decreaseFreqNum], which takes the frequency of the entry off
    [curTotalNum_] and sets [curAverageNum_] to 0 when the index map is
    empty).  A cache of capacity 2 and ceiling 2 that has seen
    [put(1, "A")] and three [get(1)] holds [curTotalNum_ = 3],
    [curAverageNum_ = 3] and [minFreq_ = 3].
    (1) After [purge()] the two maps are empty and the three counters are
    still 3, where the constructor set 0 (here), 0 and 127.
    (2) [kickOut] on the same state removes the same entry and leaves
    [curTotalNum_ = 0] and [curAverageNum_ = 0].
    (3) The stale counters change what the emptied cache does next:
    [put(2, "B")], [get(2)] finds the average 4 above the ceiling 2 and
    rebalances, so key 2 ends with frequency 1, [curTotalNum_ = 4] and
    [minFreq_ = 1].
    (4) On a new cache the same two calls find the average 1, run no
    rebalance and leave key 2 with frequency 2 and [curTotalNum_ = 1]. *)
Lemma purge_leaves_stale_counters :
  ∃ c c1 c2 c3 c4 c5,
    run 0 "" map_to_list [Put 1 "A"; Get 1; Get 1; Get 1] (make 2 2 0) = Some c ∧
    curTotalNum_ c = 3 ∧ curAverageNum_ c = 3 ∧ minFreq_ c = 3 ∧
    nodeMap_ (purge c) = ∅ ∧ freqToFreqList_ (purge c) = ∅ ∧
    curTotalNum_ (purge c) = 3 ∧ curAverageNum_ (purge c) = 3 ∧
    minFreq_ (purge c) = 3 ∧
    curTotalNum_ (make (Key:=Z) (Value:=string) 2 2 0) = 0 ∧
    curAverageNum_ (make (Key:=Z) (Value:=string) 2 2 0) = 0 ∧
    minFreq_ (make (Key:=Z) (Value:=string) 2 2 0) = 127 ∧
    kickOut c = Some c1 ∧ nodeMap_ c1 = ∅ ∧
    curTotalNum_ c1 = 0 ∧ curAverageNum_ c1 = 0 ∧
    put 0 "" map_to_list 2 "B" (purge c) = Some c2 ∧
    maxAverageNum_ c2 = 2 ∧ average (curTotalNum_ c2 + 1) (nodeMap_ c2) = 4 ∧
    get 0 "" map_to_list 2 "" c2 = Some (true, "B", c3) ∧
    frequency 2 c3 = Some 1 ∧ curTotalNum_ c3 = 4 ∧ minFreq_ c3 = 1 ∧
    put 0 "" map_to_list 2 "B" (make 2 2 0) = Some c4 ∧
    maxAverageNum_ c4 = 2 ∧ average (curTotalNum_ c4 + 1) (nodeMap_ c4) = 1 ∧
    get 0 "" map_to_list 2 "" c4 = Some (true, "B", c5) ∧
    frequency 2 c5 = Some 2 ∧ curTotalNum_ c5 = 1.
Proof.
  eexists _, _, _, _, _, _. by_evaluation.
Qed.

(** C3 fails on the code: [putInternal] never writes [minFreq_].
    (1) A cache of capacity 1 and ceiling 1 that has seen [put(1, "A")],
    [get(1)], [get(1)] is full, with key 1 alone in the list of
    [minFreq_ = 3]; [put(2, "B")] evicts key 1, takes 3 off [curTotalNum_]
    and inserts key 2 with frequency 1 into list 1, but [minFreq_] is still
    3 afterwards.
    (2) In a new cache of capacity 2, whatever its ceiling and whatever
    [curTotalNum_] starts with, [minFreq_] is still [INT8_MAX] after two
    insertions, so the third one, which has to evict, dereferences the null
    pointer that [freqToFreqList_[127]] yields.
    (3) Scenario B of the specification ends the same way. *)
Lemma admission_leaves_minFreq :
  (∃ c c',
     run 0 "" map_to_list [Put 1 "A"; Get 1; Get 1] (make 1 1 0) = Some c ∧
     size (nodeMap_ c) = 1%nat ∧ capacity_ c = 1 ∧
     minFreq_ c = 3 ∧ bucket 3 c = Some [1] ∧
     put 0 "" map_to_list 2 "B" c = Some c' ∧
     nodeMap_ c' !! 1 = None ∧ curTotalNum_ c' = curTotalNum_ c - 3 ∧
     frequency 2 c' = Some 1 ∧ bucket 1 c' = Some [2] ∧
     minFreq_ c' = 3) ∧
  (∀ maxAverageNum curTotalNum0, ∃ c,
     run 0 "" map_to_list [Put 1 "A"; Put 2 "B"]
       (make 2 maxAverageNum curTotalNum0) = Some c ∧
     minFreq_ c = INT8_MAX ∧ freqToFreqList_ c !! INT8_MAX = None ∧
     put 0 "" map_to_list 3 "C" c = None) ∧
  run 0 "" map_to_list [Put 1 "A"; Put 2 "B"; Get 1; Put 3 "C"] (make 2 10 0) = None.
Proof.
  split; [|split].
  - eexists _, _. by_evaluation.
  - intros maxAverageNum curTotalNum0. eexists. by_evaluation.
  - vm_compute. reflexivity.
Qed.

(** C4 fails on the code: [updateMinFreq] starts from [INT8_MAX] and takes
    [INT8_MAX] for "no list is non-empty".  A cache of capacity 1 and
    ceiling 300 that has seen [put(1, "A")] and 300 times [get(1)] holds
    key 1 with frequency 301; the next [get(1)] finds the average 301 above
    the ceiling 300 and rebalances: the frequency becomes 302 - 300 / 2 = 152
    and key 1 is moved to list 152, the only non-empty one, but [minFreq_] is
    set to 1, whose list is empty.  The lemma lists, in this order: the
    frequency of key 1, the ceiling and the average that [addFreqNum] will
    find, before the last [get]; its two results; the frequency of key 1, the
    keys of list 152, the frequencies of the non-empty lists, [minFreq_] and
    the keys of list 1, after it. *)
Lemma rebalance_minFreq_capped :
  (c ← run 0 "" map_to_list (Put 1 "A" :: replicate 300 (Get 1)) (make 1 300 0);
   '(found, v, c') ← get 0 "" map_to_list 1 "" c;
   Some (frequency 1 c, maxAverageNum_ c,
         average (curTotalNum_ c + 1) (nodeMap_ c),
         found, v,
         frequency 1 c', bucket 152 c', occupied c', minFreq_ c', bucket 1 c'))
  = Some (Some 301, 300, 301, true, "A", Some 152, Some [1], [152], 1, Some []).
Proof. vm_compute. reflexivity. Qed.

End lfu_runs.

(** ** The two engines together *)

(** C10.  When the index map does not hold the key, the two-argument [get]
    of the LRU engine and that of the LFU engine return [false], leave the
    caller's [value] as it was and return the state they were given: the
    index map, every node and its links, and the counters are the same. *)
Theorem miss_changes_nothing {Key : Type} `{Countable Key} {Value : Type}
    (Key0 : Key) (Value0 : Value) (iteration_order : gmap Key nat → list (Key * nat))
    (key : Key) (value : Value) :
  (∀ c : @Lru.MyLruCache Key _ _ Value,
     Lru.nodeMap_ c !! key = None → Lru.get key value c = Some (false, value, c)) ∧
  (∀ c : @Lfu.MyLfuCache Key _ _ Value,
     Lfu.nodeMap_ c !! key = None →
     Lfu.get Key0 Value0 iteration_order key value c = Some (false, value, c)).
Proof. split; intros c Hk; [by apply get_miss|by apply get_absent]. Qed.

(** Key 2 is looked up in caches that hold key 1 only. *)
Lemma miss_changes_nothing_witness :
  ∃ c1 c2,
    Lru.put 1 "A" (Lru.initialzeList 0 "" 2) = Some c1 ∧
    Lru.nodeMap_ c1 !! 2 = None ∧
    Lru.get 2 "x" c1 = Some (false, "x", c1) ∧
    Lfu.put 0 "" map_to_list 1 "A" (Lfu.make 2 10 0) = Some c2 ∧
    Lfu.nodeMap_ c2 !! 2 = None ∧
    Lfu.get 0 "" map_to_list 2 "x" c2 = Some (false, "x", c2).
Proof.
  destruct (miss_changes_nothing 0 "" map_to_list 2 "x") as [Hlru Hlfu].
  eexists _, _. split; [vm_compute; reflexivity|].
  split; [vm_compute; reflexivity|].
  split; [apply Hlru; vm_compute; reflexivity|].
  split; [vm_compute; reflexivity|].
  split; [vm_compute; reflexivity|].
  apply Hlfu; vm_compute; reflexivity.
Defined.

(** ** The LRU engine on the specification's scenarios *)

(** C5 fails on the code (Scenario A, capacity 2).  [put(3, "C")] unlinks
    the node of key 2, the least recent one, but [evictLeastRecent] then
    erases the key it reads through its reference to [dummyHead_->next_],
    which by then is the node of key 1: the list holds keys 1 and 3, the
    index map keys 2 and 3.  So [get(2)] is a hit on the node that was
    unlinked, which it links in again, and [get(1)] is a miss. *)
Lemma scenarioA_erases_key_1 :
  ∃ c1 c2 c3 c4 c5 c6 c7,
    Lru.put 1 "A" (Lru.initialzeList 0 "" 2) = Some c1 ∧
    Lru.put 2 "B" c1 = Some c2 ∧
    Lru.get 1 "" c2 = Some (true, "A", c3) ∧
    Lru.listed_keys c3 = [2; 1] ∧
    Lru.put 3 "C" c3 = Some c4 ∧
    Lru.listed_keys c4 = [1; 3] ∧ Lru.mapped_keys c4 = {[2; 3]} ∧
    Lru.get 2 "" c4 = Some (true, "B", c5) ∧
    Lru.get 1 "" c5 = Some (false, "", c6) ∧
    Lru.get 3 "" c6 = Some (true, "C", c7) ∧
    Lru.listed_keys c7 = [1; 2; 3].
Proof.
  eexists _, _, _, _, _, _, _. by_evaluation.
Qed.

(** C2 fails on the code.
    (1) LRU, capacity 1: after [put(1, "A")], [put(2, "B")] the list between
    the sentinels holds key 2 and the index map holds key 1.
    (2) LRU, capacity 0: after [put(5, "A")], [put(6, "B")] the index map
    holds two keys.
    (3) LFU, capacity 1 and ceiling 1: after [put(1, "A")], [get(1)],
    [get(1)], [put(2, "B")], [put(3, "C")] the index map holds two keys. *)
Lemma index_map_and_lists_diverge :
  (∃ c1 c2,
     Lru.put 1 "A" (Lru.initialzeList 0 "" 1) = Some c1 ∧
     Lru.put 2 "B" c1 = Some c2 ∧
     Lru.listed_keys c2 = [2] ∧ Lru.mapped_keys c2 = {[1]}) ∧
  (∃ c1 c2,
     Lru.put 5 "A" (Lru.initialzeList 0 "" 0) = Some c1 ∧
     Lru.put 6 "B" c1 = Some c2 ∧
     Lru.capacity_ c2 = 0 ∧ size (Lru.nodeMap_ c2) = 2%nat ∧
     Lru.listed_keys c2 = []) ∧
  (∃ c,
     Lfu.run 0 "" map_to_list
       [Lfu.Put 1 "A"; Lfu.Get 1; Lfu.Get 1; Lfu.Put 2 "B"; Lfu.Put 3 "C"]
       (Lfu.make 1 1 0) = Some c ∧
     Lfu.capacity_ c = 1 ∧ size (Lfu.nodeMap_ c) = 2%nat).
Proof.
  split; [|split].
  - eexists _, _. by_evaluation.
  - eexists _, _. by_evaluation.
  - eexists. by_evaluation.
Qed.

(** C6 fails on the code at capacity 0: the guard of [put] is
    [capacity_ < 0], and the eviction that follows the insertion erases the
    key of the tail sentinel instead of the key just inserted.  After
    [put(5, "A")] the index map holds key 5, and [get(5)] is a hit that
    links the node in again. *)
Lemma capacity_zero_put_is_kept :
  ∃ c1 c2,
    Lru.put 5 "A" (Lru.initialzeList 0 "" 0) = Some c1 ∧
    Lru.mapped_keys c1 = {[5]} ∧
    Lru.mapped_keys (Lru.initialzeList (Value:=string) 0 "" 0) = ∅ ∧
    Lru.get 5 "" c1 = Some (true, "A", c2) ∧
    Lru.listed_keys c1 = [] ∧ Lru.listed_keys c2 = [5].
Proof.
  eexists _, _. by_evaluation.
Qed.

(** * Further properties *)

Section lru_list_facts.
Import Lru LruList.
Context {Key : Type} `{Countable Key} {Value : Type}.
Context (Key0 : Key) (Value0 : Value).
Implicit Types (c : @MyLruCache Key _ _ Value) (key : Key) (value : Value).
Implicit Types (l ps : list nat) (es : list (Key * Value)).
Implicit Types (items : list (nat * (Key * Value))).

(** *** Writes through a pointer *)

Lemma store_is_Some p f c : is_Some (heap c !! p) → is_Some (store p f c).
Proof. unfold store. intros [n ->]. by eexists. Qed.

Lemma store_heap p f c c' x :
  store p f c = Some c' →
  heap c' !! x = if decide (x = p) then f <$> heap c !! p else heap c !! x.
Proof.
  unfold store. intros Hs. apply bind_Some in Hs as (n & Hn & [= <-]). simpl.
  case_decide as Hx.
  - subst x. rewrite Hn. simpl. apply list_lookup_insert_eq. by eapply lookup_lt_Some.
  - by apply list_lookup_insert_ne.
Qed.

Lemma store_set_next p v c c' :
  store p (set_next v) c = Some c' →
  (∀ x, next_of c' x = if decide (x = p) then v else next_of c x) ∧
  (∀ x, prev_of c' x = prev_of c x).
Proof.
  intros Hs. pose proof Hs as Hs'. unfold store in Hs'.
  apply bind_Some in Hs' as (n & Hn & _).
  split; intros x; unfold next_of, prev_of; rewrite (store_heap _ _ _ _ x Hs);
    case_decide; subst; try done; by rewrite Hn.
Qed.

Lemma store_set_prev p v c c' :
  store p (set_prev v) c = Some c' →
  (∀ x, next_of c' x = next_of c x) ∧
  (∀ x, prev_of c' x = if decide (x = p) then v else prev_of c x).
Proof.
  intros Hs. pose proof Hs as Hs'. unfold store in Hs'.
  apply bind_Some in Hs' as (n & Hn & _).
  split; intros x; unfold next_of, prev_of; rewrite (store_heap _ _ _ _ x Hs);
    case_decide; subst; try done; by rewrite Hn.
Qed.

Lemma store_setValue_links p v c c' :
  store p (setValue v) c = Some c' →
  (∀ x, next_of c' x = next_of c x) ∧ (∀ x, prev_of c' x = prev_of c x).
Proof.
  intros Hs. pose proof Hs as Hs'. unfold store in Hs'.
  apply bind_Some in Hs' as (n & Hn & _).
  split; intros x; unfold next_of, prev_of; rewrite (store_heap _ _ _ _ x Hs);
    case_decide; subst; try done; by rewrite Hn.
Qed.

Lemma next_of_valid c p q : next_of c p = Some q → is_Some (heap c !! p).
Proof. unfold next_of. destruct (heap c !! p); [by eexists|done]. Qed.

Lemma prev_of_valid c p q : prev_of c p = Some q → is_Some (heap c !! p).
Proof. unfold prev_of. destruct (heap c !! p); [by eexists|done]. Qed.

Lemma relinked_valid c c' p :
  relinked c c' → is_Some (heap c !! p) → is_Some (heap c' !! p).
Proof.
  intros (_ & _ & _ & _ & Hp) Hv. apply lookup_lt_is_Some in Hv.
  apply lookup_lt_is_Some.
  assert (length (payloads c') = length (payloads c)) as Hl by (by rewrite Hp).
  unfold payloads in Hl. rewrite !length_fmap in Hl. lia.
Qed.

(** *** Chains *)

Lemma chain_cons_inv c p l : chain c (p :: l) → chain c l.
Proof. destruct l as [|q l]; [done|]. by intros (_ & _ & ?). Qed.

Lemma chain_app_l c l1 l2 : chain c (l1 ++ l2) → chain c l1.
Proof.
  induction l1 as [|p l1 IH]; [done|]. destruct l1 as [|q l1]; [done|].
  simpl. intros (? & ? & Hc). split; [done|]. split; [done|]. by apply IH.
Qed.

Lemma chain_app_r c l1 l2 : chain c (l1 ++ l2) → chain c l2.
Proof. induction l1 as [|p l1 IH]; [done|]. intros Hc. apply IH. by eapply chain_cons_inv. Qed.

Lemma chain_join c l1 a l2 : chain c (l1 ++ [a]) → chain c (a :: l2) → chain c (l1 ++ a :: l2).
Proof.
  induction l1 as [|p l1 IH]; [done|]. intros H1 H2.
  destruct l1 as [|q l1]; simpl in *.
  - destruct H1 as (? & ? & _). by repeat split.
  - destruct H1 as (? & ? & H1). split; [done|]. split; [done|]. by apply IH.
Qed.

(** A chain stays one when the [next_] of all its nodes but the last and the
    [prev_] of all its nodes but the first stay the same. *)
Lemma chain_frame c c' l :
  (∀ i x, l !! i = Some x → is_Some (l !! S i) → next_of c' x = next_of c x) →
  (∀ i x, l !! S i = Some x → prev_of c' x = prev_of c x) →
  chain c l → chain c' l.
Proof.
  induction l as [|p l IH]; [done|]. intros Hn Hp Hc.
  destruct l as [|q l]; [done|]. destruct Hc as (Hpq & Hqp & Hc).
  split; [|split].
  - rewrite (Hn 0%nat p); [done|done|by eexists].
  - by rewrite (Hp 0%nat q).
  - apply IH; [| |done].
    + intros i x Hx Hs. by apply (Hn (S i)).
    + intros i x Hx. by apply (Hp (S i)).
Qed.

Lemma chain_valid c l p : chain c l → (2 ≤ length l)%nat → p ∈ l → is_Some (heap c !! p).
Proof.
  induction l as [|a l IH]; [by intros _ _ ?%elem_of_nil|].
  destruct l as [|b l]; [simpl; lia|]. intros (Hab & Hba & Hc) _ Hp.
  apply elem_of_cons in Hp as [->|Hp]; [by eapply next_of_valid|].
  destruct l as [|d l].
  - apply list_elem_of_singleton in Hp as ->. by eapply prev_of_valid.
  - apply IH; [done|simpl; lia|done].
Qed.

Lemma chain_frame_NoDup c c' l :
  NoDup l →
  (∀ x, x ∈ l → Some x ≠ last l → next_of c' x = next_of c x) →
  (∀ x, x ∈ l → Some x ≠ head l → prev_of c' x = prev_of c x) →
  chain c l → chain c' l.
Proof.
  intros Hnd Hn Hp. apply chain_frame.
  - intros i x Hx [y Hy]. apply Hn; [by eapply list_elem_of_lookup_2|].
    rewrite last_lookup. intros Hl. symmetry in Hl.
    pose proof (NoDup_lookup _ _ _ _ Hnd Hx Hl) as Hi.
    apply lookup_lt_Some in Hy. lia.
  - intros i x Hx. apply Hp; [by eapply list_elem_of_lookup_2|].
    rewrite head_lookup. intros Hl. symmetry in Hl.
    by pose proof (NoDup_lookup _ _ _ _ Hnd Hx Hl).
Qed.

(** *** [removeNode] and [insertNode] on a chain *)

Lemma removeNode_chain c l1 a p b l2 :
  NoDup (l1 ++ a :: p :: b :: l2) → chain c (l1 ++ a :: p :: b :: l2) →
  ∃ c', removeNode p c = Some c' ∧ relinked c c' ∧
        (∀ x, next_of c' x = if decide (x = a) then Some b else next_of c x) ∧
        (∀ x, prev_of c' x = if decide (x = b) then Some a else prev_of c x) ∧
        chain c' (l1 ++ a :: b :: l2).
Proof.
  intros Hnd Hc.
  pose proof (chain_app_r _ _ _ Hc) as (Hap & Hpa & Hpb & Hbp & Hb).
  pose proof (chain_app_l c (l1 ++ [a]) (p :: b :: l2)) as Hl1.
  rewrite <- app_assoc in Hl1. specialize (Hl1 Hc).
  apply NoDup_app in Hnd as (Hnd1 & Hdisj & Hnd2).
  apply NoDup_cons in Hnd2 as (Ha & Hnd2). apply NoDup_cons in Hnd2 as (Hp & Hnd2).
  apply NoDup_cons in Hnd2 as (Hbl2 & Hnd2).
  assert (a ≠ p ∧ a ≠ b ∧ p ≠ b) as (Hap' & Hab' & Hpb').
  { pose proof Ha as Ha'. pose proof Hp as Hp'.
    apply not_elem_of_cons in Ha' as [? Ha']. apply not_elem_of_cons in Ha' as [? _].
    by apply not_elem_of_cons in Hp' as [? _]. }
  assert (a ∉ l1) as Hal1.
  { intros Hin. apply (Hdisj a Hin). by left. }
  assert (b ∉ l1) as Hbl1.
  { intros Hin. apply (Hdisj b Hin). right. right. by left. }
  (* run the method *)
  unfold removeNode.
  destruct (heap c !! p) as [n|] eqn:Hn; [|by unfold next_of in Hpb; rewrite Hn in Hpb].
  assert (next_ n = Some b) as Hnx by (by unfold next_of in Hpb; rewrite Hn in Hpb).
  assert (prev_ n = Some a) as Hpv by (by unfold prev_of in Hpa; rewrite Hn in Hpa).
  simpl. rewrite Hnx. simpl.
  destruct (store_is_Some b (set_prev (prev_ n)) c) as [c1 H1];
    [by apply (prev_of_valid c b p)|].
  rewrite H1. simpl.
  rewrite (store_heap _ _ _ _ p H1), decide_False, Hn by done. simpl.
  rewrite Hpv. simpl.
  destruct (store_set_prev _ _ _ _ H1) as [N1 P1].
  destruct (store_is_Some a (set_next (next_ n)) c1) as [c2 H2].
  { apply (relinked_valid c);
      [eapply store_relinked; [|exact H1]; done|by apply (next_of_valid c a p)]. }
  destruct (store_set_next _ _ _ _ H2) as [N2 P2].
  exists c2. split; [done|].
  assert (∀ x, next_of c2 x = if decide (x = a) then Some b else next_of c x) as HN.
  { intros x. rewrite N2, Hnx. case_decide; [done|apply N1]. }
  assert (∀ x, prev_of c2 x = if decide (x = b) then Some a else prev_of c x) as HP.
  { intros x. rewrite P2, P1, Hpv. done. }
  split.
  { eapply relinked_trans;
      [eapply store_relinked; [|exact H1]; done
      |eapply store_relinked; [|exact H2]; done]. }
  split; [done|]. split; [done|].
  apply chain_join.
  - apply (chain_frame_NoDup c); [| | |done].
    + apply NoDup_app. split; [done|]. split; [|apply NoDup_singleton].
      intros x Hx ->%list_elem_of_singleton. done.
    + intros x Hx Hlast. rewrite HN, decide_False; [done|].
      intros ->. apply Hlast. by rewrite last_snoc.
    + intros x Hx _. rewrite HP, decide_False; [done|].
      intros ->. apply elem_of_app in Hx as [?|?%list_elem_of_singleton]; done.
  - split; [by rewrite HN, decide_True|]. split; [by rewrite HP, decide_True|].
    apply (chain_frame_NoDup c); [by apply NoDup_cons| | |done].
    + intros x Hx _. rewrite HN, decide_False; [done|].
      intros ->. apply Ha. right. done.
    + intros x Hx Hhd. rewrite HP, decide_False; [done|].
      intros ->. by apply Hhd.
Qed.

Lemma insertNode_chain c l0 z node :
  NoDup (l0 ++ [z; dummyTail_ c]) → chain c (l0 ++ [z; dummyTail_ c]) →
  node ∉ l0 ++ [z; dummyTail_ c] → is_Some (heap c !! node) →
  ∃ c', insertNode node c = Some c' ∧ relinked c c' ∧
        chain c' (l0 ++ [z; node; dummyTail_ c]).
Proof.
  intros Hnd Hc Hnode Hvalid. set (t := dummyTail_ c) in *.
  pose proof (chain_app_r _ _ _ Hc) as (Hzt & Htz & _).
  pose proof (chain_app_l c (l0 ++ [z]) [t]) as Hl0.
  rewrite <- app_assoc in Hl0. specialize (Hl0 Hc).
  apply NoDup_app in Hnd as (Hnd0 & Hdisj & Hnd2).
  apply NoDup_cons in Hnd2 as (Hz & _). apply not_elem_of_cons in Hz as [Hzt' _].
  apply not_elem_of_app in Hnode as [Hnl0 Hn2].
  apply not_elem_of_cons in Hn2 as [Hnz Hn2]. apply not_elem_of_cons in Hn2 as [Hnt _].
  assert (z ∉ l0) as Hzl0.
  { intros Hin. apply (Hdisj z Hin). by left. }
  assert (t ∉ l0) as Htl0.
  { intros Hin. apply (Hdisj t Hin). right. by left. }
  unfold insertNode. fold t.
  destruct (store_is_Some node (set_next (Some t)) c Hvalid) as [c1 H1].
  rewrite H1. simpl.
  destruct (store_set_next _ _ _ _ H1) as [N1 P1].
  assert (relinked c c1) as R1 by (eapply store_relinked; [|exact H1]; done).
  assert (dummyTail_ c1 = t) as -> by (destruct R1 as (_ & _ & _ & E & _); exact E).
  assert (prev_of c1 t = Some z) as Ht1 by (by rewrite P1).
  unfold prev_of in Ht1. apply bind_Some in Ht1 as (t1 & Ht1 & Hpt1).
  rewrite Ht1. simpl.
  destruct (store_is_Some node (set_prev (prev_ t1)) c1) as [c2 H2];
    [by apply (relinked_valid c)|].
  rewrite H2. simpl.
  destruct (store_set_prev _ _ _ _ H2) as [N2 P2].
  assert (relinked c1 c2) as R2 by (eapply store_relinked; [|exact H2]; done).
  assert (dummyTail_ c2 = t) as ->.
  { destruct R1 as (_ & _ & _ & E1 & _), R2 as (_ & _ & _ & E2 & _).
    unfold t. congruence. }
  assert (prev_of c2 t = Some z) as Ht2.
  { rewrite P2, decide_False by done. unfold prev_of. by rewrite Ht1. }
  unfold prev_of in Ht2. apply bind_Some in Ht2 as (t2 & Ht2 & Hpt2).
  rewrite Ht2. simpl. rewrite Hpt2. simpl.
  destruct (store_is_Some z (set_next (Some node)) c2) as [c3 H3].
  { apply (relinked_valid c1); [done|]. apply (relinked_valid c); [done|].
    by apply (next_of_valid c z t). }
  rewrite H3. simpl.
  destruct (store_set_next _ _ _ _ H3) as [N3 P3].
  assert (relinked c2 c3) as R3 by (eapply store_relinked; [|exact H3]; done).
  assert (dummyTail_ c3 = t) as ->.
  { destruct R1 as (_ & _ & _ & E1 & _), R2 as (_ & _ & _ & E2 & _),
      R3 as (_ & _ & _ & E3 & _). unfold t. congruence. }
  destruct (store_is_Some t (set_prev (Some node)) c3) as [c4 H4].
  { apply (relinked_valid c2); [done|]. by eexists. }
  destruct (store_set_prev _ _ _ _ H4) as [N4 P4].
  assert (relinked c3 c4) as R4 by (eapply store_relinked; [|exact H4]; done).
  exists c4. split; [done|]. split; [eauto using relinked_trans|].
  assert (∀ x, x ≠ node → x ≠ z → next_of c4 x = next_of c x) as HN.
  { intros x ? ?. rewrite N4, N3, decide_False, N2, N1, decide_False; done. }
  assert (∀ x, x ≠ node → x ≠ t → prev_of c4 x = prev_of c x) as HP.
  { intros x ? ?. rewrite P4, decide_False, P3, P2, decide_False, P1; done. }
  replace (l0 ++ [z; node; t]) with (l0 ++ z :: [node; t]) by done.
  apply chain_join.
  - apply (chain_frame_NoDup c); [| | |done].
    + apply NoDup_app. split; [done|]. split; [|apply NoDup_singleton].
      intros x Hx ->%list_elem_of_singleton. done.
    + intros x Hx Hlast. apply HN.
      * intros ->. apply elem_of_app in Hx as [?|?%list_elem_of_singleton]; done.
      * intros ->. apply Hlast. by rewrite last_snoc.
    + intros x Hx _. apply HP.
      * intros ->. apply elem_of_app in Hx as [?|?%list_elem_of_singleton]; done.
      * intros ->. apply elem_of_app in Hx as [?|?%list_elem_of_singleton]; done.
  - split; [by rewrite N4, N3, decide_True|]. split.
    { rewrite P4, decide_False, P3, P2, decide_True, Hpt1; done. }
    split; [|split; [|done]].
    + rewrite N4, N3, decide_False, N2, N1, decide_True; done.
    + by rewrite P4, decide_True.
Qed.

(** *** The list between the sentinels *)

Lemma path_split (hd tl : nat) ps1 p ps2 :
  ∃ l1 a b l2,
    hd :: (ps1 ++ p :: ps2) ++ [tl] = l1 ++ a :: p :: b :: l2 ∧
    hd :: (ps1 ++ ps2) ++ [tl] = l1 ++ a :: b :: l2.
Proof.
  destruct ps1 as [|x ps1 _] using rev_ind; destruct ps2 as [|y ps2].
  - by exists [], hd, tl, [].
  - by exists [], hd, y, (ps2 ++ [tl]).
  - exists (hd :: ps1), x, tl, []. simpl. by rewrite <- !app_assoc.
  - exists (hd :: ps1), x, y, (ps2 ++ [tl]). simpl. by rewrite <- !app_assoc.
Qed.

Lemma path_last (hd tl : nat) ps :
  ∃ l0 z, hd :: ps ++ [tl] = l0 ++ [z; tl] ∧ ∀ node, hd :: (ps ++ [node]) ++ [tl] = l0 ++ [z; node; tl].
Proof.
  destruct ps as [|x ps _] using rev_ind.
  - by exists [], hd.
  - exists (hd :: ps), x. split; [by simpl; rewrite <- !app_assoc|].
    intros node. simpl. by rewrite <- !app_assoc.
Qed.

Lemma linked_list_valid c ps p :
  linked_list c ps → p ∈ dummyHead_ c :: ps ++ [dummyTail_ c] → is_Some (heap c !! p).
Proof.
  intros [_ Hc] Hp. eapply chain_valid; [exact Hc| |exact Hp].
  simpl. rewrite length_app. simpl. lia.
Qed.

Lemma linked_list_removeNode c ps1 p ps2 :
  linked_list c (ps1 ++ p :: ps2) →
  ∃ c', removeNode p c = Some c' ∧ relinked c c' ∧ linked_list c' (ps1 ++ ps2).
Proof.
  intros [Hnd Hc].
  destruct (path_split (dummyHead_ c) (dummyTail_ c) ps1 p ps2) as (l1 & a & b & l2 & E1 & E2).
  rewrite E1 in Hnd, Hc.
  destruct (removeNode_chain c l1 a p b l2 Hnd Hc) as (c' & Hr & Hrel & _ & _ & Hc').
  exists c'. split; [done|]. split; [done|].
  unfold linked_list. destruct Hrel as (_ & _ & -> & -> & _). rewrite E2. split; [|done].
  eapply sublist_NoDup; [exact Hnd|].
  apply sublist_app; [done|]. apply sublist_skip. by apply sublist_cons.
Qed.

Lemma linked_list_insertNode c ps node :
  linked_list c ps → node ∉ dummyHead_ c :: ps ++ [dummyTail_ c] →
  is_Some (heap c !! node) →
  ∃ c', insertNode node c = Some c' ∧ relinked c c' ∧ linked_list c' (ps ++ [node]).
Proof.
  intros [Hnd Hc] Hnode Hvalid.
  destruct (path_last (dummyHead_ c) (dummyTail_ c) ps) as (l0 & z & E1 & E2).
  rewrite E1 in Hnd, Hc, Hnode.
  destruct (insertNode_chain c l0 z node Hnd Hc Hnode Hvalid) as (c' & Hi & Hrel & Hc').
  exists c'. split; [done|]. split; [done|].
  unfold linked_list. destruct Hrel as (_ & _ & -> & -> & _). rewrite E2. split; [|done].
  replace (l0 ++ [z; node; dummyTail_ c]) with ((l0 ++ [z]) ++ node :: [dummyTail_ c])
    by (by rewrite <- app_assoc).
  replace (l0 ++ [z; dummyTail_ c]) with ((l0 ++ [z]) ++ [dummyTail_ c]) in Hnd, Hnode
    by (by rewrite <- app_assoc).
  rewrite <- Permutation_middle. apply NoDup_cons. done.
Qed.

Lemma linked_list_moveToMostRecent c ps1 p ps2 :
  linked_list c (ps1 ++ p :: ps2) →
  ∃ c', moveToMostRecent p c = Some c' ∧ relinked c c' ∧
        linked_list c' (ps1 ++ ps2 ++ [p]).
Proof.
  intros Hll. pose proof Hll as [Hnd _].
  destruct (linked_list_removeNode c ps1 p ps2 Hll) as (c1 & Hr & Hrel1 & Hll1).
  destruct (linked_list_insertNode c1 (ps1 ++ ps2) p Hll1) as (c2 & Hi & Hrel2 & Hll2).
  - destruct Hrel1 as (_ & _ & -> & -> & _).
    assert (dummyHead_ c :: (ps1 ++ p :: ps2) ++ [dummyTail_ c]
            ≡ₚ p :: dummyHead_ c :: (ps1 ++ ps2) ++ [dummyTail_ c]) as Hperm.
    { rewrite <- !app_assoc. simpl. rewrite <- Permutation_middle. apply perm_swap. }
    rewrite Hperm in Hnd. by apply NoDup_cons in Hnd as [? _].
  - apply (relinked_valid c); [done|]. apply (linked_list_valid c _ p Hll).
    right. apply elem_of_app. left. apply elem_of_app. right. by left.
  - exists c2. unfold moveToMostRecent. rewrite Hr. simpl. split; [done|].
    split; [by eapply relinked_trans|]. by rewrite <- app_assoc in Hll2.
Qed.

Lemma linked_list_links c c' ps :
  (∀ x, is_Some (heap c !! x) → next_of c' x = next_of c x) →
  (∀ x, is_Some (heap c !! x) → prev_of c' x = prev_of c x) →
  dummyHead_ c' = dummyHead_ c → dummyTail_ c' = dummyTail_ c →
  linked_list c ps → linked_list c' ps.
Proof.
  intros Hn Hp Hh Ht Hll. pose proof Hll as [Hnd Hc].
  unfold linked_list. rewrite Hh, Ht. split; [done|].
  eapply chain_frame; [| |exact Hc].
  - intros i x Hx _. apply Hn. apply (linked_list_valid c ps x Hll).
    by eapply list_elem_of_lookup_2.
  - intros i x Hx. apply Hp. apply (linked_list_valid c ps x Hll).
    by eapply list_elem_of_lookup_2.
Qed.

(** *** The entries of a cache *)

Lemma index_keys items : (index_entry <$> items).*1 = items.*2.*1.
Proof. induction items as [|it items IH]; [done|]. csimpl. by f_equal. Qed.

Lemma represents_lookup c items p e :
  represents c items → (p, e) ∈ items →
  nodeMap_ c !! e.1 = Some p ∧ payloads c !! p = Some e.
Proof.
  intros (_ & Hnd & Hpl & ->) Hin. split.
  - apply elem_of_list_to_map; [by rewrite index_keys|].
    apply list_elem_of_fmap. by exists (p, e).
  - rewrite Forall_forall in Hpl. by apply (Hpl (p, e)).
Qed.

Lemma represents_lookup_None c items key :
  represents c items → key ∉ items.*2.*1 → nodeMap_ c !! key = None.
Proof.
  intros (_ & _ & _ & ->) Hk. apply not_elem_of_list_to_map_1. by rewrite index_keys.
Qed.

Lemma payloads_lookup c p e :
  payloads c !! p = Some e → ∃ n, heap c !! p = Some n ∧ key_ n = e.1 ∧ value_ n = e.2.
Proof.
  unfold payloads. rewrite list_lookup_fmap. destruct (heap c !! p) as [n|]; [|done].
  intros [= <-]. by exists n.
Qed.

Lemma represents_move c c' it1 it it2 :
  represents c (it1 ++ it :: it2) → relinked c c' →
  linked_list c' (it1 ++ it2 ++ [it]).*1 →
  represents c' (it1 ++ it2 ++ [it]).
Proof.
  intros (_ & Hnd & Hpl & Hm) (_ & Hm' & _ & _ & Hp') Hll.
  assert (it1 ++ it :: it2 ≡ₚ it1 ++ it2 ++ [it]) as Hperm.
  { rewrite <- Permutation_middle, (Permutation_app_comm it2 [it]). simpl.
    by rewrite <- Permutation_middle. }
  split; [done|]. split; [by rewrite <- Hperm|]. split.
  - rewrite Hp', <- Hperm. done.
  - rewrite Hm', Hm. apply list_to_map_proper; [by rewrite index_keys|by rewrite Hperm].
Qed.

(** *** A hit *)

Lemma get_represents c it1 p key v it2 value :
  represents c (it1 ++ (p, (key, v)) :: it2) →
  ∃ c', get key value c = Some (true, v, c') ∧
        represents c' (it1 ++ it2 ++ [(p, (key, v))]).
Proof.
  intros Hr. pose proof Hr as (Hll & _).
  destruct (represents_lookup c _ p (key, v) Hr) as [Hk Hp].
  { apply elem_of_app. right. by left. }
  rewrite fmap_app in Hll. simpl in Hll.
  destruct (linked_list_moveToMostRecent c _ p _ Hll) as (c' & Hm & Hrel & Hll').
  exists c'. unfold get. simpl in Hk. rewrite Hk, Hm. simpl.
  assert (payloads c' !! p = Some (key, v)) as Hp'.
  { destruct Hrel as (_ & _ & _ & _ & ->). done. }
  apply payloads_lookup in Hp' as (n & -> & _ & Hv). simpl in *. subst v.
  split; [done|]. eapply represents_move; [exact Hr|done|].
  by rewrite !fmap_app.
Qed.


(** *** A new cache *)

Lemma represents_initialzeList capacity :
  represents (initialzeList Key0 Value0 capacity) [].
Proof.
  split; [|split; [constructor|split; [constructor|done]]].
  split; simpl.
  - apply NoDup_cons. split; [|apply NoDup_singleton].
    rewrite list_elem_of_singleton. done.
  - done.
Qed.

(** *** An update *)

Lemma represents_nodes_NoDup c items : represents c items → NoDup items.*1.
Proof.
  intros ((Hnd & _) & _). apply NoDup_cons in Hnd as [_ Hnd].
  by apply NoDup_app in Hnd as (Hnd & _ & _).
Qed.

Lemma store_setValue_represents c it1 p key v it2 value :
  represents c (it1 ++ (p, (key, v)) :: it2) →
  ∃ c', store p (setValue value) c = Some c' ∧ capacity_ c' = capacity_ c ∧
        represents c' (it1 ++ (p, (key, value)) :: it2).
Proof.
  intros Hr. pose proof (represents_nodes_NoDup _ _ Hr) as Hnodes.
  destruct Hr as (Hll & Hnd & Hpl & Hm).
  rewrite Forall_app, Forall_cons in Hpl. destruct Hpl as (Hpl1 & Hp & Hpl2).
  simpl in Hp. pose proof Hp as Hp0.
  apply payloads_lookup in Hp as (n & Hn & Hk & Hv). simpl in Hk, Hv.
  unfold store. rewrite Hn. simpl. eexists. split; [done|]. split; [done|].
  rewrite fmap_app, fmap_cons in Hnodes. simpl in Hnodes.
  apply NoDup_app in Hnodes as (_ & Hn1 & Hn2). apply NoDup_cons in Hn2 as [Hn2 _].
  assert (∀ it, it ∈ it1 ∨ it ∈ it2 → it.1 ≠ p) as Hne.
  { intros it [Hin|Hin] <-.
    - apply (Hn1 it.1); [by apply list_elem_of_fmap_2|by left].
    - apply Hn2. by apply list_elem_of_fmap_2. }
  assert (∀ q, q ≠ p →
    payloads (set_heap (<[p:=setValue value n]> (heap c)) c) !! q = payloads c !! q) as Hq.
  { intros q Hqp. unfold payloads. simpl. rewrite !list_lookup_fmap.
    by rewrite list_lookup_insert_ne. }
  split; [|split; [|split]].
  - rewrite !fmap_app, !fmap_cons in *. simpl in *.
    eapply (linked_list_links c); [..|exact Hll]; try done.
    + intros x _. unfold next_of. simpl.
      destruct (decide (x = p)) as [->|].
      * rewrite list_lookup_insert_eq by by eapply lookup_lt_Some. by rewrite Hn.
      * by rewrite list_lookup_insert_ne.
    + intros x _. unfold prev_of. simpl.
      destruct (decide (x = p)) as [->|].
      * rewrite list_lookup_insert_eq by by eapply lookup_lt_Some. by rewrite Hn.
      * by rewrite list_lookup_insert_ne.
  - by rewrite !fmap_app, !fmap_cons in *.
  - rewrite Forall_app, Forall_cons. split; [|split].
    + rewrite Forall_forall in *. intros it Hin. rewrite Hq; [by apply Hpl1|].
      apply Hne. by left.
    + simpl. unfold payloads. simpl. rewrite list_lookup_fmap.
      rewrite list_lookup_insert_eq by by eapply lookup_lt_Some.
      simpl. unfold payload. simpl. by rewrite Hk.
    + rewrite Forall_forall in *. intros it Hin. rewrite Hq; [by apply Hpl2|].
      apply Hne. by right.
  - simpl. rewrite Hm. by rewrite !fmap_app, !fmap_cons.
Qed.

Lemma put_existing_represents c it1 p key v it2 value :
  0 ≤ capacity_ c →
  represents c (it1 ++ (p, (key, v)) :: it2) →
  ∃ c', put key value c = Some c' ∧ capacity_ c' = capacity_ c ∧
        represents c' (it1 ++ it2 ++ [(p, (key, value))]).
Proof.
  intros Hcap Hr.
  destruct (represents_lookup c _ p (key, v) Hr) as [Hk _].
  { apply elem_of_app. right. by left. }
  destruct (store_setValue_represents c it1 p key v it2 value Hr) as (c1 & Hs & Hc1 & Hr1).
  pose proof Hr1 as (Hll & _).
  rewrite fmap_app in Hll. simpl in Hll.
  destruct (linked_list_moveToMostRecent c1 _ p _ Hll) as (c' & Hmv & Hrel & Hll').
  exists c'. unfold put. rewrite decide_False by lia. simpl in Hk. rewrite Hk.
  unfold updateExistNode. rewrite Hs. simpl. split; [done|]. split.
  - destruct Hrel as (-> & _). done.
  - eapply represents_move; [exact Hr1|done|]. by rewrite !fmap_app.
Qed.


(** *** What an observer reads off a represented state *)

Lemma represents_size c items : represents c items → size (nodeMap_ c) = length items.
Proof.
  intros (_ & Hnd & _ & ->). rewrite map_size_list_to_map by by rewrite index_keys.
  by rewrite length_fmap.
Qed.

Lemma represents_cached c items x :
  represents c items → cached x c = (list_to_map items.*2 : gmap Key Value) !! x.
Proof.
  intros Hr. pose proof Hr as (_ & Hnd & _ & _). rewrite cached_payloads.
  destruct (decide (x ∈ items.*2.*1)) as [Hin|Hnin].
  - apply list_elem_of_fmap in Hin as (e & -> & Hin).
    apply list_elem_of_fmap in Hin as ([p e'] & -> & Hin). simpl.
    destruct (represents_lookup c items p e' Hr Hin) as [Hn Hp].
    rewrite Hn. simpl. rewrite Hp. simpl.
    symmetry. apply elem_of_list_to_map_1; [done|].
    apply list_elem_of_fmap. exists (p, e'). split; [by destruct e'|done].
  - rewrite (represents_lookup_None c items x Hr Hnin). simpl.
    symmetry. by apply not_elem_of_list_to_map_1.
Qed.

Lemma walk_tail c fuel : walk fuel (dummyTail_ c) c = [].
Proof. destruct fuel; [done|]. simpl. by rewrite decide_True. Qed.

Lemma walk_path c l : ∀ fuel q,
  (length l ≤ fuel)%nat → NoDup (l ++ [dummyTail_ c]) → chain c (l ++ [dummyTail_ c]) →
  head (l ++ [dummyTail_ c]) = Some q → walk fuel q c = l.
Proof.
  induction l as [|p l IH]; intros fuel q Hlen Hnd Hch Hq; simpl in *.
  - injection Hq as <-. apply walk_tail.
  - injection Hq as <-. destruct fuel as [|fuel]; [lia|]. simpl.
    apply NoDup_cons in Hnd as [Hp Hnd].
    rewrite decide_False.
    2:{ intros ->. apply Hp. apply elem_of_app. right. by left. }
    destruct (l ++ [dummyTail_ c]) as [|q l'] eqn:El.
    { by destruct l. }
    destruct Hch as (Hnx & _ & Hch). unfold next_of in Hnx.
    destruct (heap c !! p) as [n|]; [|done]. simpl in Hnx. rewrite Hnx.
    f_equal. apply IH; [lia|done|done|done].
Qed.

Lemma valid_nodes_length (h : list (@MyLruNode Key Value)) l :
  NoDup l → (∀ p, p ∈ l → is_Some (h !! p)) → (length l ≤ length h)%nat.
Proof.
  intros Hnd Hv. transitivity (length (seq 0 (length h))); [|by rewrite length_seq].
  apply submseteq_length, NoDup_submseteq; [done|].
  intros p Hp. apply elem_of_seq. apply Hv, lookup_lt_is_Some in Hp. lia.
Qed.

Lemma linked_list_walk c ps :
  linked_list c ps →
  ∃ hd q, heap c !! dummyHead_ c = Some hd ∧ next_ hd = Some q ∧
          walk (length (heap c)) q c = ps.
Proof.
  intros Hll. pose proof Hll as [Hnd Hch].
  apply NoDup_cons in Hnd as [_ Hnd].
  destruct (ps ++ [dummyTail_ c]) as [|q l'] eqn:El.
  { by destruct ps. }
  destruct Hch as (Hnx & _ & Hch). unfold next_of in Hnx.
  destruct (heap c !! dummyHead_ c) as [hd|]; [|done]. simpl in Hnx.
  exists hd, q. split; [done|]. split; [done|].
  rewrite <- El in *. apply walk_path; [|done|done|by rewrite El].
  apply valid_nodes_length; [by apply NoDup_app in Hnd as (? & _)|].
  intros p Hp. apply (linked_list_valid c ps); [done|].
  right. apply elem_of_app. by left.
Qed.

Lemma linked_list_listed_keys c items :
  linked_list c items.*1 → Forall (λ it, payloads c !! it.1 = Some it.2) items →
  listed_keys c = items.*2.*1.
Proof.
  intros Hll Hpl.
  destruct (linked_list_walk c _ Hll) as (hd & q & Hhd & Hq & Hw).
  unfold listed_keys. rewrite Hhd, Hq, Hw. clear Hw Hll.
  induction Hpl as [|[p e] items Hp _ IH]; [done|]. csimpl in *.
  apply payloads_lookup in Hp as (n & Hn & <- & _). rewrite Hn. csimpl. by rewrite IH.
Qed.

Lemma represents_listed_keys c items : represents c items → listed_keys c = items.*2.*1.
Proof. intros (Hll & _ & Hpl & _). by apply linked_list_listed_keys. Qed.

(** *** An insertion *)

Lemma set_nodeMap_linked_list m c ps : linked_list c ps → linked_list (set_nodeMap m c) ps.
Proof. intros Hll. by eapply (linked_list_links c); [..|exact Hll]. Qed.

Lemma addNode_inserted c items key value :
  represents c items → key ∉ items.*2.*1 →
  let node := length (heap c) in
  ∃ c2, insertNode node (set_heap (heap c ++ [new_node key value]) c) = Some c2 ∧
        capacity_ c2 = capacity_ c ∧
        represents (set_nodeMap (<[key := node]> (nodeMap_ c2)) c2)
                   (items ++ [(node, (key, value))]).
Proof.
  intros Hr Hk node. pose proof Hr as (Hll & Hnd & Hpl & Hm).
  set (c1 := set_heap (heap c ++ [new_node key value]) c).
  assert (∀ x, is_Some (heap c !! x) → heap c1 !! x = heap c !! x) as Hold.
  { intros x [n Hx]. simpl. by rewrite (lookup_app_l_Some _ _ _ _ Hx). }
  assert (linked_list c1 items.*1) as Hll1.
  { eapply (linked_list_links c); [..|exact Hll]; try done.
    - intros x Hx. unfold next_of. by rewrite Hold.
    - intros x Hx. unfold prev_of. by rewrite Hold. }
  assert (node ∉ dummyHead_ c1 :: items.*1 ++ [dummyTail_ c1]) as Hfresh.
  { intros Hin. apply (linked_list_valid c _ _ Hll), lookup_lt_is_Some in Hin.
    unfold node in Hin. lia. }
  assert (is_Some (heap c1 !! node)) as Hv.
  { apply lookup_lt_is_Some. simpl. rewrite length_app. simpl. unfold node. lia. }
  destruct (linked_list_insertNode c1 _ node Hll1 Hfresh Hv) as (c2 & Hins & Hrel & Hll2).
  exists c2. split; [done|]. destruct Hrel as (Hcap & Hm2 & _ & _ & Hp2).
  split; [done|].
  assert (payloads c2 = payloads c ++ [(key, value)]) as Hp.
  { rewrite Hp2. unfold payloads. simpl. by rewrite fmap_app. }
  split; [|split; [|split]].
  - apply set_nodeMap_linked_list. by rewrite fmap_app.
  - rewrite !fmap_app. simpl. apply NoDup_app. split; [done|]. split.
    + intros x Hx Hx'. apply list_elem_of_singleton in Hx'. by subst x.
    + apply NoDup_singleton.
  - rewrite Forall_app. split.
    + rewrite Forall_forall in *. intros it Hin. simpl.
      change (payloads c2 !! it.1 = Some it.2). rewrite Hp.
      specialize (Hpl it Hin). simpl in Hpl. by apply lookup_app_l_Some.
    + apply Forall_singleton. simpl. change (payloads c2 !! node = Some (key, value)).
      rewrite Hp. unfold node, payloads. rewrite <- (length_fmap payload (heap c)).
      by rewrite list_lookup_middle.
  - simpl. rewrite Hm2. simpl. rewrite Hm, fmap_app. simpl.
    change (index_entry (node, (key, value))) with (key, node).
    rewrite list_to_map_snoc; [done|]. by rewrite index_keys.
Qed.

(** With room left, the new entry goes to the most recent end. *)
Lemma put_new_represents c items key value :
  0 ≤ capacity_ c → key ∉ items.*2.*1 →
  Z.of_nat (length items) < to_size_t (capacity_ c) →
  represents c items →
  ∃ c', put key value c = Some c' ∧ capacity_ c' = capacity_ c ∧
        represents c' (items ++ [(length (heap c), (key, value))]).
Proof.
  intros Hcap Hk Hroom Hr.
  destruct (addNode_inserted c items key value Hr Hk) as (c2 & Hins & Hc2 & Hr3).
  unfold put. rewrite decide_False by lia.
  rewrite (represents_lookup_None c items key Hr Hk).
  unfold addNode, make_shared. rewrite Hins. simpl.
  rewrite decide_False.
  - eexists. split; [done|]. split; [done|]. exact Hr3.
  - pose proof (represents_size _ _ Hr3) as Hsz. simpl in Hsz. rewrite Hsz, Hc2.
    rewrite length_app. simpl. lia.
Qed.


(** *** An eviction *)

Lemma evictLeastRecent_represents c p e q e2 items :
  represents c ((p, e) :: (q, e2) :: items) →
  ∃ c1, evictLeastRecent c = Some (set_nodeMap (delete e2.1 (nodeMap_ c)) c1) ∧
        relinked c c1 ∧ linked_list c1 (q :: items.*1).
Proof.
  intros (Hll & _ & Hpl & _). csimpl in Hll.
  pose proof Hll as [_ Hch]. simpl in Hch. destruct Hch as (Hnx & _).
  destruct (linked_list_removeNode c [] p (q :: items.*1) Hll) as (c1 & Hrm & Hrel & Hll1).
  simpl in Hll1. exists c1. split; [|done].
  unfold evictLeastRecent. unfold next_of in Hnx.
  destruct (heap c !! dummyHead_ c) as [hd|]; [|done]. simpl in *.
  rewrite Hnx. simpl. rewrite Hrm. simpl.
  pose proof Hll1 as [_ Hch1]. simpl in Hch1. destruct Hch1 as (Hnx1 & _).
  unfold next_of in Hnx1.
  destruct (heap c1 !! dummyHead_ c1) as [hd1|]; [|done]. simpl in *.
  rewrite Hnx1. simpl.
  apply Forall_cons in Hpl as [_ Hpl]. apply Forall_cons in Hpl as [Hq _]. simpl in Hq.
  destruct Hrel as (_ & Hm & _ & _ & Hp). rewrite <- Hp in Hq.
  apply payloads_lookup in Hq as (n & Hn & Hk & _). rewrite Hn. simpl.
  by rewrite Hk, Hm.
Qed.

(** Without room left, the node of the least recent entry is unlinked and
    the key of the entry after it is erased; [c3] is the state in which
    [addNode] decides to evict. *)
Lemma put_full_represents c p e items key value :
  0 ≤ capacity_ c → key ∉ ((p, e) :: items).*2.*1 →
  to_size_t (capacity_ c) ≤ Z.of_nat (length ((p, e) :: items)) →
  represents c ((p, e) :: items) →
  let node := length (heap c) in
  ∃ c3 c' k2, put key value c = Some c' ∧ head (items.*2.*1 ++ [key]) = Some k2 ∧
    represents c3 ((p, e) :: items ++ [(node, (key, value))]) ∧
    capacity_ c' = capacity_ c ∧
    linked_list c' (items.*1 ++ [node]) ∧
    payloads c' = payloads c3 ∧
    nodeMap_ c' = delete k2 (nodeMap_ c3).
Proof.
  intros Hcap Hk Hfull Hr node.
  destruct (addNode_inserted c _ key value Hr Hk) as (c2 & Hins & Hc2 & Hr3).
  fold node in Hins, Hr3.
  unfold put. rewrite decide_False by lia.
  rewrite (represents_lookup_None c _ key Hr Hk).
  unfold addNode, make_shared. fold node. rewrite Hins. simpl.
  rewrite decide_True.
  2:{ pose proof (represents_size _ _ Hr3) as Hsz. simpl in Hsz. rewrite Hsz, Hc2.
      rewrite length_app. simpl in *. lia. }
  change (((p, e) :: items) ++ [(node, (key, value))])
    with ((p, e) :: items ++ [(node, (key, value))]) in Hr3.
  set (c3 := set_nodeMap (<[key:=node]> (nodeMap_ c2)) c2) in *.
  destruct (items ++ [(node, (key, value))]) as [|[q e2] items'] eqn:El.
  { by destruct items. }
  assert (head (items.*2.*1 ++ [key]) = Some e2.1 ∧ items.*1 ++ [node] = q :: items'.*1)
    as [Hhd Hnodes].
  { destruct items as [|it items]; simpl in *.
    - injection El as <- <- <-. done.
    - injection El as -> <-. by rewrite fmap_app. }
  destruct (evictLeastRecent_represents _ p e q e2 items' Hr3) as (c1 & -> & Hrel & Hll1).
  exists c3, (set_nodeMap (delete e2.1 (nodeMap_ c3)) c1), e2.1.
  split; [done|]. split; [done|]. split; [done|].
  destruct Hrel as (Hc1 & _ & _ & _ & Hp1). simpl in *.
  split; [congruence|]. split; [|done].
  rewrite Hnodes. by apply set_nodeMap_linked_list.
Qed.

(** *** The entries a cache holds *)

Lemma holds_split c es1 key v es2 :
  holds c (es1 ++ (key, v) :: es2) →
  ∃ it1 p it2, it1.*2 = es1 ∧ it2.*2 = es2 ∧ represents c (it1 ++ (p, (key, v)) :: it2).
Proof.
  intros (items & Hes & Hr).
  apply fmap_app_inv in Hes as (it1 & it' & -> & Hes & ->).
  symmetry in Hes. apply fmap_cons_inv in Hes as ([p e] & it2 & He & -> & ->).
  simpl in He. subst e. by exists it1, p, it2.
Qed.

Lemma holds_NoDup c es : holds c es → NoDup es.*1.
Proof. by intros (items & <- & _ & Hnd & _). Qed.

Lemma holds_initialzeList capacity : holds (initialzeList Key0 Value0 capacity) [].
Proof. exists []. split; [done|]. apply represents_initialzeList. Qed.

Lemma holds_listed_keys c es : holds c es → listed_keys c = es.*1.
Proof. intros (items & <- & Hr). by apply represents_listed_keys. Qed.

Lemma holds_cached c es x : holds c es → cached x c = lookup_entry x es.
Proof. intros (items & <- & Hr). by apply represents_cached. Qed.

Lemma holds_size c es : holds c es → size (nodeMap_ c) = length es.
Proof. intros (items & <- & Hr). rewrite length_fmap. by apply represents_size. Qed.

Lemma get_holds c es1 key v es2 value :
  holds c (es1 ++ (key, v) :: es2) →
  ∃ c', get key value c = Some (true, v, c') ∧ capacity_ c' = capacity_ c ∧
        holds c' (es1 ++ es2 ++ [(key, v)]).
Proof.
  intros Hh. destruct (holds_split _ _ _ _ _ Hh) as (it1 & p & it2 & <- & <- & Hr).
  destruct (get_represents c it1 p key v it2 value Hr) as (c' & Hg & Hr').
  exists c'. split; [done|]. split.
  - by apply get_Some in Hg as ((-> & _) & _).
  - exists (it1 ++ it2 ++ [(p, (key, v))]). split; [|done]. by rewrite !fmap_app.
Qed.

Lemma put_existing_holds c es1 key v es2 value :
  0 ≤ capacity_ c → holds c (es1 ++ (key, v) :: es2) →
  ∃ c', put key value c = Some c' ∧ capacity_ c' = capacity_ c ∧
        holds c' (es1 ++ es2 ++ [(key, value)]).
Proof.
  intros Hcap Hh. destruct (holds_split _ _ _ _ _ Hh) as (it1 & p & it2 & <- & <- & Hr).
  destruct (put_existing_represents c it1 p key v it2 value Hcap Hr) as (c' & Hp & Hc & Hr').
  exists c'. split; [done|]. split; [done|].
  exists (it1 ++ it2 ++ [(p, (key, value))]). split; [|done]. by rewrite !fmap_app.
Qed.

Lemma put_new_holds c es key value :
  0 ≤ capacity_ c → key ∉ es.*1 →
  Z.of_nat (length es) < to_size_t (capacity_ c) → holds c es →
  ∃ c', put key value c = Some c' ∧ capacity_ c' = capacity_ c ∧
        holds c' (es ++ [(key, value)]).
Proof.
  intros Hcap Hk Hroom (items & <- & Hr). rewrite length_fmap in Hroom.
  destruct (put_new_represents c items key value Hcap Hk Hroom Hr) as (c' & Hp & Hc & Hr').
  exists c'. split; [done|]. split; [done|].
  eexists. split; [|exact Hr']. by rewrite fmap_app.
Qed.


(** *** Sequences of calls that stay within the capacity *)

Lemma filter_other_keys key es :
  key ∉ es.*1 → filter (λ e : Key * Value, e.1 ≠ key) es = es.
Proof.
  induction es as [|e es IH]; [done|]. csimpl. intros Hk.
  apply not_elem_of_cons in Hk as [Hne Hk].
  rewrite filter_cons_True by done. by rewrite IH.
Qed.

Lemma touch_absent key value es : key ∉ es.*1 → touch key value es = es ++ [(key, value)].
Proof. intros Hk. unfold touch. by rewrite filter_other_keys. Qed.

Lemma touch_present key v value es1 es2 :
  NoDup (es1 ++ (key, v) :: es2).*1 →
  touch key value (es1 ++ (key, v) :: es2) = es1 ++ es2 ++ [(key, value)].
Proof.
  rewrite fmap_app, fmap_cons. simpl. intros Hnd.
  apply NoDup_app in Hnd as (_ & Hk1 & Hnd). apply NoDup_cons in Hnd as [Hk2 _].
  unfold touch. rewrite filter_app, filter_cons_False by (simpl; tauto).
  rewrite !filter_other_keys; [by rewrite <- app_assoc|done|].
  intros Hin. apply (Hk1 key Hin). by left.
Qed.

Lemma lookup_entry_Some key v es :
  NoDup es.*1 → lookup_entry key es = Some v → ∃ es1 es2, es = es1 ++ (key, v) :: es2.
Proof.
  intros Hnd Hl. unfold lookup_entry in Hl.
  apply elem_of_list_to_map_2 in Hl. by apply list_elem_of_split.
Qed.

Lemma lookup_entry_None key es : lookup_entry key es = None → key ∉ es.*1.
Proof. unfold lookup_entry. apply not_elem_of_list_to_map_2. Qed.

Lemma lookup_entry_is_Some key es : key ∈ es.*1 → is_Some (lookup_entry key es).
Proof.
  intros Hin. destruct (lookup_entry key es) eqn:E; [by eexists|].
  by apply lookup_entry_None in E.
Qed.

Lemma holds_lookup_None c es key : holds c es → key ∉ es.*1 → nodeMap_ c !! key = None.
Proof. intros (items & <- & Hr). by apply represents_lookup_None. Qed.

Lemma step_holds o c es :
  0 ≤ capacity_ c < SIZE_WIDTH →
  Z.of_nat (length (accessed o es)) ≤ capacity_ c →
  holds c es →
  ∃ c', step Value0 o c = Some c' ∧ capacity_ c' = capacity_ c ∧ holds c' (accessed o es).
Proof.
  intros Hcap Hlen Hh. pose proof (holds_NoDup _ _ Hh) as Hnd.
  destruct o as [key value|key]; simpl in *.
  - destruct (decide (key ∈ es.*1)) as [Hin|Hnin].
    + apply lookup_entry_is_Some in Hin as [v Hv].
      destruct (lookup_entry_Some _ _ _ Hnd Hv) as (es1 & es2 & ->).
      rewrite touch_present by done.
      apply (put_existing_holds c es1 key v es2 value); [lia|done].
    + rewrite touch_absent in * by done.
      apply put_new_holds; [lia|done| |done].
      rewrite to_size_t_small by done. rewrite length_app in Hlen. simpl in Hlen. lia.
  - unfold get1. destruct (lookup_entry key es) as [v|] eqn:Hv.
    + destruct (lookup_entry_Some _ _ _ Hnd Hv) as (es1 & es2 & ->).
      rewrite touch_present by done.
      destruct (get_holds c es1 key v es2 Value0 Hh) as (c' & -> & Hc & Hh').
      by exists c'.
    + apply lookup_entry_None in Hv.
      rewrite get_miss by by eapply holds_lookup_None.
      by exists c.
Qed.

Lemma run_holds os : ∀ c es,
  0 ≤ capacity_ c < SIZE_WIDTH → within (capacity_ c) os es → holds c es →
  ∃ c', run Value0 os c = Some c' ∧ capacity_ c' = capacity_ c ∧
        holds c' (foldl (λ es o, accessed o es) es os).
Proof.
  induction os as [|o os IH]; intros c es Hcap Hw Hh; simpl in *.
  - by exists c.
  - destruct Hw as [Hlen Hw].
    destruct (step_holds o c es Hcap Hlen Hh) as (c1 & -> & Hc1 & Hh1). simpl.
    rewrite <- Hc1 in Hcap, Hw.
    destruct (IH c1 _ Hcap Hw Hh1) as (c' & Hrun & Hc' & Hh').
    exists c'. split; [done|]. split; [congruence|done].
Qed.


Lemma lookup_entry_filter x key es :
  x ≠ key → lookup_entry x (filter (λ e : Key * Value, e.1 ≠ key) es) = lookup_entry x es.
Proof.
  intros Hx. unfold lookup_entry. induction es as [|[k v] es IH]; [done|].
  destruct (decide (k = key)) as [->|Hk].
  - rewrite filter_cons_False by (simpl; tauto). simpl.
    by rewrite lookup_insert_ne.
  - rewrite filter_cons_True by done. simpl.
    destruct (decide (x = k)) as [->|Hxk].
    + by rewrite !lookup_insert_eq.
    + by rewrite !lookup_insert_ne.
Qed.

Lemma lookup_entry_touch x key value es :
  lookup_entry x (touch key value es)
  = if decide (x = key) then Some value else lookup_entry x es.
Proof.
  unfold touch. unfold lookup_entry at 1. rewrite list_to_map_snoc.
  2:{ intros Hin. apply list_elem_of_fmap in Hin as (e & He & Hin).
      apply list_elem_of_filter in Hin as [Hne _]. done. }
  destruct (decide (x = key)) as [->|Hx].
  - by rewrite lookup_insert_eq.
  - rewrite lookup_insert_ne by done. by apply lookup_entry_filter.
Qed.

(** *** The public methods on a cache that holds a list of entries *)

(** X1.  A hit.  When the cache holds the entries [es1 ++ (key, v) :: es2]
    (least recent first), the two-argument [get] of [key] is defined,
    returns [true] and the stored value [v], and leaves a cache that holds
    the same entries with [(key, v)] moved to the most recent end: the list
    between the sentinels reads the keys in that order, and the index map
    and the capacity are the ones before the call. *)
Theorem get_hit_moves_to_most_recent c es1 key v es2 value :
  holds c (es1 ++ (key, v) :: es2) →
  ∃ c', get key value c = Some (true, v, c') ∧
        holds c' (es1 ++ es2 ++ [(key, v)]) ∧
        listed_keys c' = es1.*1 ++ es2.*1 ++ [key] ∧
        nodeMap_ c' = nodeMap_ c ∧ capacity_ c' = capacity_ c.
Proof.
  intros Hh. destruct (get_holds c es1 key v es2 value Hh) as (c' & Hg & Hc & Hh').
  exists c'. split; [done|]. split; [done|]. split.
  - rewrite (holds_listed_keys _ _ Hh'). by rewrite !fmap_app.
  - by apply get_Some in Hg as ((_ & -> & _) & _).
Qed.


(** X3.  An insertion with room left.  When the capacity is not negative,
    the cache holds the entries [es], [key] is not among their keys and
    there are fewer entries than the capacity, [put(key, value)] is defined
    and leaves a cache that holds [es ++ [(key, value)]]: nothing is
    evicted, [key] is cached with [value] and every other key is cached as
    before. *)
Theorem put_new_key_with_room c es key value :
  0 ≤ capacity_ c → key ∉ es.*1 →
  Z.of_nat (length es) < to_size_t (capacity_ c) → holds c es →
  ∃ c', put key value c = Some c' ∧
        holds c' (es ++ [(key, value)]) ∧
        cached key c' = Some value ∧
        (∀ x, x ≠ key → cached x c' = cached x c).
Proof.
  intros Hcap Hk Hroom Hh.
  destruct (put_new_holds c es key value Hcap Hk Hroom Hh) as (c' & Hp & Hc & Hh').
  exists c'. split; [done|]. split; [done|].
  rewrite <- (touch_absent key value es Hk) in Hh'.
  split.
  - rewrite (holds_cached _ _ key Hh'), lookup_entry_touch. by rewrite decide_True.
  - intros x Hx. rewrite (holds_cached _ _ x Hh'), (holds_cached _ _ x Hh).
    rewrite lookup_entry_touch. by rewrite decide_False.
Qed.

(** X4.  An insertion without room.  When the capacity is not negative, the
    cache holds the entries [e :: es], [key] is not among their keys and
    there are at least as many entries as the capacity, [put(key, value)]
    is defined; it unlinks the node of the least recent entry [e], so the
    list between the sentinels reads the keys of [es] and then [key]; but
    the key it erases from the index map is [k2], the key of the entry
    that is first in the list after the unlinking (the second least recent
    one, or [key] itself when [es] is empty).  So [k2] is not cached any
    more although it is listed, [e] is still cached with its value although
    it is not listed, and every other key is cached as in
    [e :: es ++ [(key, value)]]. *)
Theorem put_new_key_without_room c e es key value :
  0 ≤ capacity_ c → key ∉ (e :: es).*1 →
  to_size_t (capacity_ c) ≤ Z.of_nat (length (e :: es)) →
  holds c (e :: es) →
  ∃ c' k2, put key value c = Some c' ∧
    head (es.*1 ++ [key]) = Some k2 ∧
    listed_keys c' = es.*1 ++ [key] ∧
    cached k2 c' = None ∧
    cached e.1 c' = Some e.2 ∧
    (∀ x, x ≠ k2 → cached x c' = lookup_entry x (e :: es ++ [(key, value)])).
Proof.
  intros Hcap Hk Hfull (items & Hes & Hr).
  destruct items as [|[p e'] items]; [done|]. simpl in Hes.
  injection Hes as -> <-. rewrite length_cons, length_fmap in Hfull.
  destruct (put_full_represents c p e items key value Hcap Hk Hfull Hr)
    as (c3 & c' & k2 & Hp & Hhd & Hr3 & Hc & Hll & Hpl & Hm).
  exists c', k2. split; [done|]. split; [done|].
  assert (∀ x, x ≠ k2 → cached x c' = lookup_entry x (e :: items.*2 ++ [(key, value)]))
    as Hother.
  { intros x Hx. rewrite cached_payloads, Hm, Hpl, lookup_delete_ne by done.
    rewrite <- cached_payloads, (represents_cached _ _ x Hr3).
    by rewrite fmap_cons, fmap_app. }
  split; [|split; [|split]]; [| |rewrite Hother|done].
  - pose proof Hr3 as (_ & _ & Hpl3 & _). apply Forall_cons in Hpl3 as [_ Hpl3].
    rewrite (linked_list_listed_keys c' (items ++ [(length (heap c), (key, value))])).
    + by rewrite !fmap_app.
    + by rewrite fmap_app.
    + by rewrite Hpl.
  - by rewrite cached_payloads, Hm, lookup_delete_eq.
  - unfold lookup_entry. simpl. destruct e as [k v]. simpl. by rewrite lookup_insert_eq.
  - pose proof Hr3 as (_ & Hnd & _). rewrite fmap_cons, fmap_cons in Hnd.
    apply NoDup_cons in Hnd as [Hnin _]. simpl in Hnin. intros Heq. apply Hnin.
    rewrite Heq, !fmap_app. simpl. by apply head_Some_elem_of.
Qed.

(** X5.  Within the capacity the engine is a map with a recency order.  On
    a new cache of capacity [0 ≤ capacity ≤ INT_MAX], every sequence of
    [put] and one-argument [get] calls that never brings the number of
    distinct keys above the capacity is defined, and the cache it leaves
    holds exactly the entries written, each with the value of its last
    [put], in the order of their last access: the list between the
    sentinels reads their keys in that order, the index map caches their
    values and has at most [capacity] keys. *)
Theorem run_within_capacity capacity os :
  0 ≤ capacity ≤ INT_MAX → within capacity os [] →
  ∃ c, run Value0 os (initialzeList Key0 Value0 capacity) = Some c ∧
       let es := foldl (λ es o, accessed o es) [] os in
       holds c es ∧ listed_keys c = es.*1 ∧
       (∀ x, cached x c = lookup_entry x es) ∧
       Z.of_nat (size (nodeMap_ c)) ≤ capacity.
Proof.
  intros Hcap Hw.
  destruct (run_holds os (initialzeList Key0 Value0 capacity) [])
    as (c & Hrun & Hc & Hh).
  { simpl. unfold INT_MAX, SIZE_WIDTH in *. lia. }
  { done. }
  { apply holds_initialzeList. }
  exists c. split; [done|]. simpl. split; [done|].
  split; [by apply holds_listed_keys|]. split; [intros x; by apply holds_cached|].
  rewrite (holds_size _ _ Hh). clear Hrun Hc Hh c.
  assert (Z.of_nat (length ([] : list (Key * Value))) ≤ capacity) as Hl by (simpl; lia).
  revert Hw Hl. generalize ([] : list (Key * Value)).
  induction os as [|o os IH]; intros es Hw Hl; simpl in *; [done|].
  destruct Hw as [Hlen Hw]. by apply IH.
Qed.

(** X6.  A negative capacity disables the engine.  On a new cache of
    negative capacity every sequence of [put] and [get] calls is defined
    and leaves the cache as it was constructed, and every [get] returns the
    default value of a miss. *)
Theorem negative_capacity_inert capacity os key :
  capacity < 0 →
  let c := initialzeList Key0 Value0 capacity in
  run Value0 os c = Some c ∧ get1 Value0 key c = Some (Value0, c).
Proof.
  intros Hcap c.
  assert (∀ x, get1 Value0 x c = Some (Value0, c)) as Hget.
  { intros x. apply get1_miss. apply lookup_empty. }
  split; [|done]. induction os as [|[x v|x] os IH]; simpl; [done| |].
  - rewrite put_negative_capacity by done. done.
  - rewrite Hget. done.
Qed.

End lru_list_facts.

Section lru_list_runs.
Import Lru LruList.

(** A concrete state holds a list of entries: the nodes are named and the
    conditions are evaluated. *)
Ltac holds_by_evaluation items :=
  exists items; split; [reflexivity|];
  split; [split; [compute_done|simpl; repeat split; reflexivity]|];
  split; [compute_done|];
  split; [repeat constructor|vm_compute; reflexivity].

(** Capacity 2 over integer keys, after [put(1, "A")] and [put(2, "B")]:
    [get(1)] returns "A" and moves key 1 behind key 2. *)
Lemma get_hit_moves_to_most_recent_witness :
  ∃ c, run "" [Put 1 "A"; Put 2 "B"] (initialzeList 0 "" 2) = Some c ∧
       holds c [(1, "A"); (2, "B")] ∧
       ∃ c', get 1 "x" c = Some (true, "A", c') ∧
             holds c' [(2, "B"); (1, "A")] ∧
             listed_keys c' = [2; 1] ∧
             nodeMap_ c' = nodeMap_ c ∧ capacity_ c' = capacity_ c.
Proof.
  eexists. split; [vm_compute; reflexivity|].
  match goal with |- holds ?c ?es ∧ _ => assert (holds c es) as Hh end.
  { holds_by_evaluation [(2%nat, (1, "A")); (3%nat, (2, "B"))]. }
  split; [exact Hh|].
  exact (get_hit_moves_to_most_recent _ [] 1 "A" [(2, "B")] "x" Hh).
Defined.



(** Capacity 2, after [put(1, "A")]: [put(2, "B")] finds room. *)
Lemma put_new_key_with_room_witness :
  ∃ c, run "" [Put 1 "A"] (initialzeList 0 "" 2) = Some c ∧
       0 ≤ capacity_ c ∧ (2 ∉ [(1, "A")].*1) ∧
       Z.of_nat (length [(1, "A")]) < to_size_t (capacity_ c) ∧
       holds c [(1, "A")] ∧
       ∃ c', put 2 "B" c = Some c' ∧
             holds c' [(1, "A"); (2, "B")] ∧
             cached 2 c' = Some "B" ∧
             (∀ x, x ≠ 2 → cached x c' = cached x c).
Proof.
  eexists. split; [vm_compute; reflexivity|].
  match goal with |- ?P ∧ ?Q ∧ ?R ∧ holds ?c ?es ∧ _ =>
    assert (P ∧ Q ∧ R ∧ holds c es) as (Hc & Hk & Hroom & Hh) end.
  { split; [simpl; lia|]. split; [compute_done|]. split; [vm_compute; reflexivity|].
    holds_by_evaluation [(2%nat, (1, "A"))]. }
  split; [exact Hc|]. split; [exact Hk|]. split; [exact Hroom|]. split; [exact Hh|].
  exact (put_new_key_with_room _ [(1, "A")] 2 "B" Hc Hk Hroom Hh).
Defined.

(** Capacity 2, after [put(1, "A")] and [put(2, "B")]: [put(3, "C")]
    unlinks the node of key 1 and erases key 2 from the index map. *)
Lemma put_new_key_without_room_witness :
  ∃ c, run "" [Put 1 "A"; Put 2 "B"] (initialzeList 0 "" 2) = Some c ∧
       0 ≤ capacity_ c ∧ (3 ∉ ((1, "A") :: [(2, "B")]).*1) ∧
       to_size_t (capacity_ c) ≤ Z.of_nat (length ((1, "A") :: [(2, "B")])) ∧
       holds c ((1, "A") :: [(2, "B")]) ∧
       ∃ c' k2, put 3 "C" c = Some c' ∧
             head ([(2, "B")].*1 ++ [3]) = Some k2 ∧
             listed_keys c' = [2; 3] ∧
             cached k2 c' = None ∧
             cached 1 c' = Some "A" ∧
             (∀ x, x ≠ k2 → cached x c' = lookup_entry x [(1, "A"); (2, "B"); (3, "C")]).
Proof.
  eexists. split; [vm_compute; reflexivity|].
  match goal with |- ?P ∧ ?Q ∧ ?R ∧ holds ?c ?es ∧ _ =>
    assert (P ∧ Q ∧ R ∧ holds c es) as (Hc & Hk & Hfull & Hh) end.
  { split; [simpl; lia|]. split; [compute_done|]. split; [vm_compute; discriminate|].
    holds_by_evaluation [(2%nat, (1, "A")); (3%nat, (2, "B"))]. }
  split; [exact Hc|]. split; [exact Hk|]. split; [exact Hfull|]. split; [exact Hh|].
  exact (put_new_key_without_room _ (1, "A") [(2, "B")] 3 "C" Hc Hk Hfull Hh).
Defined.

(** Capacity 2: two keys are written, read and rewritten. *)
Lemma run_within_capacity_witness :
  0 ≤ 2 ≤ INT_MAX ∧
  within 2 [Put 1 "A"; Put 2 "B"; Get 1; Put 2 "C"] [] ∧
  ∃ c, run "" [Put 1 "A"; Put 2 "B"; Get 1; Put 2 "C"] (initialzeList 0 "" 2) = Some c ∧
       holds c [(1, "A"); (2, "C")] ∧ listed_keys c = [1; 2] ∧
       (∀ x, cached x c = lookup_entry x [(1, "A"); (2, "C")]) ∧
       Z.of_nat (size (nodeMap_ c)) ≤ 2.
Proof.
  assert (0 ≤ 2 ≤ INT_MAX) as Hcap by (unfold INT_MAX; lia).
  assert (within 2 [Put 1 "A"; Put 2 "B"; Get 1; Put 2 "C"] []) as Hw.
  { simpl. repeat split; vm_compute; discriminate. }
  split; [exact Hcap|]. split; [exact Hw|].
  exact (run_within_capacity 0 "" 2 [Put 1 "A"; Put 2 "B"; Get 1; Put 2 "C"] Hcap Hw).
Defined.

(** Capacity -1. *)
Lemma negative_capacity_inert_witness :
  -1 < 0 ∧
  run "" [Put 1 "A"; Get 1; Put 2 "B"] (initialzeList 0 "" (-1))
    = Some (initialzeList 0 "" (-1)) ∧
  get1 "" 1 (initialzeList 0 "" (-1)) = Some ("", initialzeList 0 "" (-1)).
Proof.
  assert (-1 < 0) as Hcap by lia. split; [exact Hcap|].
  exact (negative_capacity_inert 0 "" (-1) [Put 1 "A"; Get 1; Put 2 "B"] 1 Hcap).
Defined.

End lru_list_runs.

(** ** The sharded cache: its shards *)

Section hashlru_shards.
Import HashLru.
Context {Key : Type} `{Countable Key}.
Context (Key0 : Key).
Context (removeNode_key :
  Key → @Lru.MyLruCache Key _ _ Z → option (@Lru.MyLruCache Key _ _ Z)).
Context (hashFunc : Key → Z) (hardware_concurrency : Z).
Implicit Types (h : @MyHashLru Key _ _) (key : Key).




(** X9.  Calls on different shards commute.  When two keys are routed to
    different shards, [put(key1, value1)] followed by [put(key2, value2)]
    leaves the same cache as the two calls in the other order (and one
    order is undefined exactly when the other is); and a [put] on [key1]
    does not change what the two-argument [get] of [key2] finds and
    returns. *)
Theorem calls_on_different_shards_commute h key1 key2 value1 value2 value i j :
  sliceIndex hashFunc key1 h = Some i → sliceIndex hashFunc key2 h = Some j → i ≠ j →
  (h1 ← put removeNode_key hashFunc key1 value1 h;
   put removeNode_key hashFunc key2 value2 h1)
  = (h2 ← put removeNode_key hashFunc key2 value2 h;
     put removeNode_key hashFunc key1 value1 h2) ∧
  (∀ h1, put removeNode_key hashFunc key1 value1 h = Some h1 →
     (λ r, r.1) <$> get hashFunc key2 value h1 = (λ r, r.1) <$> get hashFunc key2 value h).
Proof.
  intros Hi Hj Hij. split.
  - unfold put. rewrite Hi, Hj. simpl.
    destruct (lruSliceCaches_ h !! i) as [s1|] eqn:Hs1; simpl.
    2:{ destruct (lruSliceCaches_ h !! j) as [s2|] eqn:Hs2; simpl; [|done].
        destruct (KLru.put removeNode_key key2 value2 s2) as [s2'|]; simpl; [|done].
        rewrite (sliceIndex_sliceNum hashFunc key1 h) by done. rewrite Hi. simpl.
        rewrite list_lookup_insert_ne by done. by rewrite Hs1. }
    destruct (KLru.put removeNode_key key1 value1 s1) as [s1'|] eqn:Hp1; simpl.
    2:{ destruct (lruSliceCaches_ h !! j) as [s2|] eqn:Hs2; simpl; [|done].
        destruct (KLru.put removeNode_key key2 value2 s2) as [s2'|]; simpl; [|done].
        rewrite (sliceIndex_sliceNum hashFunc key1 h) by done. rewrite Hi. simpl.
        rewrite list_lookup_insert_ne by done. rewrite Hs1. simpl. by rewrite Hp1. }
    rewrite (sliceIndex_sliceNum hashFunc key2 h) by done. rewrite Hj. simpl.
    rewrite list_lookup_insert_ne by done.
    destruct (lruSliceCaches_ h !! j) as [s2|] eqn:Hs2; simpl; [|done].
    destruct (KLru.put removeNode_key key2 value2 s2) as [s2'|]; simpl; [|done].
    rewrite (sliceIndex_sliceNum hashFunc key1 h) by done. rewrite Hi. simpl.
    rewrite list_lookup_insert_ne by done. rewrite Hs1. simpl. rewrite Hp1. simpl.
    unfold set_slices. simpl. by rewrite list_insert_insert_ne.
  - intros h1 Hp. unfold put in Hp. rewrite Hi in Hp. simpl in Hp.
    apply bind_Some in Hp as (s1 & Hs1 & Hp).
    apply bind_Some in Hp as (s1' & Hp1 & [= <-]).
    unfold get. rewrite (sliceIndex_sliceNum hashFunc key2 h) by done.
    rewrite Hj. simpl. rewrite list_lookup_insert_ne by done.
    destruct (lruSliceCaches_ h !! j) as [s2|]; simpl; [|done].
    destruct (Lru.get key2 value (KLru.base s2)) as [[[b v] m]|]; simpl; done.
Qed.

End hashlru_shards.

Section hashlru_shards_runs.
Import HashLru.


(** Keys 6 and 7 are routed to shards 2 and 3 of four. *)
Lemma calls_on_different_shards_commute_witness :
  let h := make 0 0 8 4 2 1 in
  sliceIndex id 6 h = Some 2%nat ∧ sliceIndex id 7 h = Some 3%nat ∧ 2%nat ≠ 3%nat ∧
  (h1 ← put KLru.removeNode_of_key id 6 "A" h; put KLru.removeNode_of_key id 7 "B" h1)
  = (h2 ← put KLru.removeNode_of_key id 7 "B" h; put KLru.removeNode_of_key id 6 "A" h2) ∧
  (∀ h1, put KLru.removeNode_of_key id 6 "A" h = Some h1 →
     (λ r, r.1) <$> get id 7 "" h1 = (λ r, r.1) <$> get id 7 "" h).
Proof.
  intros h.
  assert (sliceIndex id 6 h = Some 2%nat) as Hi by (vm_compute; reflexivity).
  assert (sliceIndex id 7 h = Some 3%nat) as Hj by (vm_compute; reflexivity).
  assert (2%nat ≠ 3%nat) as Hij by lia.
  split; [exact Hi|]. split; [exact Hj|]. split; [exact Hij|].
  exact (calls_on_different_shards_commute KLru.removeNode_of_key id h 6 7 "A" "B" ""
           2%nat 3%nat Hi Hj Hij).
Defined.

End hashlru_shards_runs.

(** ** The K-promotion wrapper: a key that is resident in the main cache *)

Section klru_resident.
Import KLru.
Context {Key : Type} `{Countable Key}.
Context (removeNode_key :
  Key → @Lru.MyLruCache Key _ _ Z → option (@Lru.MyLruCache Key _ _ Z)).
Context (get_value : string).
Implicit Types (s : @MyKLruCache Key _ _) (key : Key).
Implicit Types (es : list (Key * string)) (h : @Lru.MyLruCache Key _ _ Z).



End klru_resident.

Section klru_resident_runs.
Import KLru.



End klru_resident_runs.

(** ** The LRU engine: a hit returns the value written last *)

Section lru_coherence.
Import Lru LruList.
Context {Key : Type} `{Countable Key} {Value : Type}.
Context (Key0 : Key) (Value0 : Value).
Implicit Types (c : @MyLruCache Key _ _ Value) (key x : Key) (value v : Value).
Implicit Types (m : gmap Key Value) (o : @call Key Value) (os : list (@call Key Value)).

Lemma put_capacity key value c c' :
  put key value c = Some c' → capacity_ c' = capacity_ c.
Proof.
  unfold put. intros Hp. case_decide; [by injection Hp as <-|].
  destruct (nodeMap_ c !! key) as [node|].
  - unfold updateExistNode in Hp. apply bind_Some in Hp as (c1 & Hs & Hm).
    apply moveToMostRecent_relinked in Hm as (-> & _).
    unfold store in Hs. by apply bind_Some in Hs as (n & _ & [= <-]).
  - apply addNode_Some in Hp as (c2 & (Hc2 & _) & Hp). simpl in *.
    case_decide.
    + apply evictLeastRecent_Some in Hp as (c1 & x & (Hc1 & _) & ->). simpl in *.
      congruence.
    + by subst c'.
Qed.

Lemma put_cached_written key value c c' :
  0 ≤ capacity_ c → put key value c = Some c' →
  cached key c' = Some value ∨ cached key c' = None.
Proof.
  intros Hcap Hp. destruct (put_cached_key key value c c' Hp) as [?|[?|Hsame]]; [auto..|].
  unfold put in Hp. rewrite decide_False in Hp by lia.
  destruct (nodeMap_ c !! key) as [node|] eqn:Hk.
  - left. unfold updateExistNode in Hp. apply bind_Some in Hp as (c1 & Hs & Hm).
    apply moveToMostRecent_relinked in Hm. rewrite (cached_relinked key _ _ Hm).
    unfold store in Hs. apply bind_Some in Hs as (n & Hn & [= <-]).
    unfold cached; simpl. rewrite Hk; simpl.
    rewrite list_lookup_insert_eq by (by eapply lookup_lt_Some). done.
  - right. rewrite Hsame. unfold cached. by rewrite Hk.
Qed.

Lemma step_coherent o c c' m :
  coherent c m → step Value0 o c = Some c' →
  coherent c' (match o with Put key value => <[key := value]> m | Get _ => m end).
Proof.
  intros (Hkd & Hneg & Hm) Hs. destruct o as [key value|key]; simpl in Hs.
  - pose proof (put_capacity _ _ _ _ Hs) as Hcap.
    destruct (decide (capacity_ c < 0)) as [Hlt|Hge].
    + rewrite put_negative_capacity in Hs by done. injection Hs as <-.
      split; [done|]. split; [done|]. intros x v Hx.
      unfold cached in Hx. rewrite (Hneg Hlt) in Hx. by rewrite lookup_empty in Hx.
    + destruct (put_keyed _ _ _ _ Hkd Hs) as [Hkd' Hother].
      split; [done|]. split; [lia|]. intros x v Hx.
      destruct (decide (x = key)) as [->|Hne].
      * destruct (put_cached_written key value c c') as [Hc|Hc]; [lia|done|..];
          rewrite Hc in Hx; [|done]. injection Hx as <-. by rewrite lookup_insert_eq.
      * rewrite lookup_insert_ne by done. apply Hm.
        destruct (Hother x Hne) as [Hc|Hc]; rewrite Hc in Hx; done.
  - apply bind_Some in Hs as ([v1 c1] & Hg & [= <-]).
    apply get1_Some in Hg as [Hrel _].
    split; [by eapply keyed_relinked|]. split.
    + destruct Hrel as (-> & -> & _). done.
    + intros x v Hx. apply Hm. by rewrite <- (cached_relinked x _ _ Hrel).
Qed.

Lemma run_coherent os : ∀ c c' m,
  coherent c m → run Value0 os c = Some c' →
  coherent c'
    (foldl (λ m o, match o with Put key value => <[key := value]> m | Get _ => m end) m os).
Proof.
  induction os as [|o os IH]; intros c c' m Hc Hr; simpl in *.
  - by injection Hr as <-.
  - apply bind_Some in Hr as (c1 & Hs & Hr).
    eapply IH; [|exact Hr]. by eapply step_coherent.
Qed.

(** X12.  A hit returns the value written last.  After every sequence of
    [put] and [get] calls on a new cache that stays within defined
    behaviour, whatever the capacity and whatever the evictions have done
    to the index map, a two-argument [get] that finds its key returns the
    value of the last [put] of that key, and the value the one-argument
    [get] returns is that value or, on a miss, the default value. *)
Theorem hit_returns_last_put capacity os c key :
  run Value0 os (initialzeList Key0 Value0 capacity) = Some c →
  (∀ value v c', get key value c = Some (true, v, c') → written os !! key = Some v) ∧
  (∀ v c', get1 Value0 key c = Some (v, c') → v = Value0 ∨ written os !! key = Some v).
Proof.
  intros Hr.
  assert (coherent c (written os)) as (Hkd & _ & Hm).
  { eapply run_coherent; [|exact Hr]. split; [apply keyed_initialzeList|].
    split; [done|]. intros x v Hx. unfold cached in Hx. simpl in Hx.
    by rewrite lookup_empty in Hx. }
  assert (∀ value b v c', get key value c = Some (b, v, c') →
            (b = true → written os !! key = Some v) ∧
            (v = value ∨ written os !! key = Some v)) as Hget.
  { intros value b v c' Hg. apply get_Some in Hg as (_ & -> & ->).
    destruct (nodeMap_ c !! key) as [p|] eqn:Hk.
    - specialize (Hkd key p Hk). rewrite cached_payloads, Hk. simpl.
      destruct (payloads c !! p) as [[k v]|] eqn:Hp; [|done]. simpl.
      assert (written os !! key = Some v) as Hw.
      { apply Hm. by rewrite cached_payloads, Hk; simpl; rewrite Hp. }
      by auto.
    - split; [by rewrite bool_decide_eq_true; intros []|]. left.
      unfold cached. by rewrite Hk. }
  split.
  - intros value v c' Hg. by apply (Hget value true v c' Hg).
  - intros v c' Hg. unfold get1 in Hg.
    apply bind_Some in Hg as ([[b v1] c1] & Hg & [= <- <-]).
    by apply (Hget Value0 b v1 c1 Hg).
Qed.

End lru_coherence.

Section lru_coherence_runs.
Import Lru LruList.

(** Capacity 2; key 2 is written twice, and key 1 survives an eviction in
    the index map. *)
Lemma hit_returns_last_put_witness :
  ∃ c, run "" [Put 1 "A"; Put 2 "B"; Put 2 "C"; Put 3 "D"] (initialzeList 0 "" 2) = Some c ∧
       (∀ value v c', get 1 value c = Some (true, v, c') →
          written [Put 1 "A"; Put 2 "B"; Put 2 "C"; Put 3 "D"] !! 1 = Some v) ∧
       (∀ v c', get1 "" 1 c = Some (v, c') →
          v = "" ∨ written [Put 1 "A"; Put 2 "B"; Put 2 "C"; Put 3 "D"] !! 1 = Some v).
Proof.
  eexists. split; [vm_compute; reflexivity|].
  apply (hit_returns_last_put 0 "" 2 [Put 1 "A"; Put 2 "B"; Put 2 "C"; Put 3 "D"]).
  vm_compute; reflexivity.
Defined.

End lru_coherence_runs.

(** ** The LFU engine: a disabled cache, the first eviction, and the value
    of a hit *)

Section lfu_entries_facts.
Import Lfu LfuEntries.
Context {Key : Type} `{Countable Key} {Value : Type}.
Context (Key0 : Key) (Value0 : Value).
Context (iteration_order : gmap Key nat → list (Key * nat)).
Implicit Types (c : @MyLfuCache Key _ _ Value) (l : Freqlist) (k x : Key) (v : Value)
  (o : @call Key Value) (os : list (@call Key Value)) (m : gmap Key Value).

(** *** Methods that write neither a key nor a value *)

Lemma extends_refl c : extends c c.
Proof. exists []. by rewrite app_nil_r. Qed.

Lemma extends_heap c c' : heap c' = heap c → extends c c'.
Proof. intros Hh. exists []. unfold payloads. by rewrite Hh, app_nil_r. Qed.

Lemma extends_trans c1 c2 c3 : extends c1 c2 → extends c2 c3 → extends c1 c3.
Proof. intros (l1 & E1) (l2 & E2). exists (l1 ++ l2). by rewrite E2, E1, <- app_assoc. Qed.

Lemma store_extends p f c c' :
  (∀ n, payload (f n) = payload n) → store p f c = Some c' → extends c c'.
Proof.
  unfold store. intros Hf Hs. apply bind_Some in Hs as (n & Hn & [= <-]).
  exists []. rewrite app_nil_r. unfold payloads; simpl.
  rewrite list_fmap_insert, Hf. apply list_insert_id.
  by rewrite list_lookup_fmap, Hn.
Qed.

Lemma Freqlist_new_extends n c : extends c (Freqlist_new Key0 Value0 n c).2.
Proof. eexists. unfold payloads; simpl. by rewrite fmap_app. Qed.

Lemma Freqlist_addNode_extends l node c c' :
  Freqlist_addNode l node c = Some c' → extends c c'.
Proof.
  unfold Freqlist_addNode. intros Ha.
  apply bind_Some in Ha as (t & _ & Ha). apply bind_Some in Ha as (c1 & H1 & Ha).
  apply bind_Some in Ha as (c2 & H2 & Ha). apply bind_Some in Ha as (t2 & _ & Ha).
  apply bind_Some in Ha as (last & _ & Ha). apply bind_Some in Ha as (c3 & H3 & H4).
  apply store_extends in H1, H2, H3, H4; try done.
  eauto using extends_trans.
Qed.

Lemma Freqlist_remove_extends l node c c' :
  Freqlist_remove l node c = Some c' → extends c c'.
Proof.
  unfold Freqlist_remove. intros Hr. apply bind_Some in Hr as (n & _ & Hr).
  destruct (prev n) as [pv|]; [|injection Hr as <-; apply extends_refl].
  destruct (next n) as [nx0|]; [|injection Hr as <-; apply extends_refl].
  apply bind_Some in Hr as (c1 & H1 & Hr). apply bind_Some in Hr as (n1 & _ & Hr).
  apply bind_Some in Hr as (nx & _ & Hr). apply bind_Some in Hr as (c2 & H2 & Hr).
  apply bind_Some in Hr as (c3 & H3 & H4).
  apply store_extends in H1, H2, H3, H4; try done.
  eauto using extends_trans.
Qed.

Lemma removeFromFreqList_extends node c c' :
  removeFromFreqList node c = Some c' → extends c c'.
Proof.
  unfold removeFromFreqList. intros Hr. apply bind_Some in Hr as (n & _ & Hr).
  apply bind_Some in Hr as (l & _ & Hr). by eapply Freqlist_remove_extends.
Qed.

Lemma addToFreqList_extends node c c' :
  addToFreqList Key0 Value0 node c = Some c' → extends c c'.
Proof.
  unfold addToFreqList. intros Ha. apply bind_Some in Ha as (n & _ & Ha).
  apply bind_Some in Ha as (l & _ & Ha). apply Freqlist_addNode_extends in Ha.
  eapply extends_trans; [|exact Ha]. destruct (freqToFreqList_ c !! freq n).
  - apply extends_refl.
  - pose proof (Freqlist_new_extends (freq n) c) as Hq.
    destruct (Freqlist_new Key0 Value0 (freq n) c) as [l' c0]. exact Hq.
Qed.

Lemma updateMinFreq_extends c c' : updateMinFreq c = Some c' → extends c c'.
Proof.
  unfold updateMinFreq. intros Hu. apply bind_Some in Hu as (m & _ & [= <-]).
  by apply extends_heap.
Qed.

Lemma age_extends node c c' : age Key0 Value0 node c = Some c' → extends c c'.
Proof.
  unfold age. intros Ha. apply bind_Some in Ha as (c1 & H1 & Ha).
  apply bind_Some in Ha as (n & _ & Ha). apply bind_Some in Ha as (f & _ & Ha).
  apply bind_Some in Ha as (c2 & H2 & H3).
  apply removeFromFreqList_extends in H1. apply store_extends in H2; [|done].
  apply addToFreqList_extends in H3. eauto using extends_trans.
Qed.

Lemma age_all_extends ns : ∀ c c', age_all Key0 Value0 ns c = Some c' → extends c c'.
Proof.
  induction ns as [|[k node] ns IH]; intros c c' Ha; simpl in Ha.
  - injection Ha as <-. apply extends_refl.
  - apply bind_Some in Ha as (c1 & H1 & Ha). apply age_extends in H1.
    eapply extends_trans; [exact H1|]. by apply IH.
Qed.

Lemma handleOverMaxAverageNum_extends c c' :
  handleOverMaxAverageNum Key0 Value0 iteration_order c = Some c' → extends c c'.
Proof.
  unfold handleOverMaxAverageNum. intros Hh.
  case_decide; [injection Hh as <-; apply extends_refl|].
  apply bind_Some in Hh as (c1 & H1 & H2).
  apply age_all_extends in H1. apply updateMinFreq_extends in H2.
  eauto using extends_trans.
Qed.

Lemma addFreqNum_extends c c' :
  addFreqNum Key0 Value0 iteration_order c = Some c' → extends c c'.
Proof.
  unfold addFreqNum. intros Ha. apply bind_Some in Ha as (total & _ & Ha).
  case_decide.
  - apply handleOverMaxAverageNum_extends in Ha.
    eapply extends_trans; [|exact Ha]. by apply extends_heap.
  - injection Ha as <-. by apply extends_heap.
Qed.

Lemma getInternal_extends node c c' :
  getInternal Key0 Value0 iteration_order node c = Some c' → extends c c'.
Proof.
  unfold getInternal. intros Hg. apply bind_Some in Hg as (c1 & H1 & Hg).
  apply bind_Some in Hg as (n & _ & Hg). apply bind_Some in Hg as (f & _ & Hg).
  apply bind_Some in Hg as (c2 & H2 & Hg). apply bind_Some in Hg as (c3 & H3 & Hg).
  apply bind_Some in Hg as (n3 & _ & Hg). apply bind_Some in Hg as (m & _ & Hg).
  apply bind_Some in Hg as (c4 & H4 & H5).
  apply removeFromFreqList_extends in H1. apply store_extends in H2; [|done].
  apply addToFreqList_extends in H3. apply addFreqNum_extends in H5.
  assert (extends c3 c4) as H34.
  { case_decide; [|injection H4 as <-; apply extends_refl].
    apply bind_Some in H4 as (l & _ & H4). apply bind_Some in H4 as ([] & _ & H4);
      injection H4 as <-; by apply extends_heap. }
  eauto using extends_trans.
Qed.

Lemma kickOut_extends c c' : kickOut c = Some c' → extends c c'.
Proof.
  unfold kickOut. intros Hk. apply bind_Some in Hk as (l & _ & Hk).
  apply bind_Some in Hk as (first & _ & Hk). apply bind_Some in Hk as (node & _ & Hk).
  apply bind_Some in Hk as (n & _ & Hk). apply bind_Some in Hk as (c2 & H2 & Hk).
  apply bind_Some in Hk as (n2 & _ & Hk).
  apply removeFromFreqList_extends in H2.
  unfold decreaseFreqNum in Hk. apply bind_Some in Hk as (total & _ & [= <-]).
  eapply extends_trans; [|eapply extends_trans; [exact H2|]]; by apply extends_heap.
Qed.

(** *** The index map and the values *)

Lemma coherent_extends c c' m :
  extends c c' → nodeMap_ c' = nodeMap_ c → capacity_ c' = capacity_ c →
  coherent c m → coherent c' m.
Proof.
  intros (l & Hl) Hm Hc (Hcap & Hcoh). split; [by rewrite Hm, Hc|].
  intros x p Hx. rewrite Hm in Hx. destruct (Hcoh x p Hx) as (v & Hp & Hv).
  exists v. split; [|done]. rewrite Hl. by apply lookup_app_l_Some.
Qed.

Lemma coherent_delete c m x :
  coherent c m → coherent (set_nodeMap (delete x (nodeMap_ c)) c) m.
Proof.
  intros (Hcap & Hcoh). split.
  - intros Hc. simpl in *. rewrite (Hcap Hc). apply delete_empty.
  - intros y p Hy. simpl in Hy. apply lookup_delete_Some in Hy as [_ Hy].
    by apply Hcoh.
Qed.

Lemma getInternal_coherent node c c' m :
  getInternal Key0 Value0 iteration_order node c = Some c' →
  coherent c m → coherent c' m.
Proof.
  intros Hg. pose proof (getInternal_extends _ _ _ Hg) as He.
  apply getInternal_freqs in Hg as (Hc & Hm & _). by apply coherent_extends.
Qed.

Lemma put_coherent k v c c' m :
  put Key0 Value0 iteration_order k v c = Some c' →
  coherent c m → coherent c' (<[k := v]> m).
Proof.
  unfold put. intros Hp Hcoh. pose proof Hcoh as (Hcap & Hent).
  destruct (decide (capacity_ c ≤ 0)) as [Hle|Hgt].
  { injection Hp as <-. split; [done|]. intros x p Hx.
    rewrite (Hcap Hle) in Hx. by rewrite lookup_empty in Hx. }
  destruct (nodeMap_ c !! k) as [node|] eqn:Hk.
  - apply bind_Some in Hp as (c1 & Hs & Hg).
    eapply getInternal_coherent; [exact Hg|].
    unfold store in Hs. apply bind_Some in Hs as (n & Hn & [= <-]).
    split; [simpl; lia|]. intros x p Hx. simpl in Hx.
    destruct (Hent k node Hk) as (v0 & Hp0 & _).
    destruct (Hent x p Hx) as (vx & Hpx & Hvx).
    unfold payloads in *. simpl. rewrite list_fmap_insert.
    rewrite list_lookup_fmap, Hn in Hp0. injection Hp0 as Hkey _.
    destruct (decide (p = node)) as [->|Hne].
    + rewrite list_lookup_fmap, Hn in Hpx. injection Hpx as Hkx _.
      assert (x = k) as -> by congruence.
      exists v. rewrite list_lookup_insert_eq.
      * unfold payload. simpl. rewrite Hkey. by rewrite lookup_insert_eq.
      * rewrite length_fmap. by eapply lookup_lt_Some.
    + exists vx. rewrite list_lookup_insert_ne by done. split; [done|].
      rewrite lookup_insert_ne; [done|]. intros <-.
      rewrite Hk in Hx. by injection Hx as <-.
  - unfold putInternal in Hp. apply bind_Some in Hp as (c2 & H2 & Ha).
    set (c1 := set_heap (heap c ++ [Node_new k v]) c) in *.
    assert (extends c1 c2 ∧ capacity_ c2 = capacity_ c ∧
            ∃ z, nodeMap_ c2 = z (nodeMap_ c) ∧
                 (z = id ∨ ∃ y, z = delete y)) as (He2 & Hc2 & z & Hm2 & Hz).
    { case_decide.
      - pose proof (kickOut_extends _ _ H2) as He.
        apply kickOut_freqs in H2 as (Hc & (y & Hm) & _).
        split; [done|]. split; [done|]. exists (delete y). split; [done|]. right. by exists y.
      - injection H2 as <-. split; [apply extends_refl|]. split; [done|].
        exists id. split; [done|]. by left. }
    pose proof (addToFreqList_extends _ _ _ Ha) as He3.
    apply addToFreqList_quiet in Ha as ((Hc3 & _ & _ & Hm3) & _). simpl in *.
    destruct He2 as (l2 & Hl2). destruct He3 as (l3 & Hl3).
    assert (payloads c' = payloads c ++ (k, v) :: l2 ++ l3) as Hpl.
    { rewrite Hl3. change (payloads (set_nodeMap _ c2)) with (payloads c2).
      rewrite Hl2. unfold payloads at 1. simpl. rewrite fmap_app. simpl.
      by rewrite <- !app_assoc. }
    split; [rewrite Hc3, Hc2; lia|].
    intros x p Hx. rewrite Hm3 in Hx. rewrite Hpl.
    destruct (decide (x = k)) as [->|Hne].
    + rewrite lookup_insert_eq in Hx. injection Hx as <-. exists v.
      rewrite lookup_insert_eq. split; [|done].
      replace (length (heap c)) with (length (payloads c))
        by (unfold payloads; by rewrite length_fmap).
      by rewrite list_lookup_middle.
    + rewrite lookup_insert_ne in Hx by done. rewrite Hm2 in Hx.
      assert (nodeMap_ c !! x = Some p) as Hx'.
      { destruct Hz as [->|(y & ->)]; [done|].
        by apply lookup_delete_Some in Hx as [_ Hx]. }
      destruct (Hent x p Hx') as (vx & Hpx & Hvx). exists vx.
      rewrite lookup_insert_ne by done. split; [|done].
      by apply lookup_app_l_Some.
Qed.

Lemma step_coherent_lfu o c c' m :
  step Key0 Value0 iteration_order o c = Some c' → coherent c m →
  coherent c' (match o with Put k v => <[k := v]> m | _ => m end).
Proof.
  destruct o as [k v|k|]; simpl; intros Hs Hcoh.
  - by eapply put_coherent.
  - apply bind_Some in Hs as ([v1 c1] & Hg & [= <-]). unfold get1 in Hg.
    apply bind_Some in Hg as ([[b v2] c2] & Hg & [= _ <-]). unfold get in Hg.
    destruct (nodeMap_ c !! k) as [node|]; [|by injection Hg as _ _ <-].
    apply bind_Some in Hg as (n & _ & Hg). apply bind_Some in Hg as (c3 & Hg & [= _ _ <-]).
    by eapply getInternal_coherent.
  - injection Hs as <-. split; [done|]. intros x p Hx. simpl in Hx.
    by rewrite lookup_empty in Hx.
Qed.

Lemma run_coherent_lfu os : ∀ c c' m,
  run Key0 Value0 iteration_order os c = Some c' → coherent c m →
  coherent c' (foldl (λ m o, match o with Put k v => <[k := v]> m | _ => m end) m os).
Proof.
  induction os as [|o os IH]; intros c c' m Hr Hc; simpl in *.
  - by injection Hr as <-.
  - apply bind_Some in Hr as (c1 & Hs & Hr).
    eapply IH; [exact Hr|]. by eapply step_coherent_lfu.
Qed.

(** X13.  A hit of the LFU engine returns the value written last.  After
    every sequence of [put], [get] and [purge] calls on a new cache that
    stays within defined behaviour, a two-argument [get] that finds its key
    returns the value of the last [put] of that key. *)
Theorem lfu_hit_returns_last_put capacity maxAverageNum curTotalNum0 os c k v0 v c' :
  run Key0 Value0 iteration_order os (make capacity maxAverageNum curTotalNum0) = Some c →
  get Key0 Value0 iteration_order k v0 c = Some (true, v, c') →
  written os !! k = Some v.
Proof.
  intros Hr Hg.
  assert (coherent c (written os)) as (_ & Hent).
  { eapply run_coherent_lfu; [exact Hr|]. split; [done|].
    intros x p Hx. simpl in Hx. by rewrite lookup_empty in Hx. }
  unfold get in Hg. destruct (nodeMap_ c !! k) as [node|] eqn:Hk; [|done].
  destruct (Hent k node Hk) as (v1 & Hp & Hv).
  apply bind_Some in Hg as (n & Hn & Hg). apply bind_Some in Hg as (c3 & _ & [= <- _]).
  unfold payloads in Hp. rewrite list_lookup_fmap, Hn in Hp. injection Hp as _ ->.
  done.
Qed.

(** *** A capacity that is not positive *)

(** X14.  A capacity of 0 or less disables the LFU engine.  On a new cache
    of capacity [<= 0] every sequence of [put], [get] and [purge] calls is
    defined and leaves the cache exactly as constructed, and every [get]
    is a miss that returns the default value. *)
Theorem nonpositive_capacity_inert capacity maxAverageNum curTotalNum0 os k :
  capacity ≤ 0 →
  let c := make (Key:=Key) (Value:=Value) capacity maxAverageNum curTotalNum0 in
  run Key0 Value0 iteration_order os c = Some c ∧
  get1 Key0 Value0 iteration_order k c = Some (Value0, c).
Proof.
  intros Hcap c.
  assert (∀ x, get1 Key0 Value0 iteration_order x c = Some (Value0, c)) as Hget.
  { intros x. unfold get1. by rewrite get_absent. }
  split; [|done]. induction os as [|[x v|x|] os IH]; simpl; [done|..].
  - unfold put. simpl. rewrite decide_True by done. done.
  - rewrite Hget. done.
  - done.
Qed.

(** *** The first eviction *)

Lemma store_lists p f c c' :
  store p f c = Some c' → freqToFreqList_ c' = freqToFreqList_ c.
Proof. unfold store. intros Hs. by apply bind_Some in Hs as (n & _ & [= <-]). Qed.

Lemma Freqlist_addNode_lists l node c c' :
  Freqlist_addNode l node c = Some c' → freqToFreqList_ c' = freqToFreqList_ c.
Proof.
  unfold Freqlist_addNode. intros Ha.
  apply bind_Some in Ha as (t & _ & Ha). apply bind_Some in Ha as (c1 & H1 & Ha).
  apply bind_Some in Ha as (c2 & H2 & Ha). apply bind_Some in Ha as (t2 & _ & Ha).
  apply bind_Some in Ha as (last & _ & Ha). apply bind_Some in Ha as (c3 & H3 & H4).
  apply store_lists in H1, H2, H3, H4. congruence.
Qed.

Lemma addToFreqList_lists node n c c' f :
  addToFreqList Key0 Value0 node c = Some c' → heap c !! node = Some n → f ≠ freq n →
  freqToFreqList_ c' !! f = freqToFreqList_ c !! f.
Proof.
  unfold addToFreqList. intros Ha Hn Hf. rewrite Hn in Ha. simpl in Ha.
  apply bind_Some in Ha as (l & _ & Ha). apply Freqlist_addNode_lists in Ha.
  rewrite Ha. destruct (freqToFreqList_ c !! freq n); [done|]. simpl.
  by rewrite lookup_insert_ne.
Qed.

Lemma puts_beyond_capacity (kvs : list (Key * Value)) : ∀ c,
  0 < capacity_ c ≤ INT_MAX →
  minFreq_ c = INT8_MAX → freqToFreqList_ c !! INT8_MAX = None →
  NoDup kvs.*1 → (∀ x, x ∈ kvs.*1 → nodeMap_ c !! x = None) →
  Z.of_nat (size (nodeMap_ c)) ≤ capacity_ c →
  capacity_ c < Z.of_nat (size (nodeMap_ c)) + Z.of_nat (length kvs) →
  run Key0 Value0 iteration_order ((λ kv, Put kv.1 kv.2) <$> kvs) c = None.
Proof.
  induction kvs as [|[k v] kvs IH]; intros c Hcap Hmin Hl Hnd Hnew Hsz Hlen; simpl in *.
  { lia. }
  apply NoDup_cons in Hnd as [Hk Hnd].
  assert (to_size_t (capacity_ c) = capacity_ c) as Hst.
  { apply to_size_t_small. unfold INT_MAX, SIZE_WIDTH in *. lia. }
  unfold put. rewrite decide_False by lia.
  rewrite (Hnew k) by by left.
  unfold putInternal. simpl. rewrite Hst.
  destruct (decide (capacity_ c ≤ Z.of_nat (size (nodeMap_ c)))) as [Hfull|Hroom].
  { unfold kickOut. simpl. by rewrite Hmin, Hl. }
  simpl.
  match goal with |- (?a ≫= _) = None => destruct a as [c'|] eqn:Ha; [|done] end.
  simpl.
  pose proof (addToFreqList_minFreq _ _ _ _ _ Ha) as Hmin'.
  pose proof (addToFreqList_lists _ (Node_new k v) _ _ INT8_MAX Ha) as Hl'.
  apply addToFreqList_quiet in Ha as ((Hc' & _ & _ & Hm') & _). simpl in *.
  apply IH.
  - by rewrite Hc'.
  - by rewrite Hmin'.
  - rewrite Hl'; [done| |done]. by rewrite list_lookup_middle.
  - done.
  - intros x Hx. rewrite Hm'. rewrite lookup_insert_ne; [by apply Hnew; right|].
    by intros <-.
  - rewrite Hm', Hc'. rewrite map_size_insert_None by (by apply Hnew; left). lia.
  - rewrite Hm', Hc'. rewrite map_size_insert_None by (by apply Hnew; left). lia.
Qed.

(** X15.  The first eviction is undefined.  On a new cache of capacity
    [0 < capacity <= INT_MAX], a sequence of [put] calls on more distinct
    keys than the capacity is undefined: no [put] of a new key writes
    [minFreq_], which is still [INT8_MAX] when the cache is full, and
    [kickOut] dereferences the null pointer it finds in
    [freqToFreqList_[minFreq_]]. *)
Theorem first_eviction_undefined capacity maxAverageNum curTotalNum0
    (kvs : list (Key * Value)) :
  0 < capacity ≤ INT_MAX → NoDup kvs.*1 → capacity < Z.of_nat (length kvs) →
  run Key0 Value0 iteration_order ((λ kv, Put kv.1 kv.2) <$> kvs)
    (make capacity maxAverageNum curTotalNum0) = None.
Proof.
  intros Hcap Hnd Hlen. apply puts_beyond_capacity; simpl; try done.
  rewrite map_size_empty. lia.
Qed.

End lfu_entries_facts.

Section lfu_entries_runs.
Import Lfu LfuEntries.

(** Capacity 2: key 1 is written twice and read. *)
Lemma lfu_hit_returns_last_put_witness :
  ∃ c c',
    run 0 "" map_to_list [Put 1 "A"; Put 2 "B"; Put 1 "C"] (make 2 10 0) = Some c ∧
    get 0 "" map_to_list 1 "" c = Some (true, "C", c') ∧
    written [Put 1 "A"; Put 2 "B"; Put 1 "C"] !! 1 = Some "C".
Proof.
  let r := eval vm_compute in
    (run 0 "" map_to_list [Put 1 "A"; Put 2 "B"; Put 1 "C"] (make 2 10 0)) in
  match r with Some ?s => pose (c := s) end.
  let r := eval vm_compute in (get 0 "" map_to_list 1 "" c) in
  match r with Some (_, _, ?s) => pose (c' := s) end.
  assert (run 0 "" map_to_list [Put 1 "A"; Put 2 "B"; Put 1 "C"] (make 2 10 0) = Some c)
    as Hr by (vm_compute; reflexivity).
  assert (get 0 "" map_to_list 1 "" c = Some (true, "C", c')) as Hg
    by (vm_compute; reflexivity).
  exists c, c'. split; [exact Hr|]. split; [exact Hg|].
  exact (lfu_hit_returns_last_put 0 "" map_to_list 2 10 0
           [Put 1 "A"; Put 2 "B"; Put 1 "C"] c 1 "" "C" c' Hr Hg).
Defined.

(** Capacity 0. *)
Lemma nonpositive_capacity_inert_witness :
  0 ≤ 0 ∧
  run 0 "" map_to_list [Put 1 "A"; Get 1; Purge; Put 2 "B"] (make 0 10 0)
    = Some (make 0 10 0) ∧
  get1 0 "" map_to_list 1 (make 0 10 0) = Some ("", make 0 10 0).
Proof.
  assert (0 ≤ 0) as Hcap by lia. split; [exact Hcap|].
  exact (nonpositive_capacity_inert 0 "" map_to_list 0 10 0
           [Put 1 "A"; Get 1; Purge; Put 2 "B"] 1 Hcap).
Defined.

(** Capacity 2 and three keys. *)
Lemma first_eviction_undefined_witness :
  0 < 2 ≤ INT_MAX ∧ NoDup [(1, "A"); (2, "B"); (3, "C")].*1 ∧
  2 < Z.of_nat (length [(1, "A"); (2, "B"); (3, "C")]) ∧
  run 0 "" map_to_list [Put 1 "A"; Put 2 "B"; Put 3 "C"] (make 2 10 0) = None.
Proof.
  assert (0 < 2 ≤ INT_MAX) as Hcap by (unfold INT_MAX; lia).
  assert (NoDup [(1, "A"); (2, "B"); (3, "C")].*1) as Hnd by compute_done.
  assert (2 < Z.of_nat (length [(1, "A"); (2, "B"); (3, "C")])) as Hlen by (simpl; lia).
  split; [exact Hcap|]. split; [exact Hnd|]. split; [exact Hlen|].
  exact (first_eviction_undefined 0 "" map_to_list 2 10 0
           [(1, "A"); (2, "B"); (3, "C")] Hcap Hnd Hlen).
Defined.

End lfu_entries_runs.

(** ** The LFU engine: no null pointer is followed when nothing is evicted *)

Section lfu_safety_facts.
Import Lfu LfuSafety.
Context {Key : Type} `{Countable Key} {Value : Type}.
Context (Key0 : Key) (Value0 : Value).
Context (iteration_order : gmap Key nat → list (Key * nat)).
Implicit Types (c : @MyLfuCache Key _ _ Value) (l : Freqlist) (k x : Key) (v : Value)
  (o : @call Key Value) (os : list (@call Key Value)) (busy : option nat) (b : Z).

Lemma int_result_in_range z : INT_MIN ≤ z ≤ INT_MAX → int_result z = Some z.
Proof. intros Hz. unfold int_result. by rewrite decide_True. Qed.

Lemma configured_refl c : configured c c.
Proof. by split. Qed.

Lemma configured_trans c1 c2 c3 : configured c1 c2 → configured c2 c3 → configured c1 c3.
Proof. intros [? ?] [? ?]. split; congruence. Qed.

Lemma safe_mono c busy b b' : b ≤ b' → safe c busy b → safe c busy b'.
Proof.
  intros Hb (Hl & Hls & Hr & Hm). split; [|split; [|split]].
  - intros p n Hp. destruct (Hl p n Hp) as (? & ? & ?). repeat split; try done; lia.
  - intros f l Hf. destruct (Hls f l Hf) as (? & ? & ?). repeat split; try done; lia.
  - done.
  - lia.
Qed.

Lemma safe_idle c busy b : safe c None b → safe c busy b.
Proof.
  intros (Hl & Hls & Hr & Hm). split; [done|]. split; [done|]. split; [|done].
  intros k p Hk. destruct (Hr k p Hk) as (Ht & n & Hn & Hf).
  split; [done|]. exists n. split; [done|]. intros _. by apply Hf.
Qed.

Lemma rewritten_refl c : rewritten c c.
Proof. by repeat split. Qed.

Lemma rewritten_trans c1 c2 c3 : rewritten c1 c2 → rewritten c2 c3 → rewritten c1 c3.
Proof.
  intros ([? ?] & ? & ? & ? & ? & ?) ([? ?] & ? & ? & ? & ? & ?).
  repeat split; congruence.
Qed.

Lemma rewritten_valid c c' p :
  rewritten c c' → is_Some (heap c !! p) → is_Some (heap c' !! p).
Proof.
  intros (_ & _ & _ & _ & _ & Hlen) Hp. apply lookup_lt_is_Some. rewrite Hlen.
  by apply lookup_lt_is_Some.
Qed.

Lemma rewritten_valid_ptr c c' q : rewritten c c' → valid_ptr c q → valid_ptr c' q.
Proof. intros (_ & _ & _ & _ & _ & Hlen) Hq p Hp. rewrite Hlen. by apply Hq. Qed.

Lemma rewritten_is_tail c c' p : rewritten c c' → is_tail c' p → is_tail c p.
Proof. intros (_ & _ & Hl & _) (f & l & Hf & Ht). exists f, l. by rewrite <- Hl. Qed.

Lemma safe_valid_ptr c busy b p n q :
  safe c busy b → heap c !! p = Some n → (prev n = Some q ∨ next n = Some q) →
  is_Some (heap c !! q).
Proof.
  intros (Hl & _) Hp Hq. destruct (Hl p n Hp) as (Hpv & Hnx & _).
  apply lookup_lt_is_Some. destruct Hq as [Hq|Hq]; [by apply Hpv|by apply Hnx].
Qed.

Lemma valid_ptr_Some c p : is_Some (heap c !! p) → valid_ptr c (Some p).
Proof. intros Hp q [= <-]. by apply lookup_lt_is_Some. Qed.

Lemma valid_ptr_None c : valid_ptr c None.
Proof. by intros q. Qed.

Lemma lfu_store_is_Some p f c : is_Some (heap c !! p) → ∃ c', store p f c = Some c'.
Proof. unfold store. intros [n ->]. by eexists. Qed.

(** A write through a pointer keeps the store safe when it writes valid
    pointers and a frequency in range, keeps a predecessor in a tail
    sentinel, and changes the frequency of the busy node only. *)
Lemma store_safe p f c c' busy b :
  safe c busy b → store p f c = Some c' →
  (∀ n, heap c !! p = Some n →
     valid_ptr c (prev (f n)) ∧ valid_ptr c (next (f n)) ∧ 1 ≤ freq (f n) ≤ b ∧
     (is_tail c p → is_Some (prev (f n))) ∧
     (freq (f n) = freq n ∨ busy = Some p)) →
  safe c' busy b ∧ configured c c' ∧ nodeMap_ c' = nodeMap_ c ∧
  freqToFreqList_ c' = freqToFreqList_ c ∧ minFreq_ c' = minFreq_ c ∧
  curTotalNum_ c' = curTotalNum_ c ∧ length (heap c') = length (heap c).
Proof.
  intros (Hl & Hls & Hr & Hm) Hs Hf. unfold store in Hs.
  apply bind_Some in Hs as (n & Hn & [= <-]). simpl.
  destruct (Hf n Hn) as (Hpv & Hnx & Hfq & Htl & Hbusy).
  assert (length (<[p:=f n]> (heap c)) = length (heap c)) as Hlen by (by rewrite length_insert).
  split; [|by repeat split]. split; [|split; [|split]]; simpl.
  - intros q m Hq. unfold valid_ptr. simpl. rewrite Hlen.
    destruct (decide (q = p)) as [->|Hne].
    + rewrite list_lookup_insert_eq in Hq by by eapply lookup_lt_Some.
      injection Hq as <-. done.
    + rewrite list_lookup_insert_ne in Hq by done. by apply (Hl q m).
  - intros g l Hg. destruct (Hls g l Hg) as (Hb & Hhd & t & Ht & Hpt).
    split; [done|]. split.
    + apply lookup_lt_is_Some. rewrite Hlen. by apply lookup_lt_is_Some.
    + destruct (decide (tail_ l = p)) as [Heq|Hne].
      * exists (f n). rewrite Heq.
        rewrite list_lookup_insert_eq by by eapply lookup_lt_Some.
        split; [done|]. apply Htl. by exists g, l.
      * exists t. by rewrite list_lookup_insert_ne.
  - intros k q Hk. destruct (Hr k q Hk) as (Hnt & m & Hq & Hlist).
    split; [done|].
    destruct (decide (q = p)) as [->|Hne].
    + exists (f n). rewrite list_lookup_insert_eq by by eapply lookup_lt_Some.
      split; [done|]. intros Hb. rewrite Hn in Hq. injection Hq as <-.
      destruct Hbusy as [->|Hbp]; [by apply Hlist|done].
    + exists m. by rewrite list_lookup_insert_ne.
  - done.
Qed.

Lemma store_safe_rewritten p f c c' busy b :
  safe c busy b → store p f c = Some c' →
  (∀ n, heap c !! p = Some n →
     valid_ptr c (prev (f n)) ∧ valid_ptr c (next (f n)) ∧ 1 ≤ freq (f n) ≤ b ∧
     (is_tail c p → is_Some (prev (f n))) ∧
     (freq (f n) = freq n ∨ busy = Some p)) →
  safe c' busy b ∧ rewritten c c'.
Proof.
  intros Hs Hst Hf.
  destruct (store_safe p f c c' busy b Hs Hst Hf) as (? & ? & ? & ? & ? & ? & ?).
  split; [done|]. split; [done|]. by repeat split.
Qed.

Lemma store_set_prev_safe p q c busy b :
  safe c busy b → is_Some (heap c !! p) → valid_ptr c q → (is_tail c p → is_Some q) →
  ∃ c', store p (set_prev q) c = Some c' ∧ safe c' busy b ∧ rewritten c c'.
Proof.
  intros Hs Hp Hq Ht. destruct (lfu_store_is_Some p (set_prev q) c Hp) as (c' & Hst).
  exists c'. split; [done|]. apply (store_safe_rewritten p (set_prev q)); [done..|].
  intros n Hn. destruct Hs as (Hl & _). destruct (Hl p n Hn) as (_ & Hnx & Hf).
  simpl. split; [done|]. split; [done|]. split; [lia|]. split; [done|by left].
Qed.

Lemma store_set_next_safe p q c busy b :
  safe c busy b → is_Some (heap c !! p) → valid_ptr c q →
  ∃ c', store p (set_next q) c = Some c' ∧ safe c' busy b ∧ rewritten c c'.
Proof.
  intros Hs Hp Hq. destruct (lfu_store_is_Some p (set_next q) c Hp) as (c' & Hst).
  exists c'. split; [done|]. apply (store_safe_rewritten p (set_next q)); [done..|].
  intros n Hn. pose proof Hs as (Hl & Hls & _). destruct (Hl p n Hn) as (Hpv & _ & Hf).
  simpl. split; [done|]. split; [done|]. split; [lia|]. split; [|by left].
  intros (g & l & Hg & Htl). destruct (Hls g l Hg) as (_ & _ & t & Ht & Hpt).
  rewrite Htl, Hn in Ht. by injection Ht as <-.
Qed.

Lemma store_set_freq_safe p f c b :
  safe c (Some p) b → is_Some (heap c !! p) → 1 ≤ f ≤ b →
  ∃ c', store p (set_freq f) c = Some c' ∧ safe c' (Some p) b ∧ rewritten c c'.
Proof.
  intros Hs Hp Hf. destruct (lfu_store_is_Some p (set_freq f) c Hp) as (c' & Hst).
  exists c'. split; [done|]. apply (store_safe_rewritten p (set_freq f)); [done..|].
  intros n Hn. pose proof Hs as (Hl & Hls & _). destruct (Hl p n Hn) as (Hpv & Hnx & _).
  simpl. split; [done|]. split; [done|]. split; [lia|]. split; [|by right].
  intros (g & l & Hg & Htl). destruct (Hls g l Hg) as (_ & _ & t & Ht & Hpt).
  rewrite Htl, Hn in Ht. by injection Ht as <-.
Qed.

Lemma store_set_value_safe p v c busy b :
  safe c busy b → is_Some (heap c !! p) →
  ∃ c', store p (set_value v) c = Some c' ∧ safe c' busy b ∧ rewritten c c'.
Proof.
  intros Hs Hp. destruct (lfu_store_is_Some p (set_value v) c Hp) as (c' & Hst).
  exists c'. split; [done|]. apply (store_safe_rewritten p (set_value v)); [done..|].
  intros n Hn. pose proof Hs as (Hl & Hls & _). destruct (Hl p n Hn) as (Hpv & Hnx & ?).
  simpl. split; [done|]. split; [done|]. split; [lia|]. split; [|by left].
  intros (g & l & Hg & Htl). destruct (Hls g l Hg) as (_ & _ & t & Ht & Hpt).
  rewrite Htl, Hn in Ht. by injection Ht as <-.
Qed.

(** *** [Freqlist::addNode] and [Freqlist::remove] *)

Lemma Freqlist_addNode_safe f l node c busy b :
  safe c busy b → freqToFreqList_ c !! f = Some l →
  is_Some (heap c !! node) → ¬ is_tail c node →
  ∃ c', Freqlist_addNode l node c = Some c' ∧ safe c' busy b ∧ rewritten c c'.
Proof.
  intros Hs Hf Hnode Hnt. pose proof Hs as (Hl & Hls & _).
  destruct (Hls f l Hf) as (_ & _ & t & Ht & last & Hlast).
  assert (is_Some (heap c !! tail_ l)) as Htv by by eexists.
  unfold Freqlist_addNode. rewrite Ht. simpl.
  destruct (store_set_prev_safe node (prev t) c busy b) as (c1 & -> & Hs1 & R1);
    [done|done|by destruct (Hl _ _ Ht)|done|]. simpl.
  destruct (store_set_next_safe node (Some (tail_ l)) c1 busy b) as (c2 & -> & Hs2 & R2);
    [done|by eapply rewritten_valid|apply valid_ptr_Some; by eapply rewritten_valid|]. simpl.
  pose proof (rewritten_trans _ _ _ R1 R2) as R12.
  pose proof Hs2 as (Hl2 & Hls2 & _).
  assert (freqToFreqList_ c2 !! f = Some l) as Hf2.
  { destruct R12 as (_ & _ & -> & _). done. }
  destruct (Hls2 f l Hf2) as (_ & _ & t2 & Ht2 & last2 & Hlast2).
  rewrite Ht2. simpl. rewrite Hlast2. simpl.
  destruct (store_set_next_safe last2 (Some node) c2 busy b) as (c3 & -> & Hs3 & R3);
    [done|by eapply (safe_valid_ptr c2 busy b (tail_ l) t2); eauto
    |apply valid_ptr_Some; by eapply rewritten_valid|]. simpl.
  pose proof (rewritten_trans _ _ _ R12 R3) as R13.
  destruct (store_set_prev_safe (tail_ l) (Some node) c3 busy b) as (c4 & -> & Hs4 & R4);
    [done|by eapply rewritten_valid|apply valid_ptr_Some; by eapply rewritten_valid|done|].
  exists c4. split; [done|]. split; [done|]. by eapply rewritten_trans.
Qed.

Lemma Freqlist_remove_safe l node c busy b :
  safe c busy b → is_Some (heap c !! node) → ¬ is_tail c node →
  ∃ c', Freqlist_remove l node c = Some c' ∧ safe c' busy b ∧ rewritten c c'.
Proof.
  intros Hs [n Hn] Hnt. unfold Freqlist_remove. rewrite Hn. simpl.
  destruct (prev n) as [pv|] eqn:Hpv; [|exists c; by auto using rewritten_refl].
  destruct (next n) as [nx|] eqn:Hnx; [|exists c; by auto using rewritten_refl].
  assert (is_Some (heap c !! pv)) as Hpvv by (eapply safe_valid_ptr; eauto).
  assert (is_Some (heap c !! nx)) as Hnxv by (eapply safe_valid_ptr; eauto).
  destruct (store_set_next_safe pv (Some nx) c busy b) as (c1 & Hst1 & Hs1 & R1);
    [done|done|by apply valid_ptr_Some|]. rewrite Hst1. simpl.
  assert (∃ n1, heap c1 !! node = Some n1 ∧ prev n1 = Some pv ∧ next n1 = Some nx)
    as (n1 & Hn1 & Hpv1 & Hnx1).
  { unfold store in Hst1. apply bind_Some in Hst1 as (m & Hm & [= <-]). simpl.
    destruct (decide (node = pv)) as [->|Hne].
    - rewrite list_lookup_insert_eq by by eapply lookup_lt_Some.
      rewrite Hn in Hm. injection Hm as <-. by eexists.
    - rewrite list_lookup_insert_ne by done. by exists n. }
  rewrite Hn1. simpl. rewrite Hnx1. simpl. rewrite Hpv1.
  destruct (store_set_prev_safe nx (Some pv) c1 busy b) as (c2 & -> & Hs2 & R2);
    [done|by eapply rewritten_valid
    |apply valid_ptr_Some; by eapply rewritten_valid|by eexists|]. simpl.
  pose proof (rewritten_trans _ _ _ R1 R2) as R12.
  destruct (store_set_prev_safe node None c2 busy b) as (c3 & -> & Hs3 & R3);
    [done|eapply rewritten_valid; [exact R12|by eexists]|apply valid_ptr_None| |].
  { intros Ht. exfalso. apply Hnt. by eapply rewritten_is_tail. }
  simpl. pose proof (rewritten_trans _ _ _ R12 R3) as R13.
  destruct (store_set_next_safe node None c3 busy b) as (c4 & -> & Hs4 & R4);
    [done|eapply rewritten_valid; [exact R13|by eexists]|apply valid_ptr_None|].
  exists c4. split; [done|]. split; [done|]. by eapply rewritten_trans.
Qed.

(** *** New nodes and new lists *)

Lemma safe_append (ns : list (@Node Key Value)) c busy b :
  safe c busy b →
  (∀ n, n ∈ ns →
     (∀ p, prev n = Some p → (p < length (heap c) + length ns)%nat) ∧
     (∀ p, next n = Some p → (p < length (heap c) + length ns)%nat) ∧
     1 ≤ freq n ≤ b) →
  safe (set_heap (heap c ++ ns) c) busy b.
Proof.
  intros (Hl & Hls & Hr & Hm) Hns. split; [|split; [|split]]; simpl.
  - intros p n Hp. unfold valid_ptr. simpl. rewrite length_app.
    apply lookup_app_Some in Hp as [Hp|[_ Hp]].
    + destruct (Hl p n Hp) as (Hpv & Hnx & Hf). split; [|split; [|done]].
      * intros q Hq. specialize (Hpv q Hq). lia.
      * intros q Hq. specialize (Hnx q Hq). lia.
    + apply list_elem_of_lookup_2 in Hp. by apply Hns.
  - intros f l Hf. destruct (Hls f l Hf) as (Hb & [hd Hhd] & t & Ht & Hpt).
    split; [done|]. split.
    + exists hd. by apply lookup_app_l_Some.
    + exists t. split; [by apply lookup_app_l_Some|done].
  - intros k p Hk. destruct (Hr k p Hk) as (Hnt & n & Hn & Hlist).
    split; [done|]. exists n. split; [by apply lookup_app_l_Some|done].
  - done.
Qed.

Lemma safe_new_list f c busy b :
  safe c busy b → freqToFreqList_ c !! f = None → 1 ≤ f ≤ b →
  safe (set_freqToFreqList
          (<[f := (Freqlist_new Key0 Value0 f c).1]>
             (freqToFreqList_ (Freqlist_new Key0 Value0 f c).2))
          (Freqlist_new Key0 Value0 f c).2) busy b.
Proof.
  intros Hs Hnone Hf. unfold Freqlist_new. simpl.
  set (h := length (heap c)).
  set (ns := [set_next (Some (S h)) (Node_default Key0 Value0);
              set_prev (Some h) (Node_default Key0 Value0)]).
  assert (safe (set_heap (heap c ++ ns) c) busy b) as (Hl & Hls & Hr & Hm).
  { apply safe_append; [done|]. intros n Hn. unfold ns in Hn.
    apply elem_of_cons in Hn as [->|Hn]; [|apply list_elem_of_singleton in Hn as ->];
      simpl; (split; [|split; [|lia]]); intros p Hp; try done;
      injection Hp as <-; fold h; lia. }
  simpl in *. split; [|split; [|split]]; simpl.
  - done.
  - intros g l Hg. apply lookup_insert_Some in Hg as [[<- <-]|[Hne Hg]].
    + simpl. split; [done|]. split.
      * apply lookup_lt_is_Some. rewrite length_app. simpl. fold h. lia.
      * exists (set_prev (Some h) (Node_default Key0 Value0)). split; [|by eexists].
        unfold ns. fold h.
        replace (S h) with (length (heap c) + 1)%nat by (unfold h; lia).
        rewrite lookup_app_r by lia.
        by replace (length (heap c) + 1 - length (heap c))%nat with 1%nat by lia.
    + by apply Hls.
  - intros k p Hk. destruct (Hr k p Hk) as (Hnt & n & Hn & Hlist).
    split.
    + intros (g & l & Hg & Htl). simpl in Hg.
      apply lookup_insert_Some in Hg as [[<- <-]|[Hne Hg]].
      * simpl in Htl. destruct Hs as (_ & _ & Hr0 & _).
        destruct (Hr0 k p Hk) as (_ & n0 & Hn0 & _).
        apply lookup_lt_Some in Hn0. fold h in Htl. lia.
      * apply Hnt. by exists g, l.
    + exists n. split; [done|]. intros Hb. specialize (Hlist Hb).
      destruct (decide (freq n = f)) as [->|Hne].
      * rewrite lookup_insert_eq. by eexists.
      * by rewrite lookup_insert_ne.
  - done.
Qed.

Lemma safe_settle c node b :
  safe c (Some node) b →
  (∀ n, heap c !! node = Some n → is_Some (freqToFreqList_ c !! freq n)) →
  safe c None b.
Proof.
  intros (Hl & Hls & Hr & Hm) Hnode. split; [done|]. split; [done|]. split; [|done].
  intros k p Hk. destruct (Hr k p Hk) as (Hnt & n & Hn & Hlist).
  split; [done|]. exists n. split; [done|]. intros _.
  destruct (decide (p = node)) as [->|Hne]; [by apply Hnode|].
  apply Hlist. congruence.
Qed.

(** *** [removeFromFreqList] and [addToFreqList] *)

Lemma removeFromFreqList_safe node n c busy b :
  safe c busy b → heap c !! node = Some n →
  is_Some (freqToFreqList_ c !! freq n) → ¬ is_tail c node →
  ∃ c', removeFromFreqList node c = Some c' ∧ safe c' busy b ∧ rewritten c c'.
Proof.
  intros Hs Hn [l Hl] Hnt. unfold removeFromFreqList. rewrite Hn. simpl.
  rewrite Hl. simpl. apply Freqlist_remove_safe; [done|by eexists|done].
Qed.

Lemma Freqlist_addNode_settles l node n c b :
  safe c (Some node) b → heap c !! node = Some n →
  freqToFreqList_ c !! freq n = Some l → ¬ is_tail c node →
  ∃ c', Freqlist_addNode l node c = Some c' ∧ safe c' None b ∧
        freqToFreqList_ c' = freqToFreqList_ c.
Proof.
  intros Hs Hn Hl Hnt.
  destruct (Freqlist_addNode_safe (freq n) l node c (Some node) b) as (c' & Ha & Hs' & R');
    [done|done|by eexists|done|].
  exists c'. split; [done|]. split.
  - apply (safe_settle c' node b Hs'). intros n' Hn'.
    apply Freqlist_addNode_quiet in Ha as [_ (l0 & E & _)].
    assert (freq n' = freq n) as ->.
    { assert (freqs c' !! node = Some (freq n)) as Hfn.
      { rewrite E. apply lookup_app_l_Some. unfold freqs.
        by rewrite list_lookup_fmap, Hn. }
      unfold freqs in Hfn. rewrite list_lookup_fmap, Hn' in Hfn. by injection Hfn. }
    destruct R' as (_ & _ & -> & _). by eexists.
  - by destruct R' as (_ & _ & -> & _).
Qed.

(** [addToFreqList] puts the busy node into the list of its frequency,
    which it creates when there is none. *)
Lemma addToFreqList_safe node c b :
  safe c (Some node) b → is_Some (heap c !! node) → ¬ is_tail c node →
  ∃ c', addToFreqList Key0 Value0 node c = Some c' ∧ safe c' None b ∧
        freqToFreqList_ c ⊆ freqToFreqList_ c'.
Proof.
  intros Hs [n Hn] Hnt. unfold addToFreqList. rewrite Hn. simpl.
  pose proof Hs as (Hl & _). destruct (Hl node n Hn) as (_ & _ & Hf).
  destruct (freqToFreqList_ c !! freq n) as [l|] eqn:Hlist.
  - rewrite Hlist. simpl.
    destruct (Freqlist_addNode_settles l node n c b) as (c' & Ha & Hs' & Hls'); [done..|].
    exists c'. split; [done|]. split; [done|]. by rewrite Hls'.
  - pose proof (safe_new_list (freq n) c (Some node) b Hs Hlist Hf) as Hs1.
    unfold Freqlist_new in *. simpl in *. rewrite lookup_insert_eq. simpl.
    match type of Hs1 with safe ?c1 _ _ =>
      destruct (Freqlist_addNode_settles
                  {| freq_ := freq n; head_ := length (heap c); tail_ := S (length (heap c)) |}
                  node n c1 b) as (c' & Ha & Hs' & Hls')
    end.
    + done.
    + simpl. by apply lookup_app_l_Some.
    + simpl. by rewrite lookup_insert_eq.
    + intros (g & l & Hg & Htl). simpl in Hg.
      apply lookup_insert_Some in Hg as [[<- <-]|[Hne Hg]].
      * simpl in Htl. apply lookup_lt_Some in Hn. lia.
      * apply Hnt. by exists g, l.
    + exists c'. split; [done|]. split; [done|]. rewrite Hls'. simpl.
      by apply insert_subseteq.
Qed.

(** *** The counters and [minFreq_] *)

Lemma safe_fields c c' busy b :
  heap c' = heap c → freqToFreqList_ c' = freqToFreqList_ c →
  nodeMap_ c' = nodeMap_ c → 1 ≤ minFreq_ c' ≤ Z.max INT8_MAX b →
  safe c busy b → safe c' busy b.
Proof.
  intros Hh Hls Hm Hmin (Hl & Hlo & Hr & _). unfold safe, valid_ptr, is_tail in *.
  rewrite Hh, Hls, Hm. done.
Qed.

Lemma scan_minFreq_safe (ls : list (Z * Freqlist)) c busy b : ∀ m,
  safe c busy b → (∀ f l, (f, l) ∈ ls → freqToFreqList_ c !! f = Some l) →
  ∃ r, scan_minFreq ls m c = Some r ∧ (1 ≤ m → 1 ≤ r).
Proof.
  induction ls as [|[f l] ls IH]; intros m Hs Hin; simpl.
  - by exists m.
  - pose proof Hs as (_ & Hls & _).
    destruct (Hls f l) as (Hf & [hd Hhd] & _); [apply Hin; by left|].
    unfold isEmpty. rewrite Hhd. simpl.
    destruct (IH (if bool_decide (next hd = Some (tail_ l)) then m else Z.min m f) Hs)
      as (r & -> & Hr).
    { intros g l' Hg. apply Hin. by right. }
    exists r. split; [done|]. intros Hm. apply Hr. case_bool_decide; lia.
Qed.

Lemma updateMinFreq_safe c b :
  safe c None b →
  ∃ c', updateMinFreq c = Some c' ∧ safe c' None b ∧ settled c c'.
Proof.
  intros Hs. unfold updateMinFreq.
  destruct (scan_minFreq_safe (map_to_list (freqToFreqList_ c)) c None b INT8_MAX Hs)
    as (r & Hr & Hlow).
  { intros f l Hin. by apply elem_of_map_to_list. }
  rewrite Hr. simpl. eexists. split; [done|]. split; [|by repeat split].
  apply (safe_fields c); try done. simpl.
  apply scan_minFreq_le in Hr. specialize (Hlow ltac:(unfold INT8_MAX; lia)).
  unfold INT8_MAX in *. case_decide; lia.
Qed.

(** *** The rebalance *)

Lemma quot_2_bounds z : 0 ≤ z → 0 ≤ z `quot` 2 ≤ z.
Proof.
  intros Hz. rewrite Z.quot_div_nonneg by lia. split.
  - apply Z.div_pos; lia.
  - apply Z.div_le_upper_bound; lia.
Qed.

Lemma age_safe k node c b :
  safe c None b → nodeMap_ c !! k = Some node →
  0 ≤ maxAverageNum_ c ≤ INT_MAX → b ≤ INT_MAX →
  ∃ c', age Key0 Value0 node c = Some c' ∧ safe c' None b ∧ settled c c'.
Proof.
  intros Hs Hk HM Hb. pose proof Hs as (_ & _ & Hr & _).
  destruct (Hr k node Hk) as (Hnt & n & Hn & Hlist).
  destruct (removeFromFreqList_safe node n c None b) as (c1 & H1 & Hs1 & R1);
    [done|done|by apply Hlist|done|].
  assert (∃ c', age Key0 Value0 node c = Some c' ∧ safe c' None b) as (c' & Ha & Hs').
  { unfold age. rewrite H1. simpl.
    destruct (rewritten_valid c c1 node R1) as [n1 Hn1]; [by eexists|].
    rewrite Hn1. simpl. pose proof Hs1 as (Hl1 & _).
    destruct (Hl1 node n1 Hn1) as (_ & _ & Hf1).
    assert (maxAverageNum_ c1 = maxAverageNum_ c) as -> by by destruct R1 as ((_ & ->) & _).
    pose proof (quot_2_bounds (maxAverageNum_ c)) as Hq.
    unfold int_result. rewrite decide_True by (unfold INT_MIN, INT_MAX in *; lia). simpl.
    set (f := if decide (freq n1 - maxAverageNum_ c `quot` 2 < 1) then 1
              else freq n1 - maxAverageNum_ c `quot` 2).
    destruct (store_set_freq_safe node f c1 b) as (c2 & -> & Hs2 & R2);
      [by apply safe_idle|by eexists|unfold f; case_decide; lia|]. simpl.
    destruct (addToFreqList_safe node c2 b) as (c3 & -> & Hs3 & _).
    - done.
    - eapply rewritten_valid; [exact R2|by eexists].
    - intros Ht. apply Hnt. eapply rewritten_is_tail; [exact R1|].
      by eapply rewritten_is_tail.
    - by exists c3. }
  exists c'. split; [done|]. split; [done|]. by apply age_positive in Ha as [? _].
Qed.

Lemma age_all_safe (ns : list (Key * nat)) b : ∀ c,
  safe c None b → (∀ k node, (k, node) ∈ ns → nodeMap_ c !! k = Some node) →
  0 ≤ maxAverageNum_ c ≤ INT_MAX → b ≤ INT_MAX →
  ∃ c', age_all Key0 Value0 ns c = Some c' ∧ safe c' None b ∧ settled c c'.
Proof.
  induction ns as [|[k node] ns IH]; intros c Hs Hin HM Hb; simpl.
  - exists c. split; [done|]. split; [done|]. by repeat split.
  - destruct (age_safe k node c b) as (c1 & -> & Hs1 & S1); [done|apply Hin; by left|done..|].
    simpl. pose proof S1 as (_ & HM1 & _ & Hm1).
    destruct (IH c1) as (c' & -> & Hs' & S'); [done| |by rewrite HM1|done|].
    { intros k' node' Hin'. rewrite Hm1. apply Hin. by right. }
    exists c'. split; [done|]. split; [done|]. by eapply settled_trans.
Qed.

Lemma handleOverMaxAverageNum_safe c b :
  sound_order iteration_order → safe c None b → 0 ≤ maxAverageNum_ c ≤ INT_MAX → b ≤ INT_MAX →
  ∃ c', handleOverMaxAverageNum Key0 Value0 iteration_order c = Some c' ∧
        safe c' None b ∧ settled c c'.
Proof.
  intros Hord Hs HM Hb. unfold handleOverMaxAverageNum.
  case_decide; [exists c; split; [done|]; split; [done|]; by repeat split|].
  destruct (age_all_safe (iteration_order (nodeMap_ c)) b c) as (c1 & -> & Hs1 & S1);
    [done|by intros; apply Hord|done..|]. simpl.
  destruct (updateMinFreq_safe c1 b Hs1) as (c2 & -> & Hs2 & S2).
  exists c2. split; [done|]. split; [done|]. by eapply settled_trans.
Qed.

Lemma addFreqNum_safe c b :
  sound_order iteration_order → safe c None b → 0 ≤ maxAverageNum_ c ≤ INT_MAX → b ≤ INT_MAX →
  INT_MIN ≤ curTotalNum_ c + 1 ≤ INT_MAX →
  ∃ c', addFreqNum Key0 Value0 iteration_order c = Some c' ∧ safe c' None b ∧
        configured c c' ∧ nodeMap_ c' = nodeMap_ c ∧
        curTotalNum_ c' = curTotalNum_ c + 1.
Proof.
  intros Hord Hs HM Hb HT. unfold addFreqNum, int_result.
  rewrite decide_True by done. simpl.
  set (c1 := set_counts (curTotalNum_ c + 1)
               (average (curTotalNum_ c + 1) (nodeMap_ c)) c).
  assert (safe c1 None b) as Hs1.
  { apply (safe_fields c); try done. by destruct Hs as (_ & _ & _ & ?). }
  case_decide.
  - destruct (handleOverMaxAverageNum_safe c1 b) as (c' & -> & Hs' & (Hc & Hm & Ht & Hn));
      [done..|].
    exists c'. split; [done|]. split; [done|]. simpl in *. by repeat split.
  - exists c1. split; [done|]. split; [done|]. by repeat split.
Qed.

(** *** An access *)

Lemma getInternal_safe k node c b :
  sound_order iteration_order → safe c None b → nodeMap_ c !! k = Some node →
  0 ≤ maxAverageNum_ c ≤ INT_MAX → b + 1 ≤ INT_MAX →
  INT_MIN ≤ curTotalNum_ c + 1 ≤ INT_MAX →
  ∃ c', getInternal Key0 Value0 iteration_order node c = Some c' ∧
        safe c' None (b + 1) ∧ configured c c' ∧ nodeMap_ c' = nodeMap_ c ∧
        curTotalNum_ c' = curTotalNum_ c + 1.
Proof.
  intros Hord Hs Hk HM Hb HT. pose proof Hs as (_ & _ & Hr & Hmin).
  destruct (Hr k node Hk) as (Hnt & n & Hn & Hlist). specialize (Hlist ltac:(done)).
  unfold getInternal.
  destruct (removeFromFreqList_safe node n c None b) as (c1 & H1 & Hs1 & R1); [done..|].
  rewrite H1. simpl.
  assert (∃ n1, heap c1 !! node = Some n1 ∧ freq n1 = freq n) as (n1 & Hn1 & Hf1).
  { apply removeFromFreqList_quiet in H1 as [_ (l0 & E & _)].
    destruct (rewritten_valid c c1 node R1) as [n1 Hn1]; [by eexists|].
    exists n1. split; [done|].
    assert (freqs c1 !! node = Some (freq n)) as Hfn.
    { rewrite E. apply lookup_app_l_Some. unfold freqs. by rewrite list_lookup_fmap, Hn. }
    unfold freqs in Hfn. rewrite list_lookup_fmap, Hn1 in Hfn. by injection Hfn. }
  rewrite Hn1. simpl. pose proof Hs1 as (Hl1 & _).
  destruct (Hl1 node n1 Hn1) as (_ & _ & Hfb).
  rewrite (int_result_in_range (freq n1 + 1)) by (unfold INT_MIN, INT_MAX in *; lia). simpl.
  destruct (store_set_freq_safe node (freq n1 + 1) c1 (b + 1)) as (c2 & H2 & Hs2 & R2);
    [apply safe_idle; eapply safe_mono; [|exact Hs1]; lia|by eexists|lia|].
  rewrite H2. simpl.
  assert (¬ is_tail c2 node) as Hnt2.
  { intros Ht. apply Hnt. eapply rewritten_is_tail; [exact R1|].
    by eapply rewritten_is_tail. }
  destruct (addToFreqList_safe node c2 (b + 1)) as (c3 & H3 & Hs3 & Hsub);
    [done|eapply rewritten_valid; [exact R2|by eexists]|done|].
  rewrite H3. simpl.
  assert (settled c c3 ∧ minFreq_ c3 = minFreq_ c) as ((Hc3 & HM3 & HT3 & Hm3) & Hmin3).
  { pose proof (addToFreqList_minFreq _ _ _ _ _ H3) as Hmf.
    apply addToFreqList_quiet in H3 as [S3 _].
    destruct R1 as ((? & ?) & ? & ? & ? & ? & ?). destruct R2 as ((? & ?) & ? & ? & ? & ? & ?).
    destruct S3 as (? & ? & ? & ?). split; [repeat split|]; congruence. }
  assert (∃ n3, heap c3 !! node = Some n3 ∧ freq n3 = freq n + 1) as (n3 & Hn3 & Hf3).
  { apply addToFreqList_quiet in H3 as [_ (l0 & E & _)].
    apply store_set_freq in H2 as (_ & _ & E2).
    assert (freqs c3 !! node = Some (freq n1 + 1)) as Hfn.
    { rewrite E. apply lookup_app_l_Some. rewrite E2.
      apply list_lookup_insert_eq. unfold freqs. rewrite length_fmap.
      by eapply lookup_lt_Some. }
    unfold freqs in Hfn. rewrite list_lookup_fmap in Hfn.
    destruct (heap c3 !! node) as [n3|]; [|done]. injection Hfn as Hfn.
    exists n3. split; [done|]. lia. }
  rewrite Hn3. simpl.
  rewrite (int_result_in_range (minFreq_ c3 + 1)).
  2:{ rewrite Hmin3. unfold INT_MIN, INT_MAX, INT8_MAX in *. lia. }
  simpl.
  assert (∃ c4, (if decide (freq n3 = minFreq_ c3 + 1) then
                   l ← freqToFreqList_ c3 !! minFreq_ c3;
                   e ← isEmpty l c3;
                   if (e : bool) then Some (set_minFreq (minFreq_ c3 + 1) c3) else Some c3
                 else Some c3) = Some c4 ∧
                safe c4 None (b + 1) ∧ settled c3 c4) as (c4 & -> & Hs4 & S4).
  { case_decide as Hd; [|exists c3; split; [done|]; split; [done|]; by repeat split].
    assert (minFreq_ c3 = freq n) as Hmf by lia.
    destruct Hlist as [l Hl].
    assert (freqToFreqList_ c3 !! minFreq_ c3 = Some l) as ->.
    { rewrite Hmf. eapply lookup_weaken; [|exact Hsub].
      destruct R1 as (_ & _ & E1 & _). destruct R2 as (_ & _ & E2 & _).
      by rewrite E2, E1. }
    simpl. pose proof Hs3 as (_ & Hls3 & _).
    destruct (Hls3 (minFreq_ c3) l) as (_ & [hd Hhd] & _).
    { rewrite Hmf. eapply lookup_weaken; [|exact Hsub].
      destruct R1 as (_ & _ & E1 & _). destruct R2 as (_ & _ & E2 & _).
      by rewrite E2, E1. }
    unfold isEmpty. rewrite Hhd. simpl.
    destruct (bool_decide (next hd = Some (tail_ l))).
    - eexists. split; [done|]. split; [|by repeat split].
      apply (safe_fields c3); try done. simpl. rewrite Hmf. lia.
    - exists c3. split; [done|]. split; [done|]. by repeat split. }
  simpl. destruct S4 as (Hc4 & HM4 & HT4 & Hm4).
  destruct (addFreqNum_safe c4 (b + 1)) as (c5 & -> & Hs5 & (Hc5 & HM5) & Hm5 & HT5);
    [done|done|by rewrite HM4, HM3|lia|by rewrite HT4, HT3|].
  exists c5. split; [done|]. split; [done|].
  split; [split; congruence|]. split; congruence.
Qed.

(** *** An admission with room left *)

Lemma putInternal_safe k v c b :
  safe c None b → 1 ≤ b → nodeMap_ c !! k = None →
  Z.of_nat (size (nodeMap_ c)) < to_size_t (capacity_ c) →
  ∃ c', putInternal Key0 Value0 k v c = Some c' ∧ safe c' None b ∧ configured c c' ∧
        nodeMap_ c' = <[k := length (heap c)]> (nodeMap_ c) ∧
        curTotalNum_ c' = curTotalNum_ c.
Proof.
  intros Hs Hb Hk Hroom. unfold putInternal. simpl.
  rewrite decide_False by lia. simpl.
  set (node := length (heap c)).
  set (c3 := set_nodeMap (<[k:=node]> (nodeMap_ c)) (set_heap (heap c ++ [Node_new k v]) c)).
  assert (safe c3 (Some node) b) as Hs3.
  { assert (safe (set_heap (heap c ++ [Node_new k v]) c) None b) as (Hl & Hls & Hr & Hm).
    { apply safe_append; [done|]. intros n Hn. apply list_elem_of_singleton in Hn as ->.
      simpl. split; [done|]. split; [done|]. lia. }
    split; [done|]. split; [done|]. split; [|done].
    intros x p Hx. simpl in Hx. apply lookup_insert_Some in Hx as [[<- <-]|[Hne Hx]].
    - split.
      + intros (g & l & Hg & Htl). destruct (Hls g l Hg) as (_ & _ & t & Ht & _).
        destruct Hs as (_ & Hls0 & _). destruct (Hls0 g l Hg) as (_ & _ & t0 & Ht0 & _).
        apply lookup_lt_Some in Ht0. rewrite Htl in Ht0. unfold node in Ht0. lia.
      + exists (Node_new k v). split; [|done]. simpl. unfold node.
        by rewrite list_lookup_middle.
    - destruct (Hr x p Hx) as (Hnt & n & Hn & Hlist). split; [done|].
      exists n. split; [done|]. intros _. by apply Hlist. }
  destruct (addToFreqList_safe node c3 b) as (c' & Ha & Hs' & _); [done| |..].
  { simpl. apply lookup_lt_is_Some. rewrite length_app. simpl. unfold node. lia. }
  { pose proof Hs3 as (_ & _ & Hr3 & _). destruct (Hr3 k node) as (Hnt & _); [|done].
    simpl. by rewrite lookup_insert_eq. }
  exists c'. split; [done|]. split; [done|].
  apply addToFreqList_quiet in Ha as [(? & ? & ? & ?) _]. simpl in *.
  by repeat split.
Qed.

(** *** The public methods *)

Lemma safe_make capacity maxAverageNum curTotalNum0 :
  safe (make (Key:=Key) (Value:=Value) capacity maxAverageNum curTotalNum0) None 1.
Proof.
  split; [|split; [|split]]; simpl.
  - intros p n Hp. by rewrite lookup_nil in Hp.
  - intros f l Hf. by rewrite lookup_empty in Hf.
  - intros k p Hk. by rewrite lookup_empty in Hk.
  - unfold INT8_MAX. lia.
Qed.

Lemma safe_purge c b : safe c None b → safe (purge c) None b.
Proof.
  intros (Hl & _ & _ & Hm). split; [|split; [|split]]; simpl.
  - done.
  - intros f l Hf. by rewrite lookup_empty in Hf.
  - intros k p Hk. by rewrite lookup_empty in Hk.
  - done.
Qed.

Lemma step_safe o c b :
  sound_order iteration_order → safe c None b → 1 ≤ b →
  0 < capacity_ c ≤ INT_MAX → 0 ≤ maxAverageNum_ c ≤ INT_MAX → b + 1 ≤ INT_MAX →
  INT_MIN ≤ curTotalNum_ c → curTotalNum_ c + 1 ≤ INT_MAX →
  Z.of_nat (size (resident_after o (dom (nodeMap_ c)))) ≤ capacity_ c →
  ∃ c', step Key0 Value0 iteration_order o c = Some c' ∧ safe c' None (b + 1) ∧
        configured c c' ∧ dom (nodeMap_ c') = resident_after o (dom (nodeMap_ c)) ∧
        curTotalNum_ c ≤ curTotalNum_ c' ≤ curTotalNum_ c + 1.
Proof.
  intros Hord Hs Hb Hcap HM Hb1 HT0 HT1 Hfit.
  destruct o as [k v|k|]; simpl in *.
  - unfold put. rewrite decide_False by lia.
    destruct (nodeMap_ c !! k) as [node|] eqn:Hk.
    + pose proof Hs as (_ & _ & Hr & _). destruct (Hr k node Hk) as (_ & n & Hn & _).
      destruct (store_set_value_safe node v c None b) as (c1 & -> & Hs1 & R1);
        [done|by eexists|]. simpl.
      destruct R1 as ((Hc1 & HM1) & Hm1 & _ & _ & HT & _).
      destruct (getInternal_safe k node c1 b) as (c' & -> & Hs' & (Hc' & HM') & Hm' & HT');
        [done|done|by rewrite Hm1|by rewrite HM1|done|rewrite HT; lia|].
      exists c'. split; [done|]. split; [done|]. split; [split; congruence|].
      split; [|lia]. rewrite Hm', Hm1. apply elem_of_dom_2 in Hk. set_solver.
    + assert (to_size_t (capacity_ c) = capacity_ c) as Hst.
      { apply to_size_t_small. unfold INT_MAX, SIZE_WIDTH in *. lia. }
      destruct (putInternal_safe k v c b) as (c' & -> & Hs' & Hcf & Hm' & HT'); [done..| |].
      { rewrite Hst. rewrite size_union in Hfit.
        - rewrite size_singleton, size_dom in Hfit. lia.
        - apply not_elem_of_dom in Hk. set_solver. }
      exists c'. split; [done|]. split; [eapply safe_mono; [|exact Hs']; lia|].
      split; [done|]. split; [|lia]. rewrite Hm'. by rewrite dom_insert_L.
  - unfold get1, get. destruct (nodeMap_ c !! k) as [node|] eqn:Hk; simpl.
    + pose proof Hs as (_ & _ & Hr & _). destruct (Hr k node Hk) as (_ & n & Hn & _).
      rewrite Hn. simpl.
      destruct (getInternal_safe k node c b) as (c' & -> & Hs' & Hcf & Hm' & HT');
        [done..|lia|].
      exists c'. split; [done|]. split; [done|]. split; [done|].
      split; [by rewrite Hm'|lia].
    + exists c. split; [done|]. split; [eapply safe_mono; [|exact Hs]; lia|].
      split; [apply configured_refl|]. split; [done|lia].
  - exists (purge c). split; [done|].
    split; [apply safe_purge; eapply safe_mono; [|exact Hs]; lia|].
    split; [by split|]. split; [|simpl; lia].
    simpl. apply dom_empty_L.
Qed.

Lemma run_safe os : ∀ c b,
  sound_order iteration_order → safe c None b → 1 ≤ b →
  0 < capacity_ c ≤ INT_MAX → 0 ≤ maxAverageNum_ c ≤ INT_MAX →
  b + Z.of_nat (length os) ≤ INT_MAX →
  INT_MIN ≤ curTotalNum_ c → curTotalNum_ c + Z.of_nat (length os) ≤ INT_MAX →
  fits (capacity_ c) os (dom (nodeMap_ c)) →
  ∃ c', run Key0 Value0 iteration_order os c = Some c' ∧
        safe c' None (b + Z.of_nat (length os)) ∧ configured c c' ∧
        dom (nodeMap_ c') = foldl (λ r o, resident_after o r) (dom (nodeMap_ c)) os.
Proof.
  induction os as [|o os IH]; intros c b Hord Hs Hb Hcap HM Hlen HT0 HT1 Hfit.
  - exists c. simpl. split; [done|]. split; [by rewrite Z.add_0_r|].
    split; [apply configured_refl|done].
  - simpl in Hfit. destruct Hfit as [Hfit1 Hfit]. rewrite length_cons in *.
    destruct (step_safe o c b) as (c1 & Hst & Hs1 & (Hc1 & HM1) & Hd1 & HT);
      [done..|lia|done|lia|done|].
    simpl. rewrite Hst. simpl.
    destruct (IH c1 (b + 1)) as (c' & -> & Hs' & (Hc' & HM') & Hd');
      [done|done|lia|by rewrite Hc1|by rewrite HM1|lia|lia|lia|by rewrite Hc1, Hd1|].
    exists c'. split; [done|]. split.
    + replace (b + Z.of_nat (S (length os))) with (b + 1 + Z.of_nat (length os)) by lia.
      done.
    + split; [split; congruence|]. by rewrite Hd', Hd1.
Qed.

(** X16.  Without evictions no null pointer is followed.  On a new LFU
    cache of capacity [0 < capacity <= INT_MAX] and ceiling
    [0 <= maxAverageNum <= INT_MAX], every sequence of [put], [get] and
    [purge] calls that never needs more resident keys than the capacity is
    defined, whatever the order in which the rebalance traverses the index
    map, provided the counters cannot overflow (the sequence is shorter
    than [INT_MAX], also when counted from the initial content of
    [curTotalNum_]).  The keys of the index map are then exactly the keys
    put since the last [purge], and they are at most [capacity]. *)
Theorem defined_without_eviction capacity maxAverageNum curTotalNum0 os :
  sound_order iteration_order →
  0 < capacity ≤ INT_MAX → 0 ≤ maxAverageNum ≤ INT_MAX →
  Z.of_nat (length os) < INT_MAX →
  INT_MIN ≤ curTotalNum0 → curTotalNum0 + Z.of_nat (length os) ≤ INT_MAX →
  fits capacity os ∅ →
  ∃ c, run Key0 Value0 iteration_order os (make capacity maxAverageNum curTotalNum0)
         = Some c ∧
       dom (nodeMap_ c) = foldl (λ r o, resident_after o r) ∅ os ∧
       Z.of_nat (size (nodeMap_ c)) ≤ capacity.
Proof.
  intros Hord Hcap HM Hlen HT0 HT1 Hfit.
  destruct (run_safe os (make capacity maxAverageNum curTotalNum0) 1 Hord)
    as (c & Hrun & _ & _ & Hd);
    [apply safe_make|lia|done|done|lia|done|done|simpl; by rewrite dom_empty_L|].
  simpl in Hd. rewrite dom_empty_L in Hd.
  exists c. split; [done|]. split; [done|].
  rewrite <- size_dom, Hd. clear Hrun Hd c HT1 Hlen.
  assert (Z.of_nat (size (∅ : gset Key)) ≤ capacity) as H0 by (rewrite size_empty; lia).
  revert Hfit H0. generalize (∅ : gset Key).
  induction os as [|o os IH]; intros r Hfit Hr; simpl in *; [done|].
  destruct Hfit as [H1 Hfit]. by apply IH.
Qed.

End lfu_safety_facts.

Section lfu_safety_runs.
Import Lfu LfuSafety.

Lemma sound_order_map_to_list {Key : Type} `{Countable Key} :
  sound_order (Key:=Key) map_to_list.
Proof. intros m k p Hin. by apply elem_of_map_to_list. Qed.

(** Capacity 2 and ceiling 1: two keys are written and read, with a
    rebalance on the way, and the cache is purged and written again. *)
Lemma defined_without_eviction_witness :
  ∃ c, run 0 "" map_to_list
         [Put 1 "A"; Put 2 "B"; Get 1; Get 1; Get 2; Put 1 "C"; Purge; Put 3 "D"]
         (make 2 1 0) = Some c ∧
       dom (nodeMap_ c) = {[3]} ∧
       Z.of_nat (size (nodeMap_ c)) ≤ 2.
Proof.
  assert (0 < 2 ≤ INT_MAX) as Hcap by (unfold INT_MAX; lia).
  assert (0 ≤ 1 ≤ INT_MAX) as HM by (unfold INT_MAX; lia).
  assert (Z.of_nat (length
            [Put 1 "A"; Put 2 "B"; Get 1; Get 1; Get 2; Put 1 "C"; Purge; Put 3 "D"])
          < INT_MAX) as Hlen by (vm_compute; reflexivity).
  assert (INT_MIN ≤ 0) as HT0 by (vm_compute; discriminate).
  assert (0 + Z.of_nat (length
            [Put 1 "A"; Put 2 "B"; Get 1; Get 1; Get 2; Put 1 "C"; Purge; Put 3 "D"])
          ≤ INT_MAX) as HT1 by (vm_compute; discriminate).
  assert (fits 2 [Put 1 "A"; Put 2 "B"; Get 1; Get 1; Get 2; Put 1 "C"; Purge; Put 3 "D"]
            (∅ : gset Z)) as Hfit.
  { simpl. repeat split; vm_compute; discriminate. }
  destruct (defined_without_eviction 0 "" map_to_list 2 1 0
              [Put 1 "A"; Put 2 "B"; Get 1; Get 1; Get 2; Put 1 "C"; Purge; Put 3 "D"]
              sound_order_map_to_list Hcap HM Hlen HT0 HT1 Hfit) as (c & Hrun & Hdom & Hsz).
  exists c. split; [exact Hrun|]. split; [|exact Hsz].
  rewrite Hdom. vm_compute. reflexivity.
Defined.

End lfu_safety_runs.
